(** * golap: a shallow embedding of the streaming query engine

    The development follows the Go packages of the repository:
    [types] (values, rows, schemas, comparators), [metadata] (zone
    maps) and [operators] (scan, filter, aggregates, external sort,
    close), over models of the library calls they make: [strconv],
    [encoding/csv], [sort], [container/heap] and [os].

    Conventions.
    - An [int64] is a [Z]; the only arithmetic the engine performs on
      one is [count++], whose wrap-around is written out ([wrap64]).
    - A [float64] is a primitive binary64 float of the kernel.
    - A Go [interface{}] holding a row value is the tagged union
      [Value]; the dynamic type [int] that some type switches also
      list is never produced by the engine and has no constructor.
    - [map[string]int64] is a [gmap string Z].
    - An [error] is the message the code wraps it in. *)

From Stdlib Require Import ZArith String Ascii List Lia Bool.
From Stdlib Require Import Decimal DecimalString DecimalZ DecimalPos.
From Stdlib Require Import Floats.
From Stdlib Require Import Sorting.Sorted Sorting.Permutation.
From stdpp Require Import base option list gmap strings.

Local Open Scope string_scope.
Local Open Scope Z_scope.

(** ** Package [types] *)

Module types.

(** [type DataType int] with its three constants. *)
Inductive DataType := Int | Float | String.

(** [type Comparator int]: the six declared constants; [CmpOther]
    stands for any other integer, which the [default] arms of the
    switches over a comparator receive. *)
Inductive Comparator := Eq | Lt | Gt | Lte | Gte | Neq | CmpOther.

(** [type AggregateType int], likewise. *)
Inductive AggregateType := Count | Sum | Min | Max | Avg | AggOther.

(** The dynamic values a row holds: [int64], [float64], [string] or
    [nil]. *)
Inductive Value :=
| VInt (v : Z)
| VFloat (f : float)
| VString (s : string)
| VNil.

Record Row := mkRow { Values : list Value }.

Record Schema := mkSchema { Columns : list string; Types : list DataType }.

(** An operator call yields a row, end of stream ([nil, nil]) or an
    error. *)
Inductive Result (A : Type) :=
| Ok (a : A)
| Err (msg : string).
Arguments Ok {A} a.
Arguments Err {A} msg.

(** [func (s Schema) ColumnIndex(name string) int]: the loop over
    [s.Columns], from index [i] on. *)
Fixpoint columnIndexFrom (i : Z) (columns : list string) (name : string) : Z :=
  match columns with
  | [] => -1
  | col :: columns' =>
      if String.eqb col name then i else columnIndexFrom (i + 1) columns' name
  end.

Definition ColumnIndex (s : Schema) (name : string) : Z :=
  columnIndexFrom 0 (Columns s) name.

End types.

Import types(Value, VInt, VFloat, VString, VNil, Row, mkRow, Values,
             Schema, mkSchema, Columns, Types, Result, Ok, Err).

Definition min_int64 : Z := - 2 ^ 63.
Definition max_int64 : Z := 2 ^ 63 - 1.

Definition in_int64 (z : Z) : bool := (min_int64 <=? z) && (z <=? max_int64).

(** Two's-complement wrap-around of an [int64] result. *)
Definition wrap64 (z : Z) : Z := (z + 2 ^ 63) mod 2 ^ 64 - 2 ^ 63.

(** ** Package [strconv] (Go standard library)

    Modelled from the documentation of [strconv]: [FormatInt v 10] is
    the decimal text of [v] with a leading minus sign when negative;
    [ParseInt s 10 64] accepts an optional sign followed by one or more
    decimal digits and fails on any other text or when the value does
    not fit in 64 bits. *)

Module strconv.

Definition FormatInt (v : Z) : string := NilZero.string_of_int (Z.to_int v).

Definition parse_digits (s : string) : option Z :=
  match s with
  | EmptyString => None
  | _ => option_map Z.of_uint (NilEmpty.uint_of_string s)
  end.

Definition ParseInt (s : string) : option Z :=
  let signed :=
    match s with
    | EmptyString => None
    | String c rest =>
        if Ascii.eqb c "-" then option_map Z.opp (parse_digits rest)
        else if Ascii.eqb c "+" then parse_digits rest
        else parse_digits s
    end in
  match signed with
  | Some v => if in_int64 v then Some v else None
  | None => None
  end.

End strconv.

(** ** Package [encoding/csv] (Go standard library)

    Modelled from the documentation of [csv.Reader]: a reader over an
    open file is the sequence of what its successive [Read] calls
    return, a record or an error, followed by [io.EOF]. The parsing of
    the bytes of the file is the library's and is not modelled. *)

Module csv.

Inductive ReadItem :=
| Record (fields : list string)
| ReadError (msg : string).

Abbreviation Reader := (list ReadItem).

Inductive ReadResult :=
| GotRecord (fields : list string)
| Failed (msg : string)
| EOF.

Definition Read (r : Reader) : ReadResult * Reader :=
  match r with
  | [] => (EOF, [])
  | Record fields :: r' => (GotRecord fields, r')
  | ReadError msg :: r' => (Failed msg, r')
  end.

(** *** A file written by a [Writer] and read back

    Modelled from the source of [encoding/csv], for the [Writer] and
    the [Reader] that [csv.NewWriter] and [csv.NewReader] return
    (comma separator, [UseCRLF] false, [FieldsPerRecord] 0, no comment
    character). [Writer.Write] ends a record with a line feed and
    puts a field that holds a comma, a quote, a carriage return or a
    line feed between quotes, so a [Reader] gets the fields back, but
    for three things:
    - a record with no field, or with one field that is empty, is
      written as an empty line, and [Reader.readRecord] skips the
      empty lines;
    - a quoted field is read line by line, and [Reader.readLine] turns
      a carriage return and line feed at the end of a line into a line
      feed, so that this pair inside a field comes back as a line
      feed;
    - the first record read sets [FieldsPerRecord], and a later record
      with another number of fields is returned with
      [ErrFieldCount]. *)

Definition CR : ascii := "013"%char.
Definition LF : ascii := "010"%char.

(** The record that [Write] renders as an empty line. *)
Definition emptyLine (record : list string) : bool :=
  match record with
  | [] => true
  | [field] => String.eqb field ""
  | _ :: _ :: _ => false
  end.

(** A field as [readLine] leaves it: every carriage return that a
    line feed follows is removed. *)
Fixpoint dropCR (field : string) : string :=
  match field with
  | EmptyString => EmptyString
  | String c rest =>
      match rest with
      | String c' _ =>
          if Ascii.eqb c CR && Ascii.eqb c' LF then dropCR rest
          else String c (dropCR rest)
      | EmptyString => String c EmptyString
      end
  end.

(** What the successive [Read] calls return over the records
    [written], for a reader whose [FieldsPerRecord] is
    [fieldsPerRecord] (0: not set yet). *)
Fixpoint readFrom (fieldsPerRecord : nat) (written : list (list string)) : Reader :=
  match written with
  | [] => []
  | record :: written' =>
      if emptyLine record then readFrom fieldsPerRecord written'
      else
        let fields := map dropCR record in
        if (fieldsPerRecord =? 0)%nat
        then Record fields :: readFrom (length fields) written'
        else if (length fields =? fieldsPerRecord)%nat
             then Record fields :: readFrom fieldsPerRecord written'
             else ReadError "wrong number of fields" :: readFrom fieldsPerRecord written'
  end.

(** [csv.NewReader(file)] over a file that holds the records
    [written]. *)
Definition NewReader (written : list (list string)) : Reader := readFrom 0 written.

End csv.

(** ** Package [metadata]: zone maps *)

Module metadata.

Record ZoneMap := mkZoneMap {
  Filename : string;
  RowCount : Z;
  MinValues : gmap string Z;
  MaxValues : gmap string Z
}.

(** [func (zm *ZoneMap) CanPrune(columnName, comp, value) bool] *)
Definition CanPrune (zm : ZoneMap) (columnName : string)
           (comp : types.Comparator) (value : Z) : bool :=
  match MinValues zm !! columnName, MaxValues zm !! columnName with
  | Some min, Some max =>
      match comp with
      | types.Eq => (value <? min) || (value >? max)
      | types.Lt => min >=? value
      | types.Lte => min >? value
      | types.Gt => max <=? value
      | types.Gte => max <? value
      | types.Neq => (min =? max) && (min =? value)
      | types.CmpOther => false
      end
  | _, _ => false
  end.

(** The scanning state of [GenerateZoneMap]: its three live maps
    (the fourth, [initialized], is only ever written). *)
Record scanState := mkScan {
  isIntColumn : gmap string bool;
  minValues : gmap string Z;
  maxValues : gmap string Z
}.

(** [for i, val := range record { if i >= len(header) { continue } ... }]:
    the body runs on the pairs (header[i], record[i]) in index order. *)
Fixpoint rangeColumns {S : Type} (body : string -> string -> S -> S)
         (header record : list string) (st : S) : S :=
  match header, record with
  | colName :: header', val :: record' =>
      rangeColumns body header' record' (body colName val st)
  | _, _ => st
  end.

(** Body of the loop over the first data row. *)
Definition firstRowBody (colName val : string) (st : scanState) : scanState :=
  match strconv.ParseInt val with
  | Some v => mkScan (<[colName := true]> (isIntColumn st))
                     (<[colName := v]> (minValues st))
                     (<[colName := v]> (maxValues st))
  | None => st
  end.

(** Body of the loop over every later row. *)
Definition rowBody (colName val : string) (st : scanState) : scanState :=
  if negb (default false (isIntColumn st !! colName)) then st
  else
    match strconv.ParseInt val with
    | None => mkScan (delete colName (isIntColumn st))
                     (delete colName (minValues st))
                     (delete colName (maxValues st))
    | Some v =>
        let mins := if v <? default 0 (minValues st !! colName)
                    then <[colName := v]> (minValues st) else minValues st in
        let maxs := if v >? default 0 (maxValues st !! colName)
                    then <[colName := v]> (maxValues st) else maxValues st in
        mkScan (isIntColumn st) mins maxs
    end.

(** The [for { record, err := reader.Read() ... }] loop: the state and
    the row counter after the remaining records, or the read error. *)
Fixpoint scanRows (header : list string) (r : csv.Reader)
         (st : scanState) (rowCount : Z) : Result (scanState * Z) :=
  match r with
  | [] => Ok (st, rowCount)
  | csv.ReadError _ :: _ => Err "error reading CSV row"
  | csv.Record record :: r' =>
      scanRows header r' (rangeColumns rowBody header record st)
               (wrap64 (rowCount + 1))
  end.

(** [func GenerateZoneMap(csvPath string)], returning a zone map or an error; [file]
    is what [os.Open csvPath] finds. *)
Definition GenerateZoneMap (csvPath : string) (file : option csv.Reader)
  : Result ZoneMap :=
  match file with
  | None => Err "failed to open CSV"
  | Some r =>
      match csv.Read r with
      | (csv.GotRecord header, r1) =>
          let st0 := mkScan ∅ ∅ ∅ in
          match csv.Read r1 with
          | (csv.EOF, _) => Ok (mkZoneMap csvPath 0 (minValues st0) (maxValues st0))
          | (csv.Failed _, _) => Err "failed to read first data row"
          | (csv.GotRecord firstRow, r2) =>
              let st1 := rangeColumns firstRowBody header firstRow st0 in
              match scanRows header r2 st1 1 with
              | Err msg => Err msg
              | Ok (st, rowCount) =>
                  Ok (mkZoneMap csvPath rowCount (minValues st) (maxValues st))
              end
          end
      | (_, _) => Err "failed to read CSV header"
      end
  end.

(** The table of the specification, read as a proposition. *)
Definition prune_condition (comp : types.Comparator) (min max literal : Z) : Prop :=
  match comp with
  | types.Eq => literal < min \/ literal > max
  | types.Lt => min >= literal
  | types.Lte => min > literal
  | types.Gt => max <= literal
  | types.Gte => max < literal
  | types.Neq => min = max /\ max = literal
  | types.CmpOther => False
  end.

End metadata.

(** ** Conversions and formatting of the Go language and runtime *)

Module golang.

(** What the embedding takes from the Go libraries without defining
    it: the decimal text of a [float64] and its parsing, and the
    value of a float-to-integer conversion whose operand has no
    [int64] value (which the language leaves to the implementation). *)
Class Platform := {
  (** [strconv.ParseFloat(s, 64)], [None] when it returns an error *)
  ParseFloat : string -> option float;
  (** [strconv.FormatFloat(v, 'f', -1, 64)] *)
  FormatFloat : float -> string;
  (** [fmt.Sprintf("%v", v)] for a [float64] *)
  SprintFloat : float -> string;
  (** [int64(v)] when the truncation of [v] is not an [int64] *)
  int64_unrepresentable : float -> Z
}.

(** [float64(v)] for an [int64]: rounding to nearest, ties to even. *)
Definition float64_of_int64 (v : Z) : float :=
  if v =? min_int64 then PrimFloat.opp (Z.ldexp PrimFloat.one 63)
  else if v <? 0 then PrimFloat.opp (PrimFloat.of_uint63 (Uint63.of_Z (- v)))
  else PrimFloat.of_uint63 (Uint63.of_Z v).

(** The integer part of a finite float (the fraction is discarded). *)
Definition truncate (f : float) : option Z :=
  match Prim2SF f with
  | S754_zero _ => Some 0
  | S754_finite s m e =>
      let magnitude := if 0 <=? e then Zpos m * 2 ^ e else Zpos m / 2 ^ (- e) in
      Some (if s then - magnitude else magnitude)
  | _ => None
  end.

(** [int64(v)] for a [float64]. *)
Definition int64_of_float64 `{Platform} (f : float) : Z :=
  match truncate f with
  | Some v => if in_int64 v then v else int64_unrepresentable f
  | None => int64_unrepresentable f
  end.

(** [math.MaxFloat64] *)
Definition MaxFloat64 : float := 0x1.fffffffffffffp+1023%float.

(** [fmt.Sprintf("%v", val)] on a row value. *)
Definition Sprint `{Platform} (val : Value) : string :=
  match val with
  | VInt v => strconv.FormatInt v
  | VFloat f => SprintFloat f
  | VString s => s
  | VNil => "<nil>"
  end.

(** Go compares strings byte by byte. *)
Definition string_lt (a b : string) : bool :=
  match String.compare a b with Lt => true | _ => false end.

(** [a[i]] for an [int] index known to be in range; [nil] stands in
    where the guard of the caller has already excluded the index. *)
Definition index (vals : list Value) (i : Z) : Value :=
  nth (Z.to_nat i) vals VNil.

Definition len {A} (l : list A) : Z := Z.of_nat (length l).

End golang.

Import golang(Platform, ParseFloat, FormatFloat, SprintFloat, len).

(** ** Package [sort] (Go standard library)

    Modelled from Go's sort package: [insertionSortLessFunc], which
    [sort.Slice] runs on a slice of at most 12 elements. Each element
    moves towards the front while it is less than the one before it;
    [before] is the part already sorted, last element first. *)

Module sort.

Fixpoint insertBack {A} (less : A -> A -> bool) (x : A) (before : list A) : list A :=
  match before with
  | [] => [x]
  | y :: before' => if less x y then y :: insertBack less x before' else x :: before
  end.

Definition insertionSort {A} (less : A -> A -> bool) (data : list A) : list A :=
  rev (fold_left (fun before x => insertBack less x before) data []).

End sort.

Import sort.

(** ** Package [os] (Go standard library)

    Modelled from the documentation of [os.File]: [Close] releases the
    descriptor and "will return an error if it has already been
    called"; [Remove] deletes the named file and fails when there is
    none. The state records which descriptors have been closed, which
    temporary files exist, and every release that took effect. *)

Module os.

Definition File := nat.

Inductive event :=
| Closed (f : File)
| Removed (path : string).

Record State := mkState {
  closed : gset nat;
  present : gset string;
  released : list event
}.

Definition Close (f : File) (st : State) : option string * State :=
  if decide (f ∈ closed st) then (Some "file already closed", st)
  else (None, mkState ({[f]} ∪ closed st) (present st) (released st ++ [Closed f])).

Definition Remove (path : string) (st : State) : option string * State :=
  if decide (path ∈ present st)
  then (None, mkState (closed st) (present st ∖ {[path]}) (released st ++ [Removed path]))
  else (Some "no such file or directory", st).

End os.

(** ** Package [operators] *)

Module operators.

(** The upstream of an operator, seen from the operator that owns it:
    the finite sequence of what the successive [input.Next()] calls
    return (a row or an error) before the end of the stream, which is
    then reported on every later call. *)
Inductive Pull :=
| PullRow (row : Row)
| PullErr (msg : string).

Definition Input := list Pull.

Definition Input_Next (input : Input) : Result (option Row) * Input :=
  match input with
  | [] => (Ok None, [])
  | PullRow row :: input' => (Ok (Some row), input')
  | PullErr msg :: input' => (Err msg, input')
  end.

(** *** scan.go *)

Section scan.
Context `{Platform}.

Record CSVScan := mkCSVScan {
  scan_reader : csv.Reader;
  scan_file : option os.File;
  scan_schema : Schema;
  firstRow : option (list string);
  firstRowReturned : bool
}.

(** [func inferType(val string) types.DataType] *)
Definition inferType (val : string) : types.DataType :=
  if String.eqb val "" then types.String
  else match strconv.ParseInt val with
       | Some _ => types.Int
       | None =>
           match ParseFloat val with
           | Some _ => types.Float
           | None => types.String
           end
       end.

(** [func parseValue(val string, dt types.DataType) interface{}] *)
Definition parseValue (val : string) (dt : types.DataType) : Value :=
  match dt with
  | types.Int =>
      match strconv.ParseInt val with
      | Some v => VInt v
      | None => VInt 0
      end
  | types.Float =>
      match ParseFloat val with
      | Some v => VFloat v
      | None => VFloat 0%float
      end
  | types.String => VString val
  end.

(** The loop shared by [CSVScan.Next] and [SortOp.recordToRow]:
    [values[i] = parseValue(val, types[i])] while [i < len(types)],
    and the text itself for the extra columns. *)
Fixpoint parseRecord (record : list string) (colTypes : list types.DataType)
  : list Value :=
  match record with
  | [] => []
  | val :: record' =>
      match colTypes with
      | dt :: colTypes' => parseValue val dt :: parseRecord record' colTypes'
      | [] => VString val :: parseRecord record' []
      end
  end.

(** [colTypes := make([]types.DataType, len(header))] followed by
    [colTypes[i] = inferType(val)] over the first row: a slice of
    [len(header)] zero values ([types.Int]) overwritten from the
    left; a first row longer than the header indexes out of range. *)
Definition inferTypes (header first : list string) : option (list types.DataType) :=
  if (length first <=? length header)%nat
  then Some (map inferType first
             ++ replicate (length header - length first) types.Int)%list
  else None.

(** [func NewCSVScan(filePath string)]; [opened] is what [os.Open]
    returns: the descriptor and the reader over the file, or
    nothing when the file cannot be opened. *)
Definition NewCSVScan (opened : option (os.File * csv.Reader)) : Result CSVScan :=
  match opened with
  | None => Err "failed to open CSV file"
  | Some (file, reader) =>
      match csv.Read reader with
      | (csv.GotRecord header, reader1) =>
          match csv.Read reader1 with
          | (csv.Failed _, _) => Err "failed to read first data row"
          | (csv.GotRecord first, reader2) =>
              match inferTypes header first with
              | Some colTypes =>
                  Ok (mkCSVScan reader2 (Some file)
                        (mkSchema header colTypes) (Some first) false)
              | None => Err "panic: index out of range"
              end
          | (csv.EOF, reader2) =>
              Ok (mkCSVScan reader2 (Some file)
                    (mkSchema header (map (fun _ => types.String) header)) None false)
          end
      | (_, _) => Err "failed to read CSV header"
      end
  end.

(** [func (s *CSVScan) Next()] *)
Definition CSVScan_Next (s : CSVScan) : Result (option Row) * CSVScan :=
  let parse record := mkRow (parseRecord record (Types (scan_schema s))) in
  match firstRowReturned s, firstRow s with
  | false, Some record =>
      (Ok (Some (parse record)),
       mkCSVScan (scan_reader s) (scan_file s) (scan_schema s) (firstRow s) true)
  | _, _ =>
      let '(res, reader') := csv.Read (scan_reader s) in
      let s' := mkCSVScan reader' (scan_file s) (scan_schema s)
                          (firstRow s) (firstRowReturned s) in
      match res with
      | csv.EOF => (Ok None, s')
      | csv.Failed _ => (Err "error reading CSV row", s')
      | csv.GotRecord record => (Ok (Some (parse record)), s')
      end
  end.

End scan.

(** *** filter.go *)

Section filter.
Context `{Platform}.

Record Comparison := mkComparison {
  cmp_ColumnIndex : Z;
  cmp_Comparator : types.Comparator;
  cmp_Value : Value
}.

(** [func toInt64(v interface{}) (int64, bool)] *)
Definition toInt64 (v : Value) : option Z :=
  match v with
  | VInt val => Some val
  | VFloat val => Some (golang.int64_of_float64 val)
  | _ => None
  end.

(** [func toFloat64(v interface{}) (float64, bool)] *)
Definition toFloat64 (v : Value) : option float :=
  match v with
  | VFloat val => Some val
  | VInt val => Some (golang.float64_of_int64 val)
  | _ => None
  end.

Definition compareInt64 (left : Z) (comp : types.Comparator) (right : Z) : bool :=
  match comp with
  | types.Eq => left =? right
  | types.Lt => left <? right
  | types.Gt => left >? right
  | types.Lte => left <=? right
  | types.Gte => left >=? right
  | types.Neq => negb (left =? right)
  | types.CmpOther => false
  end.

Definition compareFloat64 (left : float) (comp : types.Comparator) (right : float) : bool :=
  match comp with
  | types.Eq => PrimFloat.eqb left right
  | types.Lt => PrimFloat.ltb left right
  | types.Gt => PrimFloat.ltb right left
  | types.Lte => PrimFloat.leb left right
  | types.Gte => PrimFloat.leb right left
  | types.Neq => negb (PrimFloat.eqb left right)
  | types.CmpOther => false
  end.

Definition compareString (left : string) (comp : types.Comparator) (right : string) : bool :=
  match comp with
  | types.Eq => String.eqb left right
  | types.Lt => golang.string_lt left right
  | types.Gt => golang.string_lt right left
  | types.Lte => negb (golang.string_lt right left)
  | types.Gte => negb (golang.string_lt left right)
  | types.Neq => negb (String.eqb left right)
  | types.CmpOther => false
  end.

(** [func compare(left interface{}, comp types.Comparator, right interface{}) bool] *)
Definition compare (left : Value) (comp : types.Comparator) (right : Value) : bool :=
  match left with
  | VInt leftInt =>
      match toInt64 right with
      | Some rightInt => compareInt64 leftInt comp rightInt
      | None => false
      end
  | VFloat leftFloat =>
      match toFloat64 right with
      | Some rightFloat => compareFloat64 leftFloat comp rightFloat
      | None => false
      end
  | VString leftStr =>
      let rightStr := match right with
                      | VString s => s
                      | _ => golang.Sprint right
                      end in
      compareString leftStr comp rightStr
  | VNil => false
  end.

(** [func BuildComparisonPredicate(comp Comparison) Predicate] *)
Definition BuildComparisonPredicate (comp : Comparison) (row : Row) : bool :=
  if (cmp_ColumnIndex comp <? 0) || (cmp_ColumnIndex comp >=? len (Values row))
  then false
  else compare (golang.index (Values row) (cmp_ColumnIndex comp))
               (cmp_Comparator comp) (cmp_Value comp).

(** [func AndPredicate(predicates ...Predicate) Predicate] *)
Definition AndPredicate (predicates : list (Row -> bool)) (row : Row) : bool :=
  forallb (fun p => p row) predicates.

(** [func (f *FilterOp) Next()]: the loop over the upstream. *)
Fixpoint FilterOp_Next (predicate : Row -> bool) (input : Input)
  : Result (option Row) * Input :=
  match input with
  | [] => (Ok None, [])
  | PullErr msg :: input' => (Err msg, input')
  | PullRow row :: input' =>
      if predicate row then (Ok (Some row), input')
      else FilterOp_Next predicate input'
  end.

End filter.

(** *** aggregate.go *)

Section aggregate.
Context `{Platform}.

Record AggregateExpr := mkAggregateExpr {
  agg_Type : types.AggregateType;
  agg_ColumnIndex : Z;
  agg_Alias : string
}.

Record aggregateState := mkAggState {
  st_count : Z;
  st_sum : float;
  st_min : float;
  st_max : float;
  st_hasData : bool
}.

(** The zero value of [aggregateState] with [min] and [max] set as
    [Next] and [computeGroups] set them. *)
Definition initState : aggregateState :=
  mkAggState 0 0%float golang.MaxFloat64 (PrimFloat.opp golang.MaxFloat64) false.

(** [func toNumericValue(val interface{}) (float64, bool)] *)
Definition toNumericValue (val : Value) : option float :=
  match val with
  | VInt v => Some (golang.float64_of_int64 v)
  | VFloat v => Some v
  | _ => None
  end.

Definition isCount (t : types.AggregateType) : bool :=
  match t with types.Count => true | _ => false end.

(** [updateState]: the method of [ScalarAggregateOp] and the one of
    [HashAggregateOp] have the same body. *)
Definition updateState (state : aggregateState) (agg : AggregateExpr) (row : Row)
  : aggregateState :=
  let count := wrap64 (st_count state + 1) in
  let counted := mkAggState count (st_sum state) (st_min state) (st_max state)
                            (st_hasData state) in
  if isCount (agg_Type agg) && (agg_ColumnIndex agg <? 0)
  then mkAggState count (st_sum state) (st_min state) (st_max state) true
  else if (agg_ColumnIndex agg <? 0) || (agg_ColumnIndex agg >=? len (Values row))
  then counted
  else
    match toNumericValue (golang.index (Values row) (agg_ColumnIndex agg)) with
    | None => counted
    | Some numVal =>
        mkAggState count
          (PrimFloat.add (st_sum state) numVal)
          (if PrimFloat.ltb numVal (st_min state) then numVal else st_min state)
          (if PrimFloat.ltb (st_max state) numVal then numVal else st_max state)
          true
    end.

(** [finalizeState], likewise shared by the two operators. *)
Definition finalizeState (state : aggregateState) (agg : AggregateExpr) : Value :=
  match agg_Type agg with
  | types.Count => VInt (st_count state)
  | types.Sum => if st_hasData state then VFloat (st_sum state) else VFloat 0%float
  | types.Min => if st_hasData state then VFloat (st_min state) else VNil
  | types.Max => if st_hasData state then VFloat (st_max state) else VNil
  | types.Avg =>
      if st_count state =? 0 then VNil
      else VFloat (PrimFloat.div (st_sum state)
                                 (golang.float64_of_int64 (st_count state)))
  | types.AggOther => VNil
  end.

(** [for i, agg := range aggregates { updateState(&states[i], agg, row) }] *)
Definition updateStates (aggregates : list AggregateExpr)
           (states : list aggregateState) (row : Row) : list aggregateState :=
  zip_with (fun state agg => updateState state agg row) states aggregates.

Record ScalarAggregateOp := mkScalarAggregateOp {
  sa_input : Input;
  sa_aggregates : list AggregateExpr;
  sa_outputSchema : Schema;
  sa_computed : bool;
  sa_resultRow : option Row
}.

(** The output schema of both aggregate operators names a column by
    its alias, or by [fmt.Sprintf("%s_%d", agg.Type.String(), i)]
    when the alias is empty. *)
Definition AggregateType_String (t : types.AggregateType) : string :=
  match t with
  | types.Count => "COUNT"
  | types.Sum => "SUM"
  | types.Min => "MIN"
  | types.Max => "MAX"
  | types.Avg => "AVG"
  | types.AggOther => "?"
  end.

Definition aggColumn (i : nat) (agg : AggregateExpr) : string :=
  if String.eqb (agg_Alias agg) "" 
  then AggregateType_String (agg_Type agg) +:+ "_" +:+ strconv.FormatInt (Z.of_nat i)
  else agg_Alias agg.

Definition aggColType (agg : AggregateExpr) : types.DataType :=
  if isCount (agg_Type agg) then types.Int else types.Float.

(** [func NewScalarAggregateOp(input, aggregates)] *)
Definition NewScalarAggregateOp (input : Input) (aggregates : list AggregateExpr)
  : ScalarAggregateOp :=
  mkScalarAggregateOp input aggregates
    (mkSchema (imap aggColumn aggregates) (map aggColType aggregates))
    false None.

(** The loop of [ScalarAggregateOp.Next] over the upstream. *)
Fixpoint aggregateAll (aggregates : list AggregateExpr) (input : Input)
         (states : list aggregateState) : Result (list aggregateState) * Input :=
  match input with
  | [] => (Ok states, [])
  | PullErr msg :: input' => (Err msg, input')
  | PullRow row :: input' =>
      aggregateAll aggregates input' (updateStates aggregates states row)
  end.

(** [func (s *ScalarAggregateOp) Next()] *)
Definition ScalarAggregateOp_Next (s : ScalarAggregateOp)
  : Result (option Row) * ScalarAggregateOp :=
  if sa_computed s then (Ok None, s)
  else
    let states := replicate (length (sa_aggregates s)) initState in
    match aggregateAll (sa_aggregates s) (sa_input s) states with
    | (Err msg, input') =>
        (Err msg, mkScalarAggregateOp input' (sa_aggregates s) (sa_outputSchema s)
                                      (sa_computed s) (sa_resultRow s))
    | (Ok states', input') =>
        let row := mkRow (zip_with finalizeState states' (sa_aggregates s)) in
        (Ok (Some row),
         mkScalarAggregateOp input' (sa_aggregates s) (sa_outputSchema s)
                             true (Some row))
    end.

Record groupState := mkGroupState {
  keyValues : list Value;
  gs_states : list aggregateState
}.

(** The separator of the composite key, the byte 0. *)
Definition NUL : ascii := Ascii.zero.

(** [func (h *HashAggregateOp) buildGroupKey(row *types.Row) string],
    from position [i] of [groupByIndices] on. *)
Fixpoint buildGroupKeyFrom (i : nat) (groupByIndices : list Z) (row : Row)
         (key : string) : string :=
  match groupByIndices with
  | [] => key
  | idx :: rest =>
      let key1 := if (0 <? i)%nat then key +:+ String NUL "" else key in
      let key2 := if (0 <=? idx) && (idx <? len (Values row))
                  then key1 +:+ golang.Sprint (golang.index (Values row) idx)
                  else key1 in
      buildGroupKeyFrom (S i) rest row key2
  end.

Definition buildGroupKey (groupByIndices : list Z) (row : Row) : string :=
  buildGroupKeyFrom 0 groupByIndices row "".

(** The key values stored with a new group: the value of each
    group-by column, [nil] where the index is out of range. *)
Definition groupKeyValues (groupByIndices : list Z) (row : Row) : list Value :=
  map (fun idx => if (0 <=? idx) && (idx <? len (Values row))
                  then golang.index (Values row) idx else VNil)
      groupByIndices.

(** One iteration of the loop of [computeGroups] on a row. *)
Definition addRow (groupByIndices : list Z) (aggregates : list AggregateExpr)
           (acc : gmap string groupState * list string) (row : Row)
  : gmap string groupState * list string :=
  let '(groups, keys) := acc in
  let key := buildGroupKey groupByIndices row in
  let '(group, keys') :=
    match groups !! key with
    | Some group => (group, keys)
    | None =>
        (mkGroupState (groupKeyValues groupByIndices row)
                      (replicate (length aggregates) initState),
         (keys ++ [key])%list)
    end in
  (<[key := mkGroupState (keyValues group)
                         (updateStates aggregates (gs_states group) row)]> groups,
   keys').

(** [func (h *HashAggregateOp) computeGroups() error] *)
Fixpoint computeGroups (groupByIndices : list Z) (aggregates : list AggregateExpr)
         (input : Input) (acc : gmap string groupState * list string)
  : Result (gmap string groupState * list string) * Input :=
  match input with
  | [] => (Ok acc, [])
  | PullErr msg :: input' => (Err msg, input')
  | PullRow row :: input' =>
      computeGroups groupByIndices aggregates input'
                    (addRow groupByIndices aggregates acc row)
  end.

End aggregate.

(** *** Package [sort] (Go standard library)

    Modelled from the documentation of [sort.Slice]: it sorts the
    slice by the given [less], is not guaranteed to be stable, and
    requires [less] to be a transitive ordering whose incomparability
    is transitive too. The algorithm is the library's; the embedding
    takes any function that meets this contract. *)

Definition strict_weak {A} (less : A -> A -> bool) (l : list A) : Prop :=
  (forall a, a ∈ l -> less a a = false) /\
  (forall a b c, a ∈ l -> b ∈ l -> c ∈ l ->
                 less a b = true -> less b c = true -> less a c = true) /\
  (forall a b c, a ∈ l -> b ∈ l -> c ∈ l ->
                 less a b = false -> less b c = false -> less a c = false).

(** [ordered less l]: no element of [l] is less than an earlier one. *)
Definition ordered {A} (less : A -> A -> bool) (l : list A) : Prop :=
  StronglySorted (fun a b => less b a = false) l.

Class SliceSorter := {
  sort_Slice : (Row -> Row -> bool) -> list Row -> list Row;
  sort_Slice_Permutation : forall less l, Permutation l (sort_Slice less l);
  sort_Slice_ordered : forall less l, strict_weak less l -> ordered less (sort_Slice less l)
}.

(** *** The external sort operator *)

Section sort.
Context `{Platform} `{SliceSorter}.

(** [compareRows]: the method of [SortOp] and the one of
    [mergeHeap] have the same body, over their own [columnIndex]. *)
Definition compareRows (columnIndex : Z) (a b : Row) : Z :=
  if (columnIndex <? 0) || (columnIndex >=? len (Values a))
     || (columnIndex >=? len (Values b))
  then 0
  else
    match golang.index (Values a) columnIndex, golang.index (Values b) columnIndex with
    | VInt av, VInt bv => if av <? bv then -1 else if av >? bv then 1 else 0
    | VFloat av, VFloat bv =>
        if PrimFloat.ltb av bv then -1 else if PrimFloat.ltb bv av then 1 else 0
    | VString av, VString bv =>
        if golang.string_lt av bv then -1 else if golang.string_lt bv av then 1 else 0
    | _, _ => 0
    end.

(** The closure passed to [sort.Slice] in [flushChunk], and the
    body of [mergeHeap.Less], on the two rows they read. *)
Definition rowLess (columnIndex : Z) (desc : bool) (a b : Row) : bool :=
  let cmp := compareRows columnIndex a b in
  if desc then cmp >? 0 else cmp <? 0.

Record heapItem := mkHeapItem {
  item_row : Row;
  fileIndex : nat
}.

Record mergeHeap := mkMergeHeap {
  items : list heapItem;
  mh_columnIndex : Z;
  mh_desc : bool
}.

Definition set_items (h : mergeHeap) (l : list heapItem) : mergeHeap :=
  mkMergeHeap l (mh_columnIndex h) (mh_desc h).

(** [func (h *mergeHeap) Len() int] *)
Definition Len (h : mergeHeap) : nat := length (items h).

(** [func (h *mergeHeap) Less(i, j int) bool]; [container/heap]
    calls it with indices below [Len] only. *)
Definition Less (h : mergeHeap) (i j : nat) : bool :=
  match items h !! i, items h !! j with
  | Some a, Some b => rowLess (mh_columnIndex h) (mh_desc h) (item_row a) (item_row b)
  | _, _ => false
  end.

(** [func (h *mergeHeap) Swap(i, j int)] *)
Definition Swap (h : mergeHeap) (i j : nat) : mergeHeap :=
  match items h !! i, items h !! j with
  | Some a, Some b => set_items h (<[j := a]> (<[i := b]> (items h)))
  | _, _ => h
  end.

(** [func (h *mergeHeap) Push(x interface{})] *)
Definition Push (h : mergeHeap) (x : heapItem) : mergeHeap :=
  set_items h (items h ++ [x])%list.

(** [func (h *mergeHeap) Pop() interface{}]: the last item and the
    heap without it. *)
Definition Pop (h : mergeHeap) : option heapItem * mergeHeap :=
  (last (items h), set_items h (removelast (items h))).

(** **** Package [container/heap] (Go standard library)

    Modelled from the source of [container/heap]: [up] and [down]
    are its two loops; the fuel is the bound on their iterations
    ([j] halves in [up], [i] grows below [n] in [down]). *)

Fixpoint up_loop (fuel : nat) (h : mergeHeap) (j : nat) : mergeHeap :=
  match fuel with
  | O => h
  | S fuel' =>
      let i := ((j - 1) / 2)%nat in
      if (i =? j)%nat || negb (Less h j i) then h
      else up_loop fuel' (Swap h i j) i
  end.

Definition up (h : mergeHeap) (j : nat) : mergeHeap := up_loop j h j.

Fixpoint down_loop (fuel : nat) (h : mergeHeap) (i n : nat) : mergeHeap :=
  match fuel with
  | O => h
  | S fuel' =>
      let j1 := (2 * i + 1)%nat in
      if (n <=? j1)%nat then h
      else
        let j := if (j1 + 1 <? n)%nat && Less h (j1 + 1) j1 then (j1 + 1)%nat else j1 in
        if negb (Less h j i) then h
        else down_loop fuel' (Swap h i j) j n
  end.

Definition down (h : mergeHeap) (i0 n : nat) : mergeHeap := down_loop (n - i0) h i0 n.

(** [heap.Init]: [for i := n/2 - 1; i >= 0; i-- { down(h, i, n) }] *)
Definition heap_Init (h : mergeHeap) : mergeHeap :=
  let n := Len h in
  fold_left (fun h i => down h i n) (rev (seq 0 (n / 2))) h.

(** [heap.Push] *)
Definition heap_Push (h : mergeHeap) (x : heapItem) : mergeHeap :=
  let h' := Push h x in up h' (Len h' - 1).

(** [heap.Pop] *)
Definition heap_Pop (h : mergeHeap) : option heapItem * mergeHeap :=
  let n := (Len h - 1)%nat in
  Pop (down (Swap h 0 n) 0 n).

(** **** sort.go

    A temporary run file is the sequence of records written to it;
    creating, writing and opening one is taken to succeed. A reader
    over it is [csv.NewReader] of these records. A run-time panic is
    returned as an error whose text starts with the word panic. *)

Record SortOp := mkSortOp {
  input : Input;
  columnIndex : Z;
  desc : bool;
  chunkSize : Z;
  schema : Schema;
  prepared : bool;
  tempFiles : list (list (list string));
  readers : list csv.Reader;
  mergeHeap_ : option mergeHeap;
  exhausted : bool
}.

(** [func NewSortOpWithChunkSize(input, columnIndex, desc, chunkSize)];
    [inputSchema] is [input.Schema()]. *)
Definition NewSortOpWithChunkSize (input : Input) (inputSchema : Schema)
           (columnIndex : Z) (desc : bool) (chunkSize : Z) : SortOp :=
  mkSortOp input columnIndex desc chunkSize inputSchema false [] [] None false.

(** [func (s *SortOp) rowToRecord(row *types.Row) []string] *)
Definition rowToRecord (row : Row) : list string :=
  map (fun val => match val with
                  | VInt v => strconv.FormatInt v
                  | VFloat v => FormatFloat v
                  | VString v => v
                  | VNil => golang.Sprint val
                  end) (Values row).

(** [func (s *SortOp) recordToRow(record []string) *types.Row] *)
Definition recordToRow (schema : Schema) (record : list string) : Row :=
  mkRow (parseRecord record (Types schema)).

(** [func (s *SortOp) flushChunk(chunk []*types.Row) error]: the
    run files after the chunk is sorted and written. *)
Definition flushChunk (columnIndex : Z) (desc : bool) (chunk : list Row)
           (tempFiles : list (list (list string))) : list (list (list string)) :=
  (tempFiles ++ [map rowToRecord (sort_Slice (rowLess columnIndex desc) chunk)])%list.

(** Phase 1 of [prepare]: the loop over the upstream. It returns
    the last, partial chunk and the run files, or the error. *)
Fixpoint fillChunks (columnIndex : Z) (desc : bool) (chunkSize : Z)
         (input : Input) (chunk : list Row) (tempFiles : list (list (list string)))
  : Result (list Row) * list (list (list string)) * Input :=
  match input with
  | [] => (Ok chunk, tempFiles, [])
  | PullErr msg :: input' => (Err "error reading input for sort", tempFiles, input')
  | PullRow row :: input' =>
      let chunk' := (chunk ++ [row])%list in
      if len chunk' >=? chunkSize
      then fillChunks columnIndex desc chunkSize input' []
                      (flushChunk columnIndex desc chunk' tempFiles)
      else fillChunks columnIndex desc chunkSize input' chunk' tempFiles
  end.

(** The loop of [setupMerge] over the run files, from index [i]:
    the error, if any, with the readers opened and the heap built
    so far. *)
Fixpoint openRuns (schema : Schema) (i : nat) (files : list (list (list string)))
         (readers : list csv.Reader) (h : mergeHeap)
  : option string * list csv.Reader * mergeHeap :=
  match files with
  | [] => (None, readers, h)
  | content :: files' =>
      match csv.Read (csv.NewReader content) with
      | (csv.EOF, reader) => openRuns schema (S i) files' (readers ++ [reader])%list h
      | (csv.Failed _, reader) =>
          (Some "failed to read from temp file", (readers ++ [reader])%list, h)
      | (csv.GotRecord record, reader) =>
          openRuns schema (S i) files' (readers ++ [reader])%list
                   (heap_Push h (mkHeapItem (recordToRow schema record) i))
      end
  end.

(** [func (s *SortOp) setupMerge() error] *)
Definition setupMerge (s : SortOp) : option string * SortOp :=
  if (length (tempFiles s) =? 0)%nat
  then (None, mkSortOp (input s) (columnIndex s) (desc s) (chunkSize s) (schema s)
                       (prepared s) (tempFiles s) (readers s) (mergeHeap_ s) true)
  else
    let h := heap_Init (mkMergeHeap [] (columnIndex s) (desc s)) in
    let '(err, readers', h') := openRuns (schema s) 0 (tempFiles s) [] h in
    (err, mkSortOp (input s) (columnIndex s) (desc s) (chunkSize s) (schema s)
                   (prepared s) (tempFiles s) readers' (Some h') (exhausted s)).

(** [func (s *SortOp) prepare() error]: the error, if any, and the
    operator as the call leaves it. [make([]*types.Row, 0,
    s.chunkSize)] panics when the chunk size is negative; for any
    other chunk size the allocation, here and after each flush, is
    taken to succeed. *)
Definition prepare (s : SortOp) : option string * SortOp :=
  if prepared s then (None, s)
  else if chunkSize s <? 0
  then (Some "panic: runtime error: makeslice: cap out of range", s)
  else
    let '(res, files, input') :=
      fillChunks (columnIndex s) (desc s) (chunkSize s) (input s) [] (tempFiles s) in
    let with_files files :=
      mkSortOp input' (columnIndex s) (desc s) (chunkSize s) (schema s)
               (prepared s) files (readers s) (mergeHeap_ s) (exhausted s) in
    match res with
    | Err msg => (Some msg, with_files files)
    | Ok chunk =>
        let files' := if 0 <? len chunk
                      then flushChunk (columnIndex s) (desc s) chunk files
                      else files in
        match setupMerge (with_files files') with
        | (Some msg, s') => (Some msg, s')
        | (None, s') =>
            (None, mkSortOp (input s') (columnIndex s') (desc s') (chunkSize s')
                            (schema s') true (tempFiles s') (readers s')
                            (mergeHeap_ s') (exhausted s'))
        end
    end.

Definition set_merge (s : SortOp) (readers' : list csv.Reader) (h : mergeHeap) : SortOp :=
  mkSortOp (input s) (columnIndex s) (desc s) (chunkSize s) (schema s)
           (prepared s) (tempFiles s) readers' (Some h) (exhausted s).

(** The merge step of [Next], once the operator is prepared;
    [readers[item.fileIndex]] is in range at every call. *)
Definition mergeNext (s : SortOp) : Result (option Row) * SortOp :=
  if exhausted s then (Ok None, s)
  else
    match mergeHeap_ s with
    | None => (Ok None, s)
    | Some h =>
        if (Len h =? 0)%nat then (Ok None, s)
        else
          match heap_Pop h with
          | (None, _) => (Ok None, s)
          | (Some item, h') =>
              let '(res, reader') :=
                csv.Read (default [] (readers s !! fileIndex item)) in
              let readers' := <[fileIndex item := reader']> (readers s) in
              match res with
              | csv.EOF => (Ok (Some (item_row item)), set_merge s readers' h')
              | csv.Failed _ =>
                  (Err "error reading during merge", set_merge s readers' h')
              | csv.GotRecord record =>
                  (Ok (Some (item_row item)),
                   set_merge s readers'
                     (heap_Push h' (mkHeapItem (recordToRow (schema s) record)
                                               (fileIndex item))))
              end
          end
    end.

(** [func (s *SortOp) Next()] *)
Definition SortOp_Next (s : SortOp) : Result (option Row) * SortOp :=
  match prepare s with
  | (Some msg, s') => (Err msg, s')
  | (None, s') => mergeNext s'
  end.

(** The consumer loop of [runQuery]: call [Next] until the end of
    the stream and collect the rows; [None] on an error or when
    [fuel] calls do not reach the end. *)
Fixpoint drain (fuel : nat) (s : SortOp) : option (list Row) :=
  match fuel with
  | O => None
  | S fuel' =>
      match SortOp_Next s with
      | (Err _, _) => None
      | (Ok None, _) => Some []
      | (Ok (Some row), s') => option_map (cons row) (drain fuel' s')
      end
  end.

End sort.

(** *** The consumer of an operator

    The loop of [runQuery] in main.go calls [Next] until it returns
    the end of the stream or an error. [stream next fuel s] is what
    at most [fuel] calls return before the end of the stream, as the
    upstream of the operator above sees it, with the operator as the
    last call leaves it. *)

Fixpoint stream {S : Type} (next : S -> Result (option Row) * S) (fuel : nat) (s : S)
  : Input * S :=
  match fuel with
  | O => ([], s)
  | S fuel' =>
      match next s with
      | (Ok None, s') => ([], s')
      | (Ok (Some row), s') =>
          let '(rest, s'') := stream next fuel' s' in (PullRow row :: rest, s'')
      | (Err msg, s') =>
          let '(rest, s'') := stream next fuel' s' in (PullErr msg :: rest, s'')
      end
  end.

(** *** project.go *)

Section project.

Record ProjectOp := mkProjectOp {
  proj_input : Input;
  proj_columnIndices : list Z;
  proj_outputSchema : Schema;
  proj_passthrough : bool
}.

(** One iteration of the loop of [NewProjectOp] (and of the first
    loop of [NewHashAggregateOp]): the name and the type of column
    [idx] of the input, or the zero values the two slices were made
    with when [idx] is not a column. [inputSchema.Types[idx]] is
    guarded by the number of columns only: it indexes out of range,
    [None] here, on a schema with fewer types than columns. *)
Definition projectColumn (inputSchema : Schema) (idx : Z)
  : option (string * types.DataType) :=
  if (0 <=? idx) && (idx <? len (Columns inputSchema))
  then match Columns inputSchema !! Z.to_nat idx, Types inputSchema !! Z.to_nat idx with
       | Some column, Some colType => Some (column, colType)
       | _, _ => None
       end
  else Some ("", types.Int).

(** [func NewProjectOp(input, columnIndices)]; [inputSchema] is
    [input.Schema()]; [None] when the call panics. *)
Definition NewProjectOp (input : Input) (inputSchema : Schema) (columnIndices : list Z)
  : option ProjectOp :=
  if (length columnIndices =? 0)%nat
  then Some (mkProjectOp input columnIndices inputSchema true)
  else
    match mapM (projectColumn inputSchema) columnIndices with
    | Some cols =>
        Some (mkProjectOp input columnIndices (mkSchema (map fst cols) (map snd cols)) false)
    | None => None
    end.

(** [func NewProjectOpByNames(input, columnNames)] *)
Definition NewProjectOpByNames (input : Input) (inputSchema : Schema)
           (columnNames : list string) : option ProjectOp :=
  if (length columnNames =? 0)%nat
  then NewProjectOp input inputSchema []
  else NewProjectOp input inputSchema (map (types.ColumnIndex inputSchema) columnNames).

(** The loop of [ProjectOp.Next] over [columnIndices]. *)
Definition projectValues (columnIndices : list Z) (row : Row) : list Value :=
  map (fun idx => if (0 <=? idx) && (idx <? len (Values row))
                  then golang.index (Values row) idx else VNil)
      columnIndices.

(** [func (p *ProjectOp) Next()] *)
Definition ProjectOp_Next (p : ProjectOp) : Result (option Row) * ProjectOp :=
  let '(res, input') := Input_Next (proj_input p) in
  let p' := mkProjectOp input' (proj_columnIndices p) (proj_outputSchema p)
                        (proj_passthrough p) in
  match res with
  | Err msg => (Err msg, p')
  | Ok None => (Ok None, p')
  | Ok (Some row) =>
      if proj_passthrough p then (Ok (Some row), p')
      else (Ok (Some (mkRow (projectValues (proj_columnIndices p) row))), p')
  end.

End project.

(** *** limit.go

    The counters are Go [int]s, 64 bits wide on the platforms the
    engine is built for. *)

Section limit.

Record LimitOp := mkLimitOp {
  lim_input : Input;
  lim_limit : Z;
  lim_offset : Z;
  lim_count : Z;
  lim_skipped : Z
}.

(** [func NewLimitOp(input, limit)] *)
Definition NewLimitOp (input : Input) (limit : Z) : LimitOp :=
  mkLimitOp input limit 0 0 0.

(** [func NewLimitOffsetOp(input, limit, offset)] *)
Definition NewLimitOffsetOp (input : Input) (limit offset : Z) : LimitOp :=
  mkLimitOp input limit offset 0 0.

(** [for l.skipped < l.offset { ... l.skipped++ }]: what the loop
    returns from [Next], if it does, with the counter and the upstream
    as it leaves them. *)
Fixpoint skipRows (offset skipped : Z) (input : Input)
  : option (Result (option Row)) * Z * Input :=
  match input with
  | [] => if skipped <? offset then (Some (Ok None), skipped, []) else (None, skipped, [])
  | PullErr msg :: input' =>
      if skipped <? offset then (Some (Err msg), skipped, input')
      else (None, skipped, input)
  | PullRow _ :: input' =>
      if skipped <? offset then skipRows offset (wrap64 (skipped + 1)) input'
      else (None, skipped, input)
  end.

(** [func (l *LimitOp) Next()] *)
Definition LimitOp_Next (l : LimitOp) : Result (option Row) * LimitOp :=
  let '(returned, skipped', input') :=
    skipRows (lim_offset l) (lim_skipped l) (lim_input l) in
  let l' := mkLimitOp input' (lim_limit l) (lim_offset l) (lim_count l) skipped' in
  match returned with
  | Some res => (res, l')
  | None =>
      if lim_count l >=? lim_limit l then (Ok None, l')
      else
        let '(res, input'') := Input_Next input' in
        match res with
        | Ok (Some row) =>
            (Ok (Some row),
             mkLimitOp input'' (lim_limit l) (lim_offset l)
                       (wrap64 (lim_count l + 1)) skipped')
        | _ => (res, mkLimitOp input'' (lim_limit l) (lim_offset l) (lim_count l) skipped')
        end
  end.

End limit.

(** *** aggregate.go: the grouped aggregate operator *)

Section hash_aggregate.
Context `{Platform}.

Record HashAggregateOp := mkHashAggregateOp {
  ha_input : Input;
  ha_groupByIndices : list Z;
  ha_aggregates : list AggregateExpr;
  ha_outputSchema : Schema;
  ha_computed : bool;
  ha_groups : gmap string groupState;
  ha_keys : list string;
  ha_keyIndex : Z
}.

(** [func NewHashAggregateOp(input, groupByIndices, aggregates)];
    [inputSchema] is [input.Schema()]; [None] when the call panics. *)
Definition NewHashAggregateOp (input : Input) (inputSchema : Schema)
           (groupByIndices : list Z) (aggregates : list AggregateExpr)
  : option HashAggregateOp :=
  match mapM (projectColumn inputSchema) groupByIndices with
  | Some cols =>
      Some (mkHashAggregateOp input groupByIndices aggregates
              (mkSchema (map fst cols ++ imap aggColumn aggregates)
                        (map snd cols ++ map aggColType aggregates))
              false ∅ [] 0)
  | None => None
  end.

(** [func NewHashAggregateOpByNames(input, groupByNames, aggregates)] *)
Definition NewHashAggregateOpByNames (input : Input) (inputSchema : Schema)
           (groupByNames : list string) (aggregates : list AggregateExpr)
  : option HashAggregateOp :=
  NewHashAggregateOp input inputSchema
                     (map (types.ColumnIndex inputSchema) groupByNames) aggregates.

(** [func (h *HashAggregateOp) computeGroups() error] on the fields
    of the operator: the groups and the keys are updated in place, so
    an error leaves what the rows before it have built. *)
Fixpoint computeGroupsInPlace (groupByIndices : list Z) (aggregates : list AggregateExpr)
         (input : Input) (acc : gmap string groupState * list string)
  : option string * (gmap string groupState * list string) * Input :=
  match input with
  | [] => (None, acc, [])
  | PullErr msg :: input' => (Some msg, acc, input')
  | PullRow row :: input' =>
      computeGroupsInPlace groupByIndices aggregates input'
                           (addRow groupByIndices aggregates acc row)
  end.

(** [func (h *HashAggregateOp) Next()]. A group holds one key value
    per group-by index and one state per aggregate, as
    [computeGroups] makes it, so the output row is the key values
    followed by the final values. *)
Definition HashAggregateOp_Next (h : HashAggregateOp)
  : Result (option Row) * HashAggregateOp :=
  let '(err, (groups, keys), input') :=
    if ha_computed h then (None, (ha_groups h, ha_keys h), ha_input h)
    else computeGroupsInPlace (ha_groupByIndices h) (ha_aggregates h) (ha_input h)
                              (ha_groups h, ha_keys h) in
  let with_state computed keyIndex :=
    mkHashAggregateOp input' (ha_groupByIndices h) (ha_aggregates h) (ha_outputSchema h)
                      computed groups keys keyIndex in
  match err with
  | Some msg => (Err msg, with_state (ha_computed h) (ha_keyIndex h))
  | None =>
      if ha_keyIndex h >=? len keys then (Ok None, with_state true (ha_keyIndex h))
      else
        match (if ha_keyIndex h <? 0 then None else keys !! Z.to_nat (ha_keyIndex h)) with
        | None => (Err "panic: index out of range", with_state true (ha_keyIndex h))
        | Some key =>
            match groups !! key with
            | Some group =>
                (Ok (Some (mkRow (keyValues group
                                  ++ zip_with finalizeState (gs_states group)
                                              (ha_aggregates h)))),
                 with_state true (wrap64 (ha_keyIndex h + 1)))
            | None =>
                (Err "panic: nil pointer dereference",
                 with_state true (wrap64 (ha_keyIndex h + 1)))
            end
        end
  end.

End hash_aggregate.

(** *** Close

    What [Close] reads of an operator tree: the source file of the
    scan at its leaf, the run files and their paths held by a sort,
    and the upstream of every other operator. No [Close] method
    writes a field, so the tree is the same after the call. *)

Inductive Operator :=
| OpCSVScan (file : option os.File)
| OpFilter (input : Operator)
| OpProject (input : Operator)
| OpScalarAggregate (input : Operator)
| OpHashAggregate (input : Operator)
| OpSort (input : Operator) (files : list (option os.File)) (tempFiles : list string)
| OpLimit (input : Operator).

(** [for _, f := range s.files { if f != nil { f.Close() } }] *)
Definition closeFiles (files : list (option os.File)) (st : os.State) : os.State :=
  fold_left (fun st f => match f with
                         | Some f => snd (os.Close f st)
                         | None => st
                         end) files st.

(** [for _, path := range s.tempFiles { os.Remove(path) }] *)
Definition removeFiles (paths : list string) (st : os.State) : os.State :=
  fold_left (fun st path => snd (os.Remove path st)) paths st.

(** The [Close] method of each operator. *)
Fixpoint Close (op : Operator) (st : os.State) : option string * os.State :=
  match op with
  | OpCSVScan (Some file) => os.Close file st
  | OpCSVScan None => (None, st)
  | OpFilter input | OpProject input | OpScalarAggregate input
  | OpHashAggregate input | OpLimit input => Close input st
  | OpSort input files tempFiles =>
      match Close input st with
      | (Some err, st') => (Some err, st')
      | (None, st') => (None, removeFiles tempFiles (closeFiles files st'))
      end
  end.

(** The source file of the scan at the leaf of the tree. *)
Fixpoint sourceFile (op : Operator) : option os.File :=
  match op with
  | OpCSVScan file => file
  | OpFilter input | OpProject input | OpScalarAggregate input
  | OpHashAggregate input | OpLimit input | OpSort input _ _ => sourceFile input
  end.

End operators.

(** ** A platform for the examples

    The properties below hold for every [Platform]. To run the model
    on concrete inputs we fix one: it reads decimal literals of at
    most 15 digits (on which the correctly rounded quotient of two
    exact integers is the value Go parses) and the texts it prints
    for the infinities and not-a-number, prints the exact decimal
    expansion of a float (Go's shortest text whenever that expansion
    is short), and converts an unrepresentable float to the least
    [int64], as the amd64 port does. *)

Module sample.

Fixpoint splitDot (s : string) : string * option string :=
  match s with
  | EmptyString => (EmptyString, None)
  | String c rest =>
      if Ascii.eqb c "." then (EmptyString, Some rest)
      else let '(a, b) := splitDot rest in (String c a, b)
  end.

Definition parseFinite (s : string) : option float :=
  let '(negative, body) :=
    match s with
    | String c rest => if Ascii.eqb c "-" then (true, rest) else (false, s)
    | EmptyString => (false, s)
    end in
  let '(whole, frac) := splitDot body in
  let frac := default "" frac in
  let digits := whole +:+ frac in
  if (15 <? String.length digits)%nat then None
  else
    match strconv.parse_digits whole, NilEmpty.uint_of_string frac with
    | Some w, Some f =>
        let scale := 10 ^ Z.of_nat (String.length frac) in
        let n := w * scale + Z.of_uint f in
        let q := PrimFloat.div (PrimFloat.of_uint63 (Uint63.of_Z n))
                               (PrimFloat.of_uint63 (Uint63.of_Z scale)) in
        Some (if negative then PrimFloat.opp q else q)
    | _, _ => None
    end.

Definition parseDecimal (s : string) : option float :=
  if String.eqb s "NaN" then Some PrimFloat.nan
  else if String.eqb s "+Inf" then Some PrimFloat.infinity
  else if String.eqb s "-Inf" then Some PrimFloat.neg_infinity
  else parseFinite s.

Fixpoint stripZeros (digits : list ascii) : list ascii :=
  match digits with
  | [] => []
  | c :: rest =>
      match stripZeros rest with
      | [] => if Ascii.eqb c "0" then [] else [c]
      | rest' => c :: rest'
      end
  end.

Definition pad (k : nat) (s : string) : string :=
  string_of_list_ascii (replicate (k - String.length s) "0"%char) +:+ s.

Definition printDecimal (f : float) : string :=
  match Prim2SF f with
  | S754_zero s => if s then "-0" else "0"
  | S754_infinity s => if s then "-Inf" else "+Inf"
  | S754_nan => "NaN"
  | S754_finite s m e =>
      let sign := if s then "-" else "" in
      if 0 <=? e then sign +:+ strconv.FormatInt (Zpos m * 2 ^ e)
      else
        let k := Z.to_nat (- e) in
        let num := Zpos m * 5 ^ (- e) in
        let scale := 10 ^ (- e) in
        let frac := stripZeros (list_ascii_of_string
                                  (pad k (strconv.FormatInt (num mod scale)))) in
        sign +:+ strconv.FormatInt (num / scale)
             +:+ match frac with
                 | [] => ""
                 | _ => "." +:+ string_of_list_ascii frac
                 end
  end.

Definition platform : Platform := {|
  ParseFloat := parseDecimal;
  FormatFloat := printDecimal;
  SprintFloat := printDecimal;
  golang.int64_unrepresentable := fun _ => min_int64
|}.

End sample.

(** * Properties *)

(** ** Integer texts *)

Module strconv_facts.

Lemma to_int_nonnil (z : Z) : Z.to_int z <> Pos Nil /\ Z.to_int z <> Neg Nil.
Proof.
  destruct z as [|p|p]; cbn; split; try discriminate;
    intros [= E]; now apply Unsigned.to_uint_nonnil in E.
Qed.

Lemma FormatInt_inj (a b : Z) : strconv.FormatInt a = strconv.FormatInt b -> a = b.
Proof.
  unfold strconv.FormatInt. intros E.
  apply DecimalZ.to_int_inj.
  assert (Some (Z.to_int a) = Some (Z.to_int b)) as [= ->]; [|reflexivity].
  destruct (to_int_nonnil a), (to_int_nonnil b).
  rewrite <- (NilZero.isi (Z.to_int a)), <- (NilZero.isi (Z.to_int b)) by assumption.
  now rewrite E.
Qed.

(** The characters of a decimal text. *)
Definition decimal_char (c : ascii) : bool :=
  match c with
  | "0" | "1" | "2" | "3" | "4" | "5" | "6" | "7" | "8" | "9" | "-" => true
  | _ => false
  end%char.

Fixpoint all_chars (ok : ascii -> bool) (s : string) : bool :=
  match s with
  | EmptyString => true
  | String c s' => ok c && all_chars ok s'
  end.

Lemma string_of_uint_chars (d : Decimal.uint) :
  all_chars decimal_char (NilEmpty.string_of_uint d) = true.
Proof. induction d; cbn; auto. Qed.

Lemma FormatInt_chars (z : Z) : all_chars decimal_char (strconv.FormatInt z) = true.
Proof.
  unfold strconv.FormatInt, NilZero.string_of_int, NilZero.string_of_uint.
  destruct (Z.to_int z) as [d|d]; destruct d; cbn; auto using string_of_uint_chars.
Qed.

Lemma parse_digits_uint (d : Decimal.uint) :
  d <> Nil -> strconv.parse_digits (NilEmpty.string_of_uint d) = Some (Z.of_uint d).
Proof.
  intros Hd. unfold strconv.parse_digits. rewrite NilEmpty.usu.
  destruct d; try contradiction; reflexivity.
Qed.

(** [ParseInt] reads back what [FormatInt] prints. *)
Lemma ParseInt_FormatInt (z : Z) :
  in_int64 z = true -> strconv.ParseInt (strconv.FormatInt z) = Some z.
Proof.
  intros Hz. unfold strconv.ParseInt, strconv.FormatInt.
  destruct z as [|p|p]; cbn [Z.to_int NilZero.string_of_int].
  - reflexivity.
  - pose proof (Unsigned.to_uint_nonnil p) as Hnil.
    assert (NilZero.string_of_uint (Pos.to_uint p) = NilEmpty.string_of_uint (Pos.to_uint p)) as ->.
    { destruct (Pos.to_uint p); try contradiction; reflexivity. }
    pose proof (string_of_uint_chars (Pos.to_uint p)) as Hc.
    pose proof (parse_digits_uint _ Hnil) as Hp.
    destruct (NilEmpty.string_of_uint (Pos.to_uint p)) as [|c s] eqn:Hs.
    + destruct (Pos.to_uint p); try contradiction; discriminate.
    + assert (Z.of_uint (Pos.to_uint p) = Zpos p) as Hv.
      { unfold Z.of_uint. now rewrite Unsigned.of_to. }
      destruct (Ascii.eqb_spec c "-") as [->|_].
      * exfalso. clear -Hs. destruct (Pos.to_uint p); discriminate.
      * destruct (Ascii.eqb_spec c "+") as [->|_].
        -- cbn in Hc. discriminate.
        -- rewrite Hp, Hv, Hz. reflexivity.
  - pose proof (Unsigned.to_uint_nonnil p) as Hnil.
    assert (NilZero.string_of_uint (Pos.to_uint p) = NilEmpty.string_of_uint (Pos.to_uint p)) as ->.
    { destruct (Pos.to_uint p); try contradiction; reflexivity. }
    cbn [Ascii.eqb Bool.eqb]. rewrite (parse_digits_uint _ Hnil).
    cbn [option_map]. unfold Z.of_uint. rewrite Unsigned.of_to.
    change (- Z.of_N (N.pos p)) with (Z.neg p). now rewrite Hz.
Qed.

End strconv_facts.


(** ** Floats *)

Module float_facts.

(** *** Positive integers convert to positive floats *)

Lemma iter_pos_nat {A} (f : A -> A) (n : positive) (x : A) :
  SpecFloat.iter_pos f n x = Nat.iter (Pos.to_nat n) f x.
Proof.
  revert x. induction n as [n IH|n IH|]; intros x; cbn [SpecFloat.iter_pos].
  - rewrite !IH, Pos2Nat.inj_xI.
    replace (S (2 * Pos.to_nat n)) with (Pos.to_nat n + (Pos.to_nat n + 1))%nat by lia.
    rewrite !Nat.iter_add. reflexivity.
  - rewrite !IH, Pos2Nat.inj_xO.
    replace (2 * Pos.to_nat n)%nat with (Pos.to_nat n + Pos.to_nat n)%nat by lia.
    now rewrite Nat.iter_add.
  - reflexivity.
Qed.

Lemma shr_1_m (mrs : shr_record) :
  0 <= shr_m mrs -> shr_m (shr_1 mrs) = shr_m mrs / 2.
Proof.
  destruct mrs as [m r s]. cbn [shr_m shr_1]. intros Hm.
  destruct m as [|[p|p|]|p]; cbn [shr_m]; try lia.
  - reflexivity.
  - rewrite Pos2Z.inj_xI. apply Z.div_unique with 1; lia.
  - rewrite Pos2Z.inj_xO. apply Z.div_unique with 0; lia.
  - reflexivity.
Qed.

Lemma shr_iter_m (k : nat) (mrs : shr_record) :
  0 <= shr_m mrs -> shr_m (Nat.iter k shr_1 mrs) = shr_m mrs / 2 ^ Z.of_nat k.
Proof.
  intros Hm. induction k as [|k IH].
  - cbn. now rewrite Z.div_1_r.
  - rewrite Nat.iter_succ, shr_1_m.
    + rewrite IH, Nat2Z.inj_succ, Z.pow_succ_r by lia.
      rewrite Z.div_div by lia. f_equal. lia.
    + rewrite IH. apply Z.div_pos; lia.
Qed.

Lemma digits2_pos_bound (m : positive) :
  2 ^ (Zpos (digits2_pos m) - 1) <= Zpos m.
Proof.
  induction m as [m IH|m IH|]; cbn [digits2_pos].
  - rewrite Pos2Z.inj_succ, (Pos2Z.inj_xI m).
    replace (Z.succ (Zpos (digits2_pos m)) - 1) with (Z.succ (Zpos (digits2_pos m) - 1)) by lia.
    rewrite Z.pow_succ_r by lia. lia.
  - rewrite Pos2Z.inj_succ, (Pos2Z.inj_xO m).
    replace (Z.succ (Zpos (digits2_pos m)) - 1) with (Z.succ (Zpos (digits2_pos m) - 1)) by lia.
    rewrite Z.pow_succ_r by lia. lia.
  - cbn. lia.
Qed.

Lemma shr_record_of_loc_m m l : shr_m (shr_record_of_loc m l) = m.
Proof. destruct l as [|[]]; reflexivity. Qed.

(** Shifting a positive mantissa to its canonical exponent leaves it
    positive, as long as the exponent is not below [emin]. *)
Lemma shr_fexp_pos (m : positive) (e : Z) (l : location) :
  SpecFloat.emin prec emax <= e ->
  exists m', shr_m (fst (shr_fexp prec emax (Zpos m) e l)) = Zpos m'
             /\ e <= snd (shr_fexp prec emax (Zpos m) e l).
Proof.
  intros He. unfold shr_fexp, shr. cbn [Zdigits2].
  set (d := Zpos (digits2_pos m)).
  destruct (fexp prec emax (d + e) - e) as [|n|n] eqn:Hn; cbn [fst snd].
  - rewrite shr_record_of_loc_m. split with m. split; [reflexivity | lia].
  - rewrite iter_pos_nat, shr_iter_m by (rewrite shr_record_of_loc_m; lia).
    rewrite shr_record_of_loc_m, positive_nat_Z.
    assert (Zpos n <= d - 1) as Hle.
    { unfold fexp, SpecFloat.emin, prec, emax in *. lia. }
    assert (2 ^ Zpos n <= Zpos m) as Hpow.
    { etransitivity; [|apply digits2_pos_bound].
      apply Z.pow_le_mono_r; [lia | exact Hle]. }
    assert (0 < Zpos m / 2 ^ Zpos n) as Hq.
    { apply Z.div_str_pos. split; [apply Z.pow_pos_nonneg; lia | exact Hpow]. }
    destruct (Zpos m / 2 ^ Zpos n) as [|q|q]; try lia.
    exists q. split; [reflexivity | lia].
  - rewrite shr_record_of_loc_m. split with m. split; [reflexivity | lia].
Qed.

Lemma round_nearest_even_pos (m : positive) (l : location) :
  exists m', round_nearest_even (Zpos m) l = Zpos m'.
Proof.
  destruct l as [|[]]; cbn [round_nearest_even]; try destruct (Z.even _);
    first [ now exists m | exists (m + 1)%positive; lia ].
Qed.

Definition positive_float (x : spec_float) : Prop :=
  match x with
  | S754_finite false _ _ | S754_infinity false => True
  | _ => False
  end.

Lemma binary_round_aux_pos (m : positive) (e : Z) (l : location) :
  SpecFloat.emin prec emax <= e ->
  positive_float (binary_round_aux prec emax false (Zpos m) e l).
Proof.
  intros He. unfold binary_round_aux.
  destruct (shr_fexp_pos m e l He) as (m1 & Hm1 & He1).
  destruct (shr_fexp prec emax (Zpos m) e l) as [mrs1 e1]. cbn [fst snd] in *.
  rewrite Hm1.
  destruct (round_nearest_even_pos m1 (loc_of_shr_record mrs1)) as (m2 & ->).
  destruct (shr_fexp_pos m2 e1 loc_Exact ltac:(lia)) as (m3 & Hm3 & He3).
  destruct (shr_fexp prec emax (Zpos m2) e1 loc_Exact) as [mrs3 e3]. cbn [fst snd] in *.
  rewrite Hm3. destruct (e3 <=? emax - prec); exact I.
Qed.

Lemma binary_normalize_pos (m : positive) :
  positive_float (binary_normalize prec emax (Zpos m) 0 false).
Proof.
  cbn [binary_normalize]. unfold binary_round, shl_align.
  destruct (fexp prec emax (Zpos (digits2_pos m) + 0) - 0) eqn:Hd;
    apply binary_round_aux_pos; unfold fexp, SpecFloat.emin, prec, emax in *; lia.
Qed.

(** Zero divided by the float of a positive integer is zero. *)
Lemma div_zero_of_uint63 (n : Z) :
  0 < n < 2 ^ 63 ->
  PrimFloat.div 0%float (PrimFloat.of_uint63 (Uint63.of_Z n)) = 0%float.
Proof.
  intros Hn. apply Prim2SF_inj.
  rewrite FloatAxioms.div_spec, FloatAxioms.of_uint63_spec, Uint63.of_Z_spec.
  rewrite Z.mod_small by (change Uint63.wB with (2 ^ 63); lia).
  destruct n as [|p|p]; try lia.
  pose proof (binary_normalize_pos p) as Hp.
  change (Prim2SF 0%float) with (S754_zero false).
  destruct (binary_normalize prec emax (Zpos p) 0 false) as [[]| [] | |[] ? ?];
    try contradiction; reflexivity.
Qed.

End float_facts.


(** ** Zone maps *)

Module metadata_facts.
Import metadata.

(** C2. [CanPrune] answers true exactly when the column has both
    bounds and the condition of the comparator holds on them; a
    column without bounds is never pruned. *)
Theorem CanPrune_iff (zm : ZoneMap) (col : string) (comp : types.Comparator) (v : Z) :
  (CanPrune zm col comp v = true <->
     exists mn mx, MinValues zm !! col = Some mn /\ MaxValues zm !! col = Some mx
                   /\ prune_condition comp mn mx v)
  /\ (MinValues zm !! col = None \/ MaxValues zm !! col = None ->
      CanPrune zm col comp v = false).
Proof.
  unfold CanPrune. split.
  - destruct (MinValues zm !! col) as [mn|] eqn:Hmin;
      destruct (MaxValues zm !! col) as [mx|] eqn:Hmax.
    + split.
      * intros Hp. exists mn, mx. repeat split; trivial.
        destruct comp; simpl in *; try discriminate; lia.
      * intros (mn' & mx' & [= <-] & [= <-] & Hc).
        destruct comp; simpl in *; try contradiction; lia.
    + split; [discriminate | intros (? & ? & _ & [=] & _)].
    + split; [discriminate | intros (? & ? & [=] & _)].
    + split; [discriminate | intros (? & ? & [=] & _)].
  - intros [-> | ->]; [reflexivity|].
    destruct (MinValues zm !! col); reflexivity.
Qed.

Definition bounds_10_50 : ZoneMap :=
  mkZoneMap "data.csv" 3 {[ "col" := 10 ]} {[ "col" := 50 ]}.

Example CanPrune_examples :
  CanPrune bounds_10_50 "col" types.Eq 5 = true /\
  CanPrune bounds_10_50 "col" types.Eq 30 = false /\
  CanPrune bounds_10_50 "col" types.Lt 10 = true /\
  CanPrune bounds_10_50 "col" types.Gt 50 = true /\
  CanPrune bounds_10_50 "col" types.Neq 10 = false /\
  CanPrune bounds_10_50 "other" types.Eq 5 = false.
Proof. vm_compute. tauto. Qed.

(** The integers of column [i] over the rows, when every row has an
    integer there. *)
Fixpoint column_ints (i : nat) (rows : list (list string)) : option (list Z) :=
  match rows with
  | [] => Some []
  | r :: rows' =>
      match r !! i ≫= strconv.ParseInt, column_ints i rows' with
      | Some v, Some vs => Some (v :: vs)
      | _, _ => None
      end
  end.

(** What the scan knows of one column name. *)
Definition view (name : string) (st : scanState) : option bool * option Z * option Z :=
  (isIntColumn st !! name, minValues st !! name, maxValues st !! name).

Definition firstView (val : string) (w : option bool * option Z * option Z) :=
  match strconv.ParseInt val with
  | Some v => (Some true, Some v, Some v)
  | None => w
  end.

Definition rowView (val : string) (w : option bool * option Z * option Z) :=
  let '(b, mn, mx) := w in
  if negb (default false b) then w
  else match strconv.ParseInt val with
       | None => (None, None, None)
       | Some v => (b, if v <? default 0 mn then Some v else mn,
                       if v >? default 0 mx then Some v else mx)
       end.

Definition local (body : string -> string -> scanState -> scanState)
           (f : string -> option bool * option Z * option Z -> option bool * option Z * option Z) :=
  forall name c val st,
    view name (body c val st) = if decide (c = name) then f val (view name st) else view name st.

Lemma firstRowBody_local : local firstRowBody firstView.
Proof.
  intros name c val st. unfold firstRowBody, firstView, view.
  destruct (strconv.ParseInt val) as [v|]; simpl.
  - rewrite !lookup_insert. destruct (decide (c = name)); reflexivity.
  - destruct (decide (c = name)); reflexivity.
Qed.

Lemma rowBody_local : local rowBody rowView.
Proof.
  intros name c val st. unfold rowBody, rowView, view.
  destruct (decide (c = name)) as [->|Hne].
  - destruct (negb (default false (isIntColumn st !! name))); [reflexivity|].
    destruct (strconv.ParseInt val) as [v|]; simpl.
    + destruct (v <? _); destruct (v >? _); rewrite ?lookup_insert_eq; reflexivity.
    + rewrite !lookup_delete_eq. reflexivity.
  - destruct (negb (default false (isIntColumn st !! c))); [reflexivity|].
    destruct (strconv.ParseInt val) as [v|]; simpl.
    + destruct (v <? _); destruct (v >? _); rewrite ?lookup_insert_ne by assumption; reflexivity.
    + rewrite !lookup_delete_ne by assumption. reflexivity.
Qed.

Lemma rangeColumns_other body f header record st name :
  local body f -> name ∉ header ->
  view name (rangeColumns body header record st) = view name st.
Proof.
  intros Hl. revert record st.
  induction header as [|c header IH]; intros record st Hn; [reflexivity|].
  destruct record as [|val record]; [reflexivity|]. simpl.
  rewrite IH by (intros ?; apply Hn; now right).
  rewrite Hl. destruct (decide (c = name)) as [->|]; [|reflexivity].
  exfalso. apply Hn. now left.
Qed.

Lemma rangeColumns_at body f header record st i name val :
  local body f -> NoDup header ->
  header !! i = Some name -> record !! i = Some val ->
  view name (rangeColumns body header record st) = f val (view name st).
Proof.
  intros Hl. revert record st i.
  induction header as [|c header IH]; intros record st i Hnd Hh Hr; [discriminate|].
  destruct record as [|v record]; [discriminate|].
  apply NoDup_cons in Hnd as [Hc Hnd]. simpl.
  destruct i as [|i]; simpl in *.
  - injection Hh as ->. injection Hr as ->.
    rewrite (rangeColumns_other _ f) by assumption.
    rewrite Hl. now rewrite decide_True.
  - rewrite (IH _ _ i) by assumption.
    rewrite Hl. rewrite decide_False; [reflexivity|].
    intros ->. apply Hc. eapply list_elem_of_lookup_2; eauto.
Qed.

(** The view of a column after the rows, from the view [w] before. *)
Definition foldView (i : nat) (rows : list (list string)) w :=
  fold_left (fun w r => rowView (default "" (r !! i)) w) rows w.

Lemma scanRows_records header rows st n :
  exists st' n', scanRows header (map csv.Record rows) st n = Ok (st', n') /\
    st' = fold_left (fun st r => rangeColumns rowBody header r st) rows st.
Proof.
  revert st n. induction rows as [|r rows IH]; intros st n; simpl; eauto.
Qed.

Lemma foldView_cons i r rows w :
  foldView i (r :: rows) w = foldView i rows (rowView (default "" (r !! i)) w).
Proof. reflexivity. Qed.

Lemma fold_view header rows st i name :
  NoDup header -> Forall (fun r => length r = length header) rows ->
  header !! i = Some name ->
  view name (fold_left (fun st r => rangeColumns rowBody header r st) rows st)
  = foldView i rows (view name st).
Proof.
  intros Hnd Hlen Hh. revert st.
  induction rows as [|r rows IH]; intros st; [reflexivity|].
  apply Forall_cons in Hlen as [Hr Hlen].
  rewrite foldView_cons. cbn [fold_left]. rewrite IH by assumption.
  f_equal.
  destruct (r !! i) as [val|] eqn:Hri.
  - eapply rangeColumns_at; eauto using rowBody_local.
  - apply lookup_ge_None in Hri. apply lookup_lt_Some in Hh. lia.
Qed.

Lemma fold_view_other header rows st name :
  name ∉ header ->
  view name (fold_left (fun st r => rangeColumns rowBody header r st) rows st)
  = view name st.
Proof.
  intros Hn. revert st. induction rows as [|r rows IH]; intros st; [reflexivity|].
  simpl. rewrite IH. eapply rangeColumns_other; eauto using rowBody_local.
Qed.

Lemma foldView_untracked i rows : foldView i rows (None, None, None) = (None, None, None).
Proof. induction rows; simpl; auto. Qed.

(** [tight lo hi vs]: [lo] and [hi] are the least and the greatest
    of the integers [vs]. *)
Definition tight (lo hi : Z) (vs : list Z) : Prop :=
  lo ∈ vs /\ hi ∈ vs /\ forall v, v ∈ vs -> lo <= v <= hi.

Lemma rowView_tracked val lo hi :
  rowView val (Some true, Some lo, Some hi)
  = match strconv.ParseInt val with
    | Some v => (Some true, Some (if v <? lo then v else lo),
                 Some (if v >? hi then v else hi))
    | None => (None, None, None)
    end.
Proof.
  unfold rowView. simpl. destruct (strconv.ParseInt val) as [v|]; [|reflexivity].
  destruct (v <? lo), (v >? hi); reflexivity.
Qed.

Lemma foldView_tracked i rows seen lo hi :
  tight lo hi seen -> seen <> [] ->
  match column_ints i rows with
  | Some vs => exists lo' hi', foldView i rows (Some true, Some lo, Some hi)
                               = (Some true, Some lo', Some hi')
                               /\ tight lo' hi' (seen ++ vs)%list
  | None => foldView i rows (Some true, Some lo, Some hi) = (None, None, None)
  end.
Proof.
  revert seen lo hi. induction rows as [|r rows IH]; intros seen lo hi Ht Hne.
  - exists lo, hi. rewrite app_nil_r. auto.
  - rewrite foldView_cons. cbn [column_ints].
    destruct (r !! i) as [val|] eqn:Hri.
    + change (default "" (Some val)) with val.
      change (Some val ≫= strconv.ParseInt) with (strconv.ParseInt val).
      rewrite rowView_tracked.
      destruct (strconv.ParseInt val) as [v|] eqn:Hp.
      * assert (tight (if v <? lo then v else lo) (if v >? hi then v else hi)
                      (seen ++ [v])%list) as Ht'.
        { destruct Ht as (Hlo & Hhi & Hb). repeat split.
          - destruct (v <? lo); [apply elem_of_app; right; now left | now apply elem_of_app; left].
          - destruct (v >? hi); [apply elem_of_app; right; now left | now apply elem_of_app; left].
          - apply elem_of_app in H as [H|H].
            + apply Hb in H. destruct (Z.ltb_spec v lo); lia.
            + apply list_elem_of_singleton in H as ->. destruct (Z.ltb_spec v lo); lia.
          - apply elem_of_app in H as [H|H].
            + apply Hb in H. destruct (v >? hi) eqn:E; lia.
            + apply list_elem_of_singleton in H as ->. destruct (v >? hi) eqn:E; lia. }
        specialize (IH (seen ++ [v])%list _ _ Ht').
        destruct (column_ints i rows) as [vs|].
        -- destruct IH as (lo2 & hi2 & Hf & Ht2); [now destruct seen|].
           exists lo2, hi2. split; [exact Hf|]. now rewrite <- app_assoc in Ht2.
        -- apply IH. now destruct seen.
      * apply foldView_untracked.
    + change (default "" None) with "". rewrite rowView_tracked.
      change (strconv.ParseInt "") with (@None Z).
      apply foldView_untracked.
Qed.


Lemma column_ints_snoc i rows r :
  column_ints i (rows ++ [r])
  = match column_ints i rows, r !! i ≫= strconv.ParseInt with
    | Some vs, Some v => Some (vs ++ [v])%list
    | _, _ => None
    end.
Proof.
  induction rows as [|r0 rows IH]; cbn [column_ints app].
  - destruct (r !! i ≫= strconv.ParseInt); reflexivity.
  - rewrite IH. destruct (r0 !! i ≫= strconv.ParseInt); [|reflexivity].
    destruct (column_ints i rows); [|reflexivity].
    destruct (r !! i ≫= strconv.ParseInt); reflexivity.
Qed.

(** The zone map of a file with a header, a first row and further
    rows, all of the width of the header: every column name of the
    header is tracked exactly when all its values are integers, with
    their least and greatest as bounds; no other name is tracked. *)
Definition describes (zm : ZoneMap) (header : list string) (rows : list (list string)) : Prop :=
  (forall i name, header !! i = Some name ->
     match column_ints i rows with
     | Some vs => exists lo hi, MinValues zm !! name = Some lo
                                /\ MaxValues zm !! name = Some hi /\ tight lo hi vs
     | None => MinValues zm !! name = None /\ MaxValues zm !! name = None
     end)
  /\ (forall name, name ∉ header ->
        MinValues zm !! name = None /\ MaxValues zm !! name = None).

Lemma GenerateZoneMap_describes path header first rest :
  NoDup header ->
  Forall (fun r => length r = length header) (first :: rest) ->
  exists zm,
    GenerateZoneMap path (Some (map csv.Record (header :: first :: rest))) = Ok zm
    /\ describes zm header (first :: rest).
Proof.
  intros Hnd Hlen. apply Forall_cons in Hlen as [Hfirst Hrest].
  unfold GenerateZoneMap. cbn [map csv.Read].
  set (st1 := rangeColumns firstRowBody header first (mkScan ∅ ∅ ∅)).
  destruct (scanRows_records header rest st1 1) as (st & n & -> & Hst).
  eexists. split; [reflexivity|]. cbn [MinValues MaxValues].
  split.
  - intros i name Hh.
    assert (view name st = foldView i rest (view name st1)) as Hv.
    { rewrite Hst. now apply fold_view. }
    destruct (first !! i) as [val|] eqn:Hfi.
    2:{ apply lookup_ge_None in Hfi. apply lookup_lt_Some in Hh. lia. }
    assert (view name st1 = firstView val (None, None, None)) as Hv1.
    { unfold st1. erewrite rangeColumns_at; eauto using firstRowBody_local. }
    rewrite Hv1 in Hv. unfold firstView in Hv.
    cbn [column_ints]. rewrite Hfi.
    change (Some val ≫= strconv.ParseInt) with (strconv.ParseInt val).
    destruct (strconv.ParseInt val) as [v|].
    + assert (tight v v [v]) as Ht.
      { repeat split; try now left. all: apply list_elem_of_singleton in H as ->; lia. }
      pose proof (foldView_tracked i rest [v] v v Ht ltac:(discriminate)) as Hf.
      destruct (column_ints i rest) as [vs|].
      * destruct Hf as (lo & hi & Hf & Ht'). rewrite Hf in Hv.
        unfold view in Hv. injection Hv as _ Hmin Hmax. eauto.
      * rewrite Hf in Hv. unfold view in Hv. injection Hv as _ Hmin Hmax. auto.
    + rewrite foldView_untracked in Hv.
      unfold view in Hv. injection Hv as _ Hmin Hmax. auto.
  - intros name Hn.
    assert (view name st = (None, None, None)) as Hv.
    { rewrite Hst, fold_view_other by assumption. unfold st1.
      erewrite rangeColumns_other; eauto using firstRowBody_local. }
    unfold view in Hv. injection Hv as _ Hmin Hmax. auto.
Qed.

(** C8. For a file whose header names are distinct and whose rows
    have the width of the header, [GenerateZoneMap] returns a zone
    map that tracks exactly the columns that are integers in the
    first row and in every later row, bounded by their least and
    greatest values; and scanning one more row never brings back a
    column that was dropped, never raises a minimum and never lowers
    a maximum. *)
Theorem GenerateZoneMap_tracks_integer_columns
        (path : string) (header first : list string) (rest : list (list string)) :
  NoDup header ->
  Forall (fun r => length r = length header) (first :: rest) ->
  exists zm,
    GenerateZoneMap path (Some (map csv.Record (header :: first :: rest))) = Ok zm
    /\ describes zm header (first :: rest)
    /\ forall r, length r = length header ->
       exists zm',
         GenerateZoneMap path
           (Some (map csv.Record (header :: first :: rest ++ [r]))) = Ok zm'
         /\ describes zm' header (first :: rest ++ [r])
         /\ forall name,
             (MinValues zm !! name = None -> MinValues zm' !! name = None)
             /\ (MaxValues zm !! name = None -> MaxValues zm' !! name = None)
             /\ (forall lo', MinValues zm' !! name = Some lo' ->
                   exists lo, MinValues zm !! name = Some lo /\ lo' <= lo)
             /\ (forall hi', MaxValues zm' !! name = Some hi' ->
                   exists hi, MaxValues zm !! name = Some hi /\ hi <= hi').
Proof.
  intros Hnd Hlen.
  destruct (GenerateZoneMap_describes path header first rest Hnd Hlen)
    as (zm & Hzm & Hd).
  exists zm. split; [exact Hzm|]. split; [exact Hd|].
  intros r Hr.
  assert (Forall (fun r => length r = length header) (first :: rest ++ [r])) as Hlen'.
  { apply Forall_cons in Hlen as [? ?]. apply Forall_cons. split; [assumption|].
    apply Forall_app. split; [assumption|]. now apply Forall_singleton. }
  destruct (GenerateZoneMap_describes path header first (rest ++ [r]) Hnd Hlen')
    as (zm' & Hzm' & Hd').
  exists zm'. split; [exact Hzm'|]. split; [exact Hd'|].
  intros name.
  destruct Hd as [Hin Hout], Hd' as [Hin' Hout'].
  destruct (decide (name ∈ header)) as [Hmem|Hmem].
  2:{ destruct (Hout _ Hmem) as [-> ->], (Hout' _ Hmem) as [-> ->].
      repeat split; try discriminate; trivial. }
  apply list_elem_of_lookup in Hmem as [i Hi].
  specialize (Hin _ _ Hi). specialize (Hin' _ _ Hi).
  change (first :: rest ++ [r])%list with ((first :: rest) ++ [r])%list in Hin'.
  rewrite column_ints_snoc in Hin'.
  destruct (column_ints i (first :: rest)) as [vs|].
  - destruct Hin as (lo & hi & Hmin & Hmax & Hlo & Hhi & Hb).
    destruct (r !! i ≫= strconv.ParseInt) as [v|].
    + destruct Hin' as (lo' & hi' & Hmin' & Hmax' & Hlo' & Hhi' & Hb').
      rewrite Hmin, Hmax, Hmin', Hmax'.
      repeat split; try discriminate.
      * intros ? [= <-]. exists lo. split; [reflexivity|].
        apply Hb'. apply elem_of_app. now left.
      * intros ? [= <-]. exists hi. split; [reflexivity|].
        apply Hb'. apply elem_of_app. now left.
    + destruct Hin' as [-> ->]. repeat split; try discriminate; trivial.
  - destruct Hin as [-> ->], Hin' as [-> ->].
    repeat split; try discriminate; trivial.
Qed.

Example GenerateZoneMap_tracks_integer_columns_witness :
  exists zm,
    GenerateZoneMap "t.csv"
      (Some (map csv.Record [["id"; "name"; "qty"]; ["1"; "a"; "7"]; ["2"; "b"; "x"]])) = Ok zm
    /\ MinValues zm !! "id" = Some 1 /\ MaxValues zm !! "id" = Some 2
    /\ MinValues zm !! "qty" = None.
Proof.
  destruct (GenerateZoneMap_tracks_integer_columns "t.csv" ["id"; "name"; "qty"]
              ["1"; "a"; "7"] [["2"; "b"; "x"]]) as (zm & Hzm & _).
  - compute_done.
  - repeat constructor.
  - exists zm. split; [exact Hzm|].
    vm_compute in Hzm. injection Hzm as <-. vm_compute. auto.
Defined.

End metadata_facts.

(** ** Scan *)

Module scan_facts.
Import operators.

Section facts.
Context `{Platform}.

Lemma parseRecord_lookup (record : list string) (colTypes : list types.DataType) (i : nat) :
  parseRecord record colTypes !! i
  = match record !! i with
    | Some val => Some (match colTypes !! i with
                        | Some dt => parseValue val dt
                        | None => VString val
                        end)
    | None => None
    end.
Proof.
  revert colTypes i. induction record as [|val record IH]; intros colTypes i.
  - reflexivity.
  - destruct colTypes as [|dt colTypes], i as [|i]; cbn [parseRecord]; try reflexivity.
    + rewrite !lookup_cons. cbn. rewrite IH. now rewrite lookup_nil.
    + rewrite !lookup_cons. cbn. now rewrite IH.
Qed.

Lemma parseRecord_length (record : list string) (colTypes : list types.DataType) :
  length (parseRecord record colTypes) = length record.
Proof.
  revert colTypes. induction record as [|val record IH]; intros [|dt colTypes];
    cbn [parseRecord length]; auto.
Qed.

(** C7. Once the buffered first row has been returned, a [Next] that
    reads a record never fails: it returns a row with one value per
    field, typed by the schema fixed at construction, in which a
    field of an Integer column that is not an integer becomes [0],
    a field of a Float column that is not a number becomes [0.0],
    and the schema is left as it was. *)
Theorem CSVScan_Next_typed_zero (s : CSVScan) (record : list string) (rest : csv.Reader) :
  firstRowReturned s = true ->
  scan_reader s = csv.Record record :: rest ->
  exists row s',
    CSVScan_Next s = (Ok (Some row), s')
    /\ scan_schema s' = scan_schema s
    /\ scan_reader s' = rest
    /\ length (Values row) = length record
    /\ forall i val, record !! i = Some val ->
         Values row !! i
         = Some match Types (scan_schema s) !! i with
                | Some types.Int =>
                    match strconv.ParseInt val with
                    | Some v => VInt v
                    | None => VInt 0
                    end
                | Some types.Float =>
                    match ParseFloat val with
                    | Some v => VFloat v
                    | None => VFloat 0%float
                    end
                | Some types.String | None => VString val
                end.
Proof.
  intros Hret Hreader. unfold CSVScan_Next. rewrite Hret, Hreader.
  cbn [csv.Read]. eexists _, _. split; [reflexivity|].
  cbn [scan_schema scan_reader Values].
  repeat split; [apply parseRecord_length|].
  intros i val Hi. rewrite parseRecord_lookup, Hi.
  destruct (Types (scan_schema s) !! i) as [[]|]; reflexivity.
Qed.

End facts.

#[local] Existing Instance sample.platform.

(** A file whose first row fixes the types Integer, Float, Text, and
    whose second row has text in the two numeric columns. *)
Definition lenient_file : csv.Reader :=
  map csv.Record [["id"; "price"; "name"]; ["1"; "2.5"; "ann"]; ["x"; "n/a"; "bob"]].

Definition after_first_row : CSVScan :=
  match NewCSVScan (Some (0%nat, lenient_file)) with
  | Ok s => snd (CSVScan_Next s)
  | Err _ => mkCSVScan [] None (mkSchema [] []) None true
  end.

Lemma CSVScan_Next_typed_zero_witness :
  exists s', CSVScan_Next after_first_row
             = (Ok (Some (mkRow [VInt 0; VFloat 0%float; VString "bob"])), s').
Proof.
  destruct (CSVScan_Next_typed_zero after_first_row ["x"; "n/a"; "bob"] [])
    as (row & s' & Hnext & _ & _ & _ & Hval); [reflexivity | reflexivity |].
  exists s'. rewrite Hnext. vm_compute in Hnext. injection Hnext as <- _. reflexivity.
Defined.

End scan_facts.

(** ** Filter *)

Module filter_facts.
Import operators.

Section facts.
Context `{Platform}.

(** C5 (as the code has it). An integer row value is compared with
    a float literal as two integers: the literal is converted by
    [int64(...)], which discards its fraction, and the row value is
    not promoted. *)
Theorem compare_int_float_truncates (i : Z) (comp : types.Comparator) (f : float) :
  compare (VInt i) comp (VFloat f)
  = compareInt64 i comp (golang.int64_of_float64 f)
  /\ forall t, golang.truncate f = Some t -> in_int64 t = true ->
               compare (VInt i) comp (VFloat f) = compareInt64 i comp t.
Proof.
  split; [reflexivity|].
  intros t Ht Hr. cbn [compare toInt64]. unfold golang.int64_of_float64.
  now rewrite Ht, Hr.
Qed.

End facts.

(** C5, as stated, fails: the integer 1 is found equal to the
    literal 1.5, which the comparison of the two numbers as floats
    denies. *)
Lemma compare_int_float_not_promoted :
  compare (H := sample.platform) (VInt 1) types.Eq (VFloat 1.5) = true
  /\ compareFloat64 (golang.float64_of_int64 1) types.Eq 1.5 = false.
Proof. vm_compute. split; reflexivity. Qed.

Example compare_int_float_examples :
  compare (H := sample.platform) (VInt 1) types.Eq (VFloat 1.5) = true
  /\ compare (H := sample.platform) (VInt 1) types.Lt (VFloat 1.5) = false
  /\ compare (H := sample.platform) (VInt 2) types.Gt (VFloat 1.5) = true
  /\ compare (H := sample.platform) (VInt (-1)) types.Eq (VFloat (-1.5)) = true.
Proof. vm_compute. tauto. Qed.

End filter_facts.


(** ** Aggregates *)

Module aggregate_facts.
Import operators.

Section facts.
Context `{Platform}.

(** The value of an aggregate over no rows at all. *)
Definition emptyValue (agg : AggregateExpr) : Value :=
  match agg_Type agg with
  | types.Count => VInt 0
  | types.Sum => VFloat 0%float
  | types.Min | types.Max | types.Avg | types.AggOther => VNil
  end.

Lemma finalize_initState (aggregates : list AggregateExpr) :
  zip_with finalizeState (replicate (length aggregates) initState) aggregates
  = map emptyValue aggregates.
Proof.
  induction aggregates as [|agg aggregates IH]; [reflexivity|].
  cbn [length replicate zip_with map]. rewrite IH. f_equal.
Qed.

(** C9. Over an upstream that yields no row, the first [Next] of a
    scalar aggregate returns one row holding the integer 0 for each
    Count, 0.0 for each Sum and null for each Min, Max and Avg; the
    next call reports the end of the stream and leaves the operator
    as it is, so every later call does the same. *)
Theorem ScalarAggregateOp_Next_empty (aggregates : list AggregateExpr) :
  exists s',
    ScalarAggregateOp_Next (NewScalarAggregateOp [] aggregates)
    = (Ok (Some (mkRow (map emptyValue aggregates))), s')
    /\ ScalarAggregateOp_Next s' = (Ok None, s').
Proof.
  eexists. split.
  - unfold ScalarAggregateOp_Next, NewScalarAggregateOp.
    cbn [sa_computed sa_aggregates sa_input aggregateAll].
    rewrite finalize_initState. reflexivity.
  - reflexivity.
Qed.

(** The number an aggregate reads from a row, if any. *)
Definition numericAt (agg : AggregateExpr) (row : Row) : option float :=
  if (agg_ColumnIndex agg <? 0) || (agg_ColumnIndex agg >=? len (Values row))
  then None
  else toNumericValue (golang.index (Values row) (agg_ColumnIndex agg)).

Lemma wrap64_small (z : Z) : - 2 ^ 63 <= z < 2 ^ 63 -> wrap64 z = z.
Proof. intros Hz. unfold wrap64. rewrite Z.mod_small; lia. Qed.

Lemma updateState_count (state : aggregateState) (agg : AggregateExpr) (row : Row) :
  st_count (updateState state agg row) = wrap64 (st_count state + 1).
Proof.
  unfold updateState.
  destruct (isCount (agg_Type agg) && (agg_ColumnIndex agg <? 0)); [reflexivity|].
  destruct ((agg_ColumnIndex agg <? 0) || _); [reflexivity|].
  destruct (toNumericValue _); reflexivity.
Qed.

Lemma updateState_non_numeric (state : aggregateState) (agg : AggregateExpr) (row : Row) :
  isCount (agg_Type agg) = false -> numericAt agg row = None ->
  updateState state agg row
  = mkAggState (wrap64 (st_count state + 1)) (st_sum state) (st_min state)
               (st_max state) (st_hasData state).
Proof.
  unfold updateState, numericAt. intros -> Hn. cbn [andb].
  destruct ((agg_ColumnIndex agg <? 0) || _); [reflexivity|].
  now rewrite Hn.
Qed.

(** The state of one aggregate after the rows. *)
Definition stateAfter (agg : AggregateExpr) (rows : list Row) (state : aggregateState) :=
  fold_left (fun state row => updateState state agg row) rows state.

Lemma stateAfter_cons (agg : AggregateExpr) row rows state :
  stateAfter agg (row :: rows) state = stateAfter agg rows (updateState state agg row).
Proof. reflexivity. Qed.

Lemma stateAfter_count (agg : AggregateExpr) (rows : list Row) (state : aggregateState) :
  0 <= st_count state -> st_count state + len rows < 2 ^ 63 ->
  st_count (stateAfter agg rows state) = st_count state + len rows.
Proof.
  unfold len. revert state. induction rows as [|row rows IH]; intros state H0 Hlt.
  - cbn. lia.
  - rewrite stateAfter_cons.
    cbn [length] in *. rewrite IH; rewrite updateState_count, wrap64_small; lia.
Qed.

Lemma stateAfter_non_numeric (agg : AggregateExpr) (rows : list Row) (state : aggregateState) :
  isCount (agg_Type agg) = false ->
  (forall r, r ∈ rows -> numericAt agg r = None) ->
  st_sum (stateAfter agg rows state) = st_sum state
  /\ st_hasData (stateAfter agg rows state) = st_hasData state.
Proof.
  intros Hc. revert state. induction rows as [|row rows IH]; intros state Hn.
  - split; reflexivity.
  - rewrite stateAfter_cons.
    destruct (IH (updateState state agg row)) as [-> ->].
    + intros r Hr. apply Hn. now right.
    + rewrite updateState_non_numeric; [split; reflexivity | exact Hc |].
      apply Hn. now left.
Qed.

Lemma aggregateAll_rows (aggregates : list AggregateExpr) (rows : list Row)
      (states : list aggregateState) :
  aggregateAll aggregates (map PullRow rows) states
  = (Ok (fold_left (updateStates aggregates) rows states), []).
Proof.
  revert states. induction rows as [|row rows IH]; intros states; [reflexivity|].
  cbn [map aggregateAll fold_left]. apply IH.
Qed.

Lemma updateStates_lookup (aggregates : list AggregateExpr) (rows : list Row)
      (states : list aggregateState) (i : nat) agg state :
  aggregates !! i = Some agg -> states !! i = Some state ->
  fold_left (updateStates aggregates) rows states !! i = Some (stateAfter agg rows state).
Proof.
  intros Hagg. revert states state.
  induction rows as [|row rows IH]; intros states state Hst; [exact Hst|].
  rewrite stateAfter_cons. cbn [fold_left].
  apply IH. unfold updateStates. rewrite lookup_zip_with, Hst. cbn. now rewrite Hagg.
Qed.

(** C10. The count of an aggregate grows by one on every upstream
    row, numeric or not: over a non-empty input (of fewer than
    2^63 rows) a Count returns the number of rows; and when no row
    has a number in the aggregated column, Avg returns 0.0 (the
    sum 0.0 over the positive count) while Min and Max return
    null. *)
Theorem ScalarAggregateOp_counts_every_row
        (rows : list Row) (aggregates : list AggregateExpr) :
  rows <> [] -> len rows < 2 ^ 63 ->
  exists row s',
    ScalarAggregateOp_Next (NewScalarAggregateOp (map PullRow rows) aggregates)
    = (Ok (Some row), s')
    /\ forall i agg, aggregates !! i = Some agg ->
         (agg_Type agg = types.Count -> Values row !! i = Some (VInt (len rows)))
         /\ ((forall r, r ∈ rows -> numericAt agg r = None) ->
             (agg_Type agg = types.Avg -> Values row !! i = Some (VFloat 0%float))
             /\ (agg_Type agg = types.Min -> Values row !! i = Some VNil)
             /\ (agg_Type agg = types.Max -> Values row !! i = Some VNil)).
Proof.
  intros Hne Hlen.
  unfold ScalarAggregateOp_Next, NewScalarAggregateOp.
  cbn [sa_computed sa_aggregates sa_input].
  rewrite aggregateAll_rows. eexists _, _. split; [reflexivity|].
  intros i agg Hagg. cbn [Values].
  assert (0 < len rows) as Hpos by (unfold len; destruct rows; [congruence | cbn; lia]).
  assert (zip_with finalizeState
            (fold_left (updateStates aggregates) rows
                       (replicate (length aggregates) initState)) aggregates !! i
          = Some (finalizeState (stateAfter agg rows initState) agg)) as ->.
  { rewrite lookup_zip_with.
    erewrite updateStates_lookup; [cbn; now rewrite Hagg | exact Hagg |].
    apply lookup_replicate_2. eapply lookup_lt_Some; eauto. }
  pose proof (stateAfter_count agg rows initState ltac:(cbn; lia) ltac:(cbn; lia)) as Hcount.
  cbn [st_count initState] in Hcount. rewrite Z.add_0_l in Hcount.
  split.
  - intros Ht. unfold finalizeState. now rewrite Ht, Hcount.
  - intros Hn.
    assert (forall t, agg_Type agg = t -> t <> types.Count ->
                      st_sum (stateAfter agg rows initState) = 0%float
                      /\ st_hasData (stateAfter agg rows initState) = false) as Hst.
    { intros t Ht Hnc.
      apply (stateAfter_non_numeric agg rows initState); [|exact Hn].
      rewrite Ht. destruct t; try reflexivity. congruence. }
    repeat split; intros Ht; destruct (Hst _ Ht ltac:(discriminate)) as [Hsum Hdata];
      unfold finalizeState; rewrite Ht, ?Hdata; try reflexivity.
    rewrite Hcount, Hsum.
    destruct (Z.eqb_spec (len rows) 0) as [E|_]; [lia|].
    f_equal. f_equal. unfold golang.float64_of_int64.
    destruct (Z.eqb_spec (len rows) min_int64) as [E|_]; [unfold min_int64 in E; lia|].
    destruct (Z.ltb_spec (len rows) 0) as [E|_]; [lia|].
    apply float_facts.div_zero_of_uint63. lia.
Qed.

End facts.

(** Two rows without a number in column 0, aggregated four ways. *)
Lemma ScalarAggregateOp_counts_every_row_witness :
  exists s',
    ScalarAggregateOp_Next
      (NewScalarAggregateOp
         (map PullRow [mkRow [VString "a"]; mkRow [VNil]])
         [mkAggregateExpr types.Avg 0 "avg"; mkAggregateExpr types.Min 0 "min";
          mkAggregateExpr types.Max 0 "max"; mkAggregateExpr types.Count 0 "n"])
    = (Ok (Some (mkRow [VFloat 0%float; VNil; VNil; VInt 2])), s').
Proof.
  destruct (ScalarAggregateOp_counts_every_row
              [mkRow [VString "a"]; mkRow [VNil]]
              [mkAggregateExpr types.Avg 0 "avg"; mkAggregateExpr types.Min 0 "min";
               mkAggregateExpr types.Max 0 "max"; mkAggregateExpr types.Count 0 "n"])
    as (row & s' & Hnext & _); [discriminate | reflexivity |].
  exists s'. rewrite Hnext. vm_compute in Hnext. injection Hnext as <- _. reflexivity.
Defined.

End aggregate_facts.

(** ** Composite group keys *)

Module group_key_facts.
Import operators.

(** [nul_free s]: the separator does not occur in [s]. *)
Definition nul_free (s : string) : bool :=
  strconv_facts.all_chars (fun c => negb (Ascii.eqb c NUL)) s.

(** A tail of a composite key: empty, or a separator and more. *)
Definition key_tail (t : string) : Prop :=
  t = "" \/ exists t', t = String NUL t'.

Lemma part_tail_inj (p1 p2 t1 t2 : string) :
  nul_free p1 = true -> nul_free p2 = true -> key_tail t1 -> key_tail t2 ->
  p1 +:+ t1 = p2 +:+ t2 -> p1 = p2 /\ t1 = t2.
Proof.
  unfold nul_free. revert p2. induction p1 as [|c p1 IH]; intros p2 H1 H2 Ht1 Ht2 E.
  - destruct p2 as [|c2 p2]; [now split|].
    change (t1 = String c2 (p2 +:+ t2)) in E.
    cbn in H2. apply andb_prop in H2 as [Hc _].
    destruct Ht1 as [->|[t' ->]]; [discriminate|].
    injection E as <- _. now rewrite Ascii.eqb_refl in Hc.
  - cbn in H1. apply andb_prop in H1 as [Hc H1].
    destruct p2 as [|c2 p2].
    + change (String c (p1 +:+ t1) = t2) in E.
      destruct Ht2 as [->|[t' ->]]; [discriminate|].
      injection E as -> _. now rewrite Ascii.eqb_refl in Hc.
    + change (String c (p1 +:+ t1) = String c2 (p2 +:+ t2)) in E.
      cbn in H2. apply andb_prop in H2 as [_ H2]. injection E as -> E.
      destruct (IH p2 H1 H2 Ht1 Ht2 E) as [-> ->]. now split.
Qed.

Lemma decimal_nul_free (s : string) :
  strconv_facts.all_chars strconv_facts.decimal_char s = true -> nul_free s = true.
Proof.
  unfold nul_free. induction s as [|c s IH]; [reflexivity|]. cbn. intros H.
  apply andb_prop in H as [Hc Hs]. rewrite (IH Hs), andb_true_r.
  destruct (Ascii.eqb_spec c NUL) as [->|]; [discriminate | reflexivity].
Qed.

Section facts.
Context `{Platform}.

(** The text a group-by column adds to the key. *)
Definition keyPart (row : Row) (idx : Z) : string :=
  if (0 <=? idx) && (idx <? len (Values row))
  then golang.Sprint (golang.index (Values row) idx) else "".

(** The key as the parts joined by the separator. *)
Fixpoint joinFrom (i : nat) (parts : list string) : string :=
  match parts with
  | [] => ""
  | part :: parts' =>
      (if (0 <? i)%nat then String NUL "" else "") +:+ part +:+ joinFrom (S i) parts'
  end.

Lemma append_cons (x : ascii) (a b : string) : String x a +:+ b = String x (a +:+ b).
Proof. reflexivity. Qed.

Lemma append_nil_l (a : string) : "" +:+ a = a.
Proof. reflexivity. Qed.

Lemma append_assoc (a b c : string) : (a +:+ b) +:+ c = a +:+ (b +:+ c).
Proof.
  induction a as [|x a IH]; [reflexivity|].
  now rewrite !append_cons, IH.
Qed.

Lemma append_nil_r (a : string) : a +:+ "" = a.
Proof.
  induction a as [|x a IH]; [reflexivity|].
  now rewrite append_cons, IH.
Qed.

Lemma buildGroupKeyFrom_join (i : nat) (idxs : list Z) (row : Row) (key : string) :
  buildGroupKeyFrom i idxs row key = key +:+ joinFrom i (map (keyPart row) idxs).
Proof.
  revert i key. induction idxs as [|idx idxs IH]; intros i key.
  - cbn. now rewrite append_nil_r.
  - cbn [buildGroupKeyFrom map joinFrom]. rewrite IH. unfold keyPart at 2.
    destruct (0 <? i)%nat, ((0 <=? idx) && (idx <? len (Values row)));
      rewrite ?append_assoc, ?append_nil_r, ?append_nil_l; reflexivity.
Qed.

Lemma joinFrom_tail (i : nat) (parts : list string) :
  key_tail (joinFrom (S i) parts).
Proof. destruct parts; [now left | right; cbn [joinFrom Nat.ltb Nat.leb]; eauto]. Qed.

Lemma joinFrom_inj (i : nat) (l1 l2 : list string) :
  length l1 = length l2 ->
  Forall (fun p => nul_free p = true) l1 -> Forall (fun p => nul_free p = true) l2 ->
  joinFrom i l1 = joinFrom i l2 -> l1 = l2.
Proof.
  revert i l2. induction l1 as [|p1 l1 IH]; intros i [|p2 l2] Hlen H1 H2 E;
    try discriminate; [reflexivity|].
  apply Forall_cons in H1 as [Hp1 H1]. apply Forall_cons in H2 as [Hp2 H2].
  cbn [joinFrom] in E.
  assert (p1 +:+ joinFrom (S i) l1 = p2 +:+ joinFrom (S i) l2) as E'.
  { destruct (0 <? i)%nat; [now injection E | exact E]. }
  destruct (part_tail_inj _ _ _ _ Hp1 Hp2 (joinFrom_tail i l1) (joinFrom_tail i l2) E')
    as [-> Et].
  f_equal. apply (IH (S i)); auto.
Qed.

(** Two values of one group-by column that the key tells apart:
    they have the same dynamic type and their texts are free of the
    separator (and, for floats, equal only for equal floats). *)
Definition keyable (v1 v2 : Value) : Prop :=
  match v1, v2 with
  | VInt _, VInt _ => True
  | VString s1, VString s2 => nul_free s1 = true /\ nul_free s2 = true
  | VFloat f1, VFloat f2 =>
      nul_free (SprintFloat f1) = true /\ nul_free (SprintFloat f2) = true
      /\ (SprintFloat f1 = SprintFloat f2 -> f1 = f2)
  | VNil, VNil => True
  | _, _ => False
  end.

Lemma keyable_nul_free (v1 v2 : Value) :
  keyable v1 v2 ->
  nul_free (golang.Sprint v1) = true /\ nul_free (golang.Sprint v2) = true.
Proof.
  destruct v1, v2; cbn; try contradiction; intros Hk.
  - split; apply decimal_nul_free, strconv_facts.FormatInt_chars.
  - tauto.
  - tauto.
  - split; reflexivity.
Qed.

Lemma keyable_Sprint_inj (v1 v2 : Value) :
  keyable v1 v2 -> golang.Sprint v1 = golang.Sprint v2 -> v1 = v2.
Proof.
  destruct v1, v2; cbn; try contradiction; intros Hk E.
  - f_equal. now apply strconv_facts.FormatInt_inj.
  - f_equal. now apply Hk.
  - now f_equal.
  - reflexivity.
Qed.

(** C6 (as the code has it). On rows whose group-by columns hold,
    column by column, values of one type whose texts are free of
    the separator, equal keys mean equal group-by values: two such
    rows that differ in a group-by value get different keys. *)
Theorem buildGroupKey_injective (groupByIndices : list Z) (r1 r2 : Row) :
  Forall2 keyable (groupKeyValues groupByIndices r1) (groupKeyValues groupByIndices r2) ->
  groupKeyValues groupByIndices r1 <> groupKeyValues groupByIndices r2 ->
  buildGroupKey groupByIndices r1 <> buildGroupKey groupByIndices r2.
Proof.
  intros Hk Hne E. apply Hne. clear Hne.
  unfold buildGroupKey in E. rewrite !buildGroupKeyFrom_join, !append_nil_l in E.
  apply joinFrom_inj in E.
  - revert Hk E. unfold groupKeyValues.
    induction groupByIndices as [|idx idxs IH]; [reflexivity|].
    cbn [map]. intros Hk [= E Es]. apply Forall2_cons in Hk as [Hk Hks].
    f_equal; [|now apply IH].
    unfold keyPart in E.
    destruct ((0 <=? idx) && (idx <? len (Values r1))),
             ((0 <=? idx) && (idx <? len (Values r2))).
    + now apply keyable_Sprint_inj.
    + destruct (golang.index (Values r1) idx); cbn in Hk; try contradiction. reflexivity.
    + destruct (golang.index (Values r2) idx); cbn in Hk; try contradiction. reflexivity.
    + reflexivity.
  - now rewrite !length_map.
  - clear E. revert Hk. unfold groupKeyValues.
    induction groupByIndices as [|idx idxs IH]; cbn [map]; intros Hk; constructor.
    + apply Forall2_cons in Hk as [Hk _]. unfold keyPart.
      destruct ((0 <=? idx) && (idx <? len (Values r1))); [|reflexivity].
      now apply keyable_nul_free in Hk.
    + apply Forall2_cons in Hk as [_ Hk]. now apply IH.
  - clear E. revert Hk. unfold groupKeyValues.
    induction groupByIndices as [|idx idxs IH]; cbn [map]; intros Hk; constructor.
    + apply Forall2_cons in Hk as [Hk _]. unfold keyPart.
      destruct ((0 <=? idx) && (idx <? len (Values r2))); [|reflexivity].
      now apply keyable_nul_free in Hk.
    + apply Forall2_cons in Hk as [_ Hk]. now apply IH.
Qed.

End facts.

#[local] Existing Instance sample.platform.

(** Two rows that differ in both group-by columns and share a key:
    the separator occurs at the end of one text and at the start of
    another. *)
Definition row_a_nul : Row := mkRow [VString (String "a" (String NUL "")); VString "b"].
Definition row_nul_b : Row := mkRow [VString "a"; VString (String NUL "b")].

(** C6, as stated, fails: the two tuples differ and their keys are
    the same text. *)
Lemma buildGroupKey_collision :
  groupKeyValues [0; 1] row_a_nul <> groupKeyValues [0; 1] row_nul_b
  /\ buildGroupKey [0; 1] row_a_nul = buildGroupKey [0; 1] row_nul_b.
Proof. split; [discriminate | reflexivity]. Qed.

(** The two rows end up in one group, counted twice. *)
Example computeGroups_merges_colliding_rows :
  let '(res, _) :=
    computeGroups [0; 1] [mkAggregateExpr types.Count (-1) "n"]
                  (map PullRow [row_a_nul; row_nul_b]) (∅, []) in
  match res with
  | Ok (groups, keys) =>
      length keys = 1%nat
      /\ (st_count <$> (groups !! buildGroupKey [0; 1] row_a_nul ≫= fun g => head (gs_states g)))
         = Some 2
  | Err _ => False
  end.
Proof. vm_compute. auto. Qed.

Lemma buildGroupKey_injective_witness :
  Forall2 keyable (groupKeyValues [0; 1] (mkRow [VString "a"; VInt 1]))
                  (groupKeyValues [0; 1] (mkRow [VString "a"; VInt 2]))
  /\ buildGroupKey [0; 1] (mkRow [VString "a"; VInt 1])
     <> buildGroupKey [0; 1] (mkRow [VString "a"; VInt 2]).
Proof.
  assert (Forall2 keyable (groupKeyValues [0; 1] (mkRow [VString "a"; VInt 1]))
                          (groupKeyValues [0; 1] (mkRow [VString "a"; VInt 2]))) as Hk
    by (repeat constructor).
  split; [exact Hk|].
  apply (buildGroupKey_injective _ _ _ Hk). discriminate.
Defined.

End group_key_facts.

(** ** Close *)

Module close_facts.
Import operators.

(** The release log agrees with the state, and no release is logged
    twice. *)
Definition consistent (st : os.State) : Prop :=
  NoDup (os.released st)
  /\ (forall f, os.Closed f ∈ os.released st -> f ∈ os.closed st)
  /\ (forall path, os.Removed path ∈ os.released st -> path ∉ os.present st).

Lemma os_Close_consistent (f : os.File) (st : os.State) :
  consistent st -> consistent (snd (os.Close f st)).
Proof.
  intros (Hnd & Hc & Hr). unfold os.Close.
  destruct (decide (f ∈ os.closed st)) as [Hin|Hout]; [now repeat split|].
  cbn. repeat split.
  - apply NoDup_app. repeat split; [exact Hnd | | apply NoDup_singleton].
    intros e He Hs. apply list_elem_of_singleton in Hs as ->. auto.
  - intros g Hg. apply elem_of_app in Hg as [Hg|Hg].
    + apply elem_of_union_r. auto.
    + apply list_elem_of_singleton in Hg as [= ->]. apply elem_of_union_l.
      now apply elem_of_singleton.
  - intros path Hp. apply elem_of_app in Hp as [Hp|Hp]; [auto|].
    apply list_elem_of_singleton in Hp. discriminate.
Qed.

Lemma os_Remove_consistent (path : string) (st : os.State) :
  consistent st -> consistent (snd (os.Remove path st)).
Proof.
  intros (Hnd & Hc & Hr). unfold os.Remove.
  destruct (decide (path ∈ os.present st)) as [Hin|Hout]; [|now repeat split].
  cbn. repeat split.
  - apply NoDup_app. repeat split; [exact Hnd | | apply NoDup_singleton].
    intros e He Hs. apply list_elem_of_singleton in Hs as ->.
    now apply Hr in He.
  - intros g Hg. apply elem_of_app in Hg as [Hg|Hg]; [auto|].
    apply list_elem_of_singleton in Hg. discriminate.
  - intros q Hq. apply elem_of_app in Hq as [Hq|Hq].
    + intros Hin'. apply elem_of_difference in Hin' as [Hin' _]. now apply Hr in Hq.
    + apply list_elem_of_singleton in Hq as [= ->].
      intros Hin'. apply elem_of_difference in Hin' as [_ Hne].
      apply Hne. now apply elem_of_singleton.
Qed.

Lemma os_Close_closed (f g : os.File) (st : os.State) :
  g ∈ os.closed st -> g ∈ os.closed (snd (os.Close f st)).
Proof.
  unfold os.Close. destruct (decide (f ∈ os.closed st)); cbn; [auto|].
  intros Hg. now apply elem_of_union_r.
Qed.

Lemma closeFiles_spec (files : list (option os.File)) (st : os.State) (g : os.File) :
  (consistent st -> consistent (closeFiles files st))
  /\ (g ∈ os.closed st -> g ∈ os.closed (closeFiles files st)).
Proof.
  revert st. induction files as [|[f|] files IH]; intros st; cbn; [tauto | |apply IH].
  destruct (IH (snd (os.Close f st))) as [IH1 IH2]. split.
  - intros Hc. apply IH1. now apply os_Close_consistent.
  - intros Hg. apply IH2. now apply os_Close_closed.
Qed.

Lemma removeFiles_spec (paths : list string) (st : os.State) (g : os.File) :
  (consistent st -> consistent (removeFiles paths st))
  /\ (g ∈ os.closed st -> g ∈ os.closed (removeFiles paths st)).
Proof.
  revert st. induction paths as [|path paths IH]; intros st; cbn; [tauto|].
  destruct (IH (snd (os.Remove path st))) as [IH1 IH2]. split.
  - intros Hc. apply IH1. now apply os_Remove_consistent.
  - intros Hg. apply IH2. unfold os.Remove.
    destruct (decide (path ∈ os.present st)); exact Hg.
Qed.

(** The first [Close] of a tree whose source file is still open. *)
Lemma Close_first (op : Operator) (st : os.State) (file : os.File) :
  sourceFile op = Some file -> file ∉ os.closed st ->
  exists st1, Close op st = (None, st1)
              /\ file ∈ os.closed st1
              /\ (consistent st -> consistent st1).
Proof.
  intros Hsrc Hopen. revert st Hopen.
  induction op as [f|input IH|input IH|input IH|input IH|input IH files paths|input IH];
    intros st Hopen; cbn in Hsrc |- *; try (now apply IH).
  - subst f. unfold os.Close. rewrite decide_False by exact Hopen.
    eexists. split; [reflexivity|]. split.
    + cbn. apply elem_of_union_l. now apply elem_of_singleton.
    + intros Hc. pose proof (os_Close_consistent file st Hc) as Hc'.
      unfold os.Close in Hc'. now rewrite decide_False in Hc' by exact Hopen.
  - destruct (IH Hsrc st Hopen) as (st1 & -> & Hin & Hc).
    eexists. split; [reflexivity|]. split.
    + apply removeFiles_spec. now apply closeFiles_spec.
    + intros Hst. apply (removeFiles_spec paths _ file).
      apply (closeFiles_spec files _ file). auto.
Qed.

(** Any [Close] of a tree whose source file is already closed. *)
Lemma Close_again (op : Operator) (st : os.State) (file : os.File) :
  sourceFile op = Some file -> file ∈ os.closed st ->
  Close op st = (Some "file already closed", st).
Proof.
  intros Hsrc Hclosed.
  induction op as [f|input IH|input IH|input IH|input IH|input IH files paths|input IH];
    cbn in Hsrc |- *; try (now apply IH).
  - subst f. unfold os.Close. now rewrite decide_True by exact Hclosed.
  - now rewrite (IH Hsrc).
Qed.

(** C4 (as the code has it). For every operator tree over a source
    file that is still open, also one on which [Next] was never
    called, [Close] returns no error, closes the source file and logs
    no release twice; a second [Close] in a row returns the error of
    closing the source file again, which every operator above the
    scan passes on, and releases nothing. *)
Theorem Close_once_then_error (op : Operator) (st : os.State) (file : os.File) :
  sourceFile op = Some file -> file ∉ os.closed st -> consistent st ->
  exists st1,
    Close op st = (None, st1)
    /\ file ∈ os.closed st1
    /\ consistent st1
    /\ Close op st1 = (Some "file already closed", st1).
Proof.
  intros Hsrc Hopen Hc.
  destruct (Close_first op st file Hsrc Hopen) as (st1 & H1 & Hin & Hc1).
  exists st1. split; [exact H1|]. split; [exact Hin|]. split; [now apply Hc1|].
  now apply Close_again with file.
Qed.

(** A freshly planned query, [Limit(Sort(Filter(Scan)))], whose sort
    has not prepared yet (no run file), on a system where only the
    source file 0 is open. *)
Definition fresh_plan : Operator :=
  OpLimit (OpSort (OpFilter (OpCSVScan (Some 0%nat))) [] []).

Definition fresh_os : os.State := os.mkState ∅ ∅ [].

(** C4, as stated, fails: the first [Close] of the plan returns no
    error and the second returns the error of the source file, which
    is closed already; so does a scan on its own. *)
Lemma Close_twice_returns_error :
  fst (Close fresh_plan fresh_os) = None
  /\ fst (Close fresh_plan (snd (Close fresh_plan fresh_os))) = Some "file already closed"
  /\ fst (Close (OpCSVScan (Some 0%nat)) (snd (Close (OpCSVScan (Some 0%nat)) fresh_os)))
     = Some "file already closed".
Proof. vm_compute. repeat split. Qed.

Lemma Close_once_then_error_witness :
  exists st1,
    Close fresh_plan fresh_os = (None, st1)
    /\ os.released st1 = [os.Closed 0%nat]
    /\ Close fresh_plan st1 = (Some "file already closed", st1).
Proof.
  destruct (Close_once_then_error fresh_plan fresh_os 0%nat) as (st1 & H1 & _ & _ & H2).
  - reflexivity.
  - apply not_elem_of_empty.
  - repeat split; cbn; [apply NoDup_nil_2 | intros ? Hin | intros ? Hin];
      now apply elem_of_nil in Hin.
  - exists st1. repeat split; [exact H1 | | exact H2].
    vm_compute in H1. injection H1 as <-. reflexivity.
Defined.

End close_facts.

(** ** The merge heap *)

Module heap_facts.

Local Open Scope nat_scope.
Local Open Scope list_scope.

(** The binary heap of [container/heap] on a plain list: the same two
    loops as [up] and [down], with the element comparison [less] in
    place of the methods of [mergeHeap]. *)
Section list_heap.
Context {A : Type} (less : A -> A -> bool).

Definition parent (j : nat) : nat := ((j - 1) / 2)%nat.

Definition lless (l : list A) (i j : nat) : bool :=
  match l !! i, l !! j with
  | Some a, Some b => less a b
  | _, _ => false
  end.

Definition lswap (l : list A) (i j : nat) : list A :=
  match l !! i, l !! j with
  | Some a, Some b => <[j := a]> (<[i := b]> l)
  | _, _ => l
  end.

Fixpoint lup (fuel : nat) (l : list A) (j : nat) : list A :=
  match fuel with
  | O => l
  | S fuel' =>
      let i := parent j in
      if (i =? j)%nat || negb (lless l j i) then l
      else lup fuel' (lswap l i j) i
  end.

Fixpoint ldown (fuel : nat) (l : list A) (i n : nat) : list A :=
  match fuel with
  | O => l
  | S fuel' =>
      let j1 := (2 * i + 1)%nat in
      if (n <=? j1)%nat then l
      else
        let j := if (j1 + 1 <? n)%nat && lless l (j1 + 1) j1 then (j1 + 1)%nat else j1 in
        if negb (lless l j i) then l
        else ldown fuel' (lswap l i j) j n
  end.

(** *** Indices *)

Lemma parent_lt (j : nat) : (0 < j)%nat -> (parent j < j)%nat.
Proof.
  intros Hj. unfold parent.
  pose proof (Nat.div_mod_eq (j - 1) 2). pose proof (Nat.mod_upper_bound (j - 1) 2).
  lia.
Qed.

Lemma parent_child (c i : nat) :
  (0 < c)%nat -> parent c = i <-> c = (2 * i + 1)%nat \/ c = (2 * i + 2)%nat.
Proof.
  intros Hc. unfold parent.
  pose proof (Nat.div_mod_eq (c - 1) 2). pose proof (Nat.mod_upper_bound (c - 1) 2).
  split; [lia|].
  intros [-> | ->].
  - replace (2 * i + 1 - 1)%nat with (i * 2)%nat by lia. now apply Nat.div_mul.
  - replace (2 * i + 2 - 1)%nat with (1 + i * 2)%nat by lia.
    rewrite Nat.div_add by lia. reflexivity.
Qed.

Lemma parent_0 : parent 0 = 0%nat.
Proof. reflexivity. Qed.

(** *** Swapping two positions *)

Lemma lswap_length (l : list A) (i j : nat) : length (lswap l i j) = length l.
Proof.
  unfold lswap. destruct (l !! i), (l !! j); rewrite ?length_insert; reflexivity.
Qed.

Lemma lswap_lookup (l : list A) (i j k : nat) (a b : A) :
  l !! i = Some a -> l !! j = Some b ->
  lswap l i j !! k = if decide (k = j) then Some a
                     else if decide (k = i) then Some b else l !! k.
Proof.
  intros Hi Hj. unfold lswap. rewrite Hi, Hj.
  pose proof (lookup_lt_Some _ _ _ Hi) as Hli. pose proof (lookup_lt_Some _ _ _ Hj) as Hlj.
  destruct (decide (k = j)) as [->|Hkj].
  - apply list_lookup_insert_eq. now rewrite length_insert.
  - rewrite list_lookup_insert_ne by congruence.
    destruct (decide (k = i)) as [->|Hki].
    + now apply list_lookup_insert_eq.
    + now rewrite list_lookup_insert_ne by congruence.
Qed.

Lemma lswap_Permutation (l : list A) (i j : nat) : lswap l i j ≡ₚ l.
Proof.
  destruct (l !! i) as [a|] eqn:Hi; [|unfold lswap; now rewrite Hi].
  destruct (l !! j) as [b|] eqn:Hj; [|unfold lswap; now rewrite Hi, Hj].
  apply Permutation_inj. split; [apply lswap_length|].
  exists (fun k => if decide (k = j) then i else if decide (k = i) then j else k).
  split.
  - intros x y. repeat case_decide; congruence.
  - intros k. rewrite (lswap_lookup l i j k a b Hi Hj).
    repeat case_decide; subst; congruence.
Qed.

Lemma lup_Permutation (fuel : nat) (l : list A) (j : nat) : lup fuel l j ≡ₚ l.
Proof.
  revert l j. induction fuel as [|fuel IH]; intros l j; [reflexivity|].
  cbn [lup]. destruct (_ || _); [reflexivity|].
  rewrite IH. apply lswap_Permutation.
Qed.

Lemma ldown_Permutation (fuel : nat) (l : list A) (i n : nat) : ldown fuel l i n ≡ₚ l.
Proof.
  revert l i. induction fuel as [|fuel IH]; intros l i; [reflexivity|].
  cbn [ldown]. destruct (n <=? _)%nat; [reflexivity|].
  destruct (negb _); [reflexivity|].
  rewrite IH. apply lswap_Permutation.
Qed.

Lemma lup_length (fuel : nat) (l : list A) (j : nat) : length (lup fuel l j) = length l.
Proof. apply Permutation_length, lup_Permutation. Qed.

Lemma ldown_length (fuel : nat) (l : list A) (i n : nat) :
  length (ldown fuel l i n) = length l.
Proof. apply Permutation_length, ldown_Permutation. Qed.

(** [heap.Push] and [heap.Pop] on the list. *)
Definition lpush (l : list A) (x : A) : list A :=
  lup (length (l ++ [x]) - 1) (l ++ [x]) (length (l ++ [x]) - 1).

Definition lpop (l : list A) : option A * list A :=
  let n := length l - 1 in
  let l' := ldown (n - 0) (lswap l 0 n) 0 n in
  (last l', removelast l').

Lemma lpush_Permutation (l : list A) (x : A) : lpush l x ≡ₚ x :: l.
Proof.
  unfold lpush. rewrite lup_Permutation. symmetry. apply Permutation_cons_append.
Qed.

Lemma lpop_shape (l : list A) :
  l <> [] -> exists r rest, lpop l = (Some r, rest) /\ l ≡ₚ r :: rest.
Proof.
  intros Hne. unfold lpop.
  set (l2 := ldown _ _ _ _).
  assert (l2 ≡ₚ l) as Hp.
  { unfold l2. rewrite ldown_Permutation. apply lswap_Permutation. }
  destruct (exists_last (l := l2)) as (l3 & r & E).
  { intros E. rewrite E in Hp. apply Permutation_nil_l in Hp. congruence. }
  exists r, l3. rewrite E, last_snoc, removelast_last. split; [reflexivity|].
  rewrite <- Hp, E. symmetry. apply Permutation_cons_append.
Qed.

(** *** Heap order

    The elements live in a set [U] on which [less] is a strict weak
    order; [R a b] reads "[b] is not less than [a]". *)

Context (U : A -> Prop).
Context (less_irrefl : forall a, U a -> less a a = false).
Context (less_trans : forall a b c, U a -> U b -> U c ->
                        less a b = true -> less b c = true -> less a c = true).
Context (less_negtrans : forall a b c, U a -> U b -> U c ->
                           less a b = false -> less b c = false -> less a c = false).

Definition R (a b : A) : Prop := less b a = false.

Lemma R_refl (a : A) : U a -> R a a.
Proof. apply less_irrefl. Qed.

Lemma R_trans (a b c : A) : U a -> U b -> U c -> R a b -> R b c -> R a c.
Proof. unfold R. intros Ha Hb Hc Hab Hbc. now apply (less_negtrans c b a). Qed.

Lemma less_R (a b : A) : U a -> U b -> less a b = true -> R a b.
Proof.
  unfold R. intros Ha Hb Hab. destruct (less b a) eqn:Hba; [|reflexivity].
  rewrite <- (less_irrefl a Ha). symmetry. now apply (less_trans a b a).
Qed.

(** Every element below position [n] is not less than its parent. *)
Definition ordered_upto (l : list A) (n : nat) : Prop :=
  forall c x p, (0 < c < n)%nat -> l !! c = Some x -> l !! parent c = Some p -> R p x.

Definition heap_ordered (l : list A) : Prop := ordered_upto l (length l).

(** The heap order with one edge in doubt: the one into [j]. *)
Definition hole_up (l : list A) (j : nat) : Prop :=
  (forall c x p, (0 < c)%nat -> c <> j ->
                 l !! c = Some x -> l !! parent c = Some p -> R p x)
  /\ (forall c x g, (0 < c)%nat -> (0 < j)%nat -> parent c = j ->
                    l !! c = Some x -> l !! parent j = Some g -> R g x).

(** The heap order below [n] with the edges out of [i] in doubt. *)
Definition hole_down (l : list A) (i n : nat) : Prop :=
  (forall c x p, (0 < c < n)%nat -> parent c <> i ->
                 l !! c = Some x -> l !! parent c = Some p -> R p x)
  /\ (forall c x g, (0 < c < n)%nat -> parent c = i -> (0 < i)%nat ->
                    l !! c = Some x -> l !! parent i = Some g -> R g x).

Lemma lless_true (l : list A) (i j : nat) :
  lless l i j = true -> exists a b, l !! i = Some a /\ l !! j = Some b /\ less a b = true.
Proof. unfold lless. destruct (l !! i), (l !! j); try discriminate. eauto. Qed.

Lemma lless_at (l : list A) (i j : nat) (a b : A) :
  l !! i = Some a -> l !! j = Some b -> lless l i j = less a b.
Proof. unfold lless. now intros -> ->. Qed.

Lemma Forall_lswap (l : list A) (i j : nat) : Forall U l -> Forall U (lswap l i j).
Proof. intros Hl. now rewrite lswap_Permutation. Qed.

Lemma lup_ordered (fuel : nat) (l : list A) (j : nat) :
  (j <= fuel)%nat -> (j < length l)%nat -> Forall U l -> hole_up l j ->
  heap_ordered (lup fuel l j).
Proof.
  revert l j. induction fuel as [|fuel IH]; intros l j Hfuel Hlen HU [H1 H2].
  - intros c x p Hc Hx Hp. apply (H1 c); auto; lia.
  - cbn [lup].
    destruct (Nat.eqb_spec (parent j) j) as [Heq|Hne]; cbn [orb].
    { intros c x p Hc Hx Hp. apply (H1 c); auto; try lia.
      intros ->. destruct (Nat.eq_dec j 0) as [->|]; [lia|].
      pose proof (parent_lt j). lia. }
    assert (0 < j)%nat as Hj by (destruct j; [now rewrite parent_0 in Hne | lia]).
    pose proof (parent_lt j Hj) as Hpj.
    destruct (lless l j (parent j)) eqn:Hless; cbn [negb].
    2:{ intros c x p Hc Hx Hp. destruct (Nat.eq_dec c j) as [->|Hcj].
        - unfold R. now rewrite <- (lless_at l j (parent j) x p). 
        - apply (H1 c); auto; lia. }
    destruct (lless_true _ _ _ Hless) as (x & p & Hx & Hp & Hxp).
    assert (U x) as Ux by (eapply Forall_lookup_1; eauto).
    assert (U p) as Up by (eapply Forall_lookup_1; eauto).
    pose proof (less_R x p Ux Up Hxp) as Rxp.
    pose proof (lswap_lookup l (parent j) j) as Hsw.
    specialize (fun k => Hsw k p x Hp Hx).
    apply IH; [lia | rewrite lswap_length; lia | now apply Forall_lswap |].
    split.
    + intros c xc pc Hc Hci Hxc Hpc. rewrite Hsw in Hxc, Hpc.
      assert (U xc) as Uxc.
      { repeat case_decide;
          first [ injection Hxc as <-; assumption | eapply Forall_lookup_1; eauto ]. }
      destruct (decide (c = j)) as [->|Hcj].
      * injection Hxc as <-. rewrite decide_False, decide_True in Hpc by (auto; lia).
        now injection Hpc as <-.
      * rewrite decide_False in Hxc by assumption.
        destruct (decide (parent c = j)) as [Hq|Hq].
        -- injection Hpc as <-. now apply (H2 c).
        -- destruct (decide (parent c = parent j)) as [Hq'|Hq'].
           ++ injection Hpc as <-. apply (R_trans x p xc); auto.
              apply (H1 c); auto. now rewrite Hq'.
           ++ now apply (H1 c).
    + intros c xc g Hc Hi Hpc Hxc Hg. rewrite Hsw in Hxc, Hg.
      pose proof (parent_lt (parent j) Hi) as Hppj.
      rewrite !decide_False in Hg by lia.
      assert (U g) as Ug by (eapply Forall_lookup_1; eauto).
      assert (R g p) as Rgp by (apply (H1 (parent j)); auto; lia).
      destruct (decide (c = j)) as [->|Hcj].
      * now injection Hxc as <-.
      * rewrite decide_False in Hxc.
        2:{ intros ->. lia. }
        assert (U xc) as Uxc by (eapply Forall_lookup_1; eauto).
        apply (R_trans g p xc); auto.
        apply (H1 c); auto. now rewrite Hpc.
Qed.

Lemma ldown_ordered (fuel : nat) (l : list A) (i n : nat) :
  n - i <= fuel -> n <= length l -> Forall U l -> hole_down l i n ->
  ordered_upto (ldown fuel l i n) n
  /\ (forall k, n <= k -> ldown fuel l i n !! k = l !! k).
Proof.
  revert l i. induction fuel as [|fuel IH]; intros l i Hfuel Hlen HU [H1 H2].
  - split; [|reflexivity]. intros c x p Hc Hx Hp. apply (H1 c); auto.
    intros Hpc. apply parent_child in Hpc; lia.
  - cbn [ldown]. destruct (Nat.leb_spec n (2 * i + 1)) as [Hn|Hn].
    { split; [|reflexivity]. intros c x p Hc Hx Hp. apply (H1 c); auto.
      intros Hpc. apply parent_child in Hpc; lia. }
    set (j1 := 2 * i + 1) in *.
    set (j := if (j1 + 1 <? n) && lless l (j1 + 1) j1 then j1 + 1 else j1).
    assert (j < n /\ parent j = i /\ i < j) as (Hjn & Hpj & Hij).
    { unfold j. destruct (Nat.ltb_spec (j1 + 1) n); cbn [andb];
        [destruct (lless l (j1 + 1) j1)|]; (split; [lia|]);
        (split; [apply parent_child; unfold j1; lia | unfold j1; lia]). }
    destruct (lookup_lt_is_Some_2 l i ltac:(lia)) as [x Hx].
    destruct (lookup_lt_is_Some_2 l j ltac:(lia)) as [y Hy].
    assert (U x) as Ux by (eapply Forall_lookup_1; eauto).
    assert (U y) as Uy by (eapply Forall_lookup_1; eauto).
    (* the child that was not chosen is not less than the chosen one *)
    assert (forall c z, 0 < c < n -> parent c = i -> c <> j -> l !! c = Some z -> R y z)
      as Hsibling.
    { intros c z Hc Hpc Hcj Hz. apply parent_child in Hpc; [|lia].
      assert (U z) as Uz by (eapply Forall_lookup_1; eauto).
      unfold j in Hcj, Hy.
      destruct (Nat.ltb_spec (j1 + 1) n) as [Hj2|Hj2]; cbn [andb] in Hcj, Hy.
      - destruct (lless l (j1 + 1) j1) eqn:Hl.
        + assert (c = j1) as -> by (unfold j1 in *; lia).
          apply less_R; auto. now rewrite <- (lless_at l (j1 + 1) j1 y z).
        + assert (c = j1 + 1) as -> by (unfold j1 in *; lia).
          unfold R. now rewrite <- (lless_at l (j1 + 1) j1 z y).
      - unfold j1 in *. lia. }
    destruct (lless l j i) eqn:Hless; cbn [negb].
    2:{ split; [|reflexivity]. intros c z p Hc Hz Hp.
        destruct (Nat.eq_dec (parent c) i) as [Hpc|Hpc]; [|now apply (H1 c)].
        rewrite Hpc, Hx in Hp. injection Hp as <-.
        assert (R x y) as Rxy by (unfold R; now rewrite <- (lless_at l j i y x)).
        destruct (Nat.eq_dec c j) as [->|Hcj]; [congruence|].
        assert (U z) as Uz by (eapply Forall_lookup_1; eauto).
        apply (R_trans x y z); auto. now apply (Hsibling c). }
    assert (less y x = true) as Hyx by (now rewrite <- (lless_at l j i y x)).
    pose proof (less_R y x Uy Ux Hyx) as Ryx.
    pose proof (lswap_lookup l i j) as Hsw.
    specialize (fun k => Hsw k x y Hx Hy).
    destruct (IH (lswap l i j) j) as [IH1 IH2];
      [lia | rewrite lswap_length; lia | now apply Forall_lswap | |].
    + split.
      * intros c xc pc Hc Hpcj Hxc Hpc. rewrite Hsw in Hxc, Hpc.
        rewrite (decide_False (P := parent c = j)) in Hpc by assumption.
        destruct (decide (c = j)) as [->|Hcj].
        -- injection Hxc as <-. rewrite Hpj, decide_True in Hpc by reflexivity.
           now injection Hpc as <-.
        -- destruct (decide (c = i)) as [->|Hci].
           ++ injection Hxc as <-.
              assert (parent i < i) by (pose proof (parent_lt i); lia).
              rewrite decide_False in Hpc by lia.
              apply (H2 j); auto; lia.
           ++ destruct (decide (parent c = i)) as [Hq|Hq].
              ** injection Hpc as <-. now apply (Hsibling c).
              ** now apply (H1 c).
      * intros c xc g Hc Hpc Hj0 Hxc Hg. rewrite Hsw in Hxc, Hg.
        rewrite Hpj, decide_False, decide_True in Hg by (auto; lia).
        injection Hg as <-.
        assert (j < c) by (pose proof (parent_lt c); lia).
        rewrite !decide_False in Hxc by lia.
        apply (H1 c); auto; [lia | now rewrite Hpc].
    + split; [exact IH1|].
      intros k Hk. rewrite IH2, Hsw by assumption.
      now rewrite !decide_False by lia.
Qed.

(** In a heap, no element is less than the root. *)
Lemma root_least (l : list A) (r : A) :
  heap_ordered l -> Forall U l -> l !! 0 = Some r -> forall x, x ∈ l -> R r x.
Proof.
  intros Hh HU Hr x Hx. apply list_elem_of_lookup in Hx as [k Hk].
  revert x Hk. induction k as [k IH] using lt_wf_ind. intros x Hk.
  assert (U r) as Ur by (eapply Forall_lookup_1; eauto).
  destruct (Nat.eq_dec k 0) as [->|Hk0].
  - rewrite Hr in Hk. injection Hk as <-. now apply R_refl.
  - pose proof (parent_lt k ltac:(lia)) as Hpk.
    pose proof (lookup_lt_Some _ _ _ Hk) as Hlen.
    destruct (lookup_lt_is_Some_2 l (parent k) ltac:(lia)) as [p Hp].
    assert (U p) as Up by (eapply Forall_lookup_1; eauto).
    assert (U x) as Ux by (eapply Forall_lookup_1; eauto).
    apply (R_trans r p x); auto.
    + now apply (IH (parent k)).
    + apply (Hh k); auto; lia.
Qed.

Lemma lpush_ordered (l : list A) (x : A) :
  heap_ordered l -> Forall U l -> U x -> heap_ordered (lpush l x).
Proof.
  intros Hh HU Ux. unfold lpush. rewrite length_app. cbn [length].
  replace (length l + 1 - 1) with (length l) by lia.
  apply lup_ordered; [lia | rewrite length_app; cbn; lia | |].
  - apply Forall_app. split; [exact HU | now apply Forall_singleton].
  - split.
    + intros c xc p Hc Hcl Hxc Hp.
      pose proof (lookup_lt_Some _ _ _ Hxc) as Hlt. rewrite length_app in Hlt. cbn in Hlt.
      pose proof (parent_lt c Hc).
      rewrite lookup_app_l in Hxc, Hp by lia.
      apply (Hh c); auto; lia.
    + intros c xc g Hc Hl Hpc Hxc Hg.
      pose proof (lookup_lt_Some _ _ _ Hxc) as Hlt. rewrite length_app in Hlt. cbn in Hlt.
      pose proof (parent_lt c Hc). lia.
Qed.

Lemma lpop_spec (l : list A) :
  l <> [] -> heap_ordered l -> Forall U l ->
  exists r rest, lpop l = (Some r, rest) /\ l !! 0 = Some r
                 /\ l ≡ₚ r :: rest /\ heap_ordered rest.
Proof.
  intros Hne Hh HU. unfold lpop.
  set (n := length l - 1).
  assert (length l = S n) as Hlen by (unfold n; destruct l; [congruence | cbn; lia]).
  destruct (lookup_lt_is_Some_2 l 0 ltac:(lia)) as [r Hr].
  destruct (lookup_lt_is_Some_2 l n ltac:(lia)) as [z Hz].
  pose proof (lswap_lookup l 0 n) as Hsw. specialize (fun k => Hsw k r z Hr Hz).
  set (l1 := lswap l 0 n) in *.
  destruct (ldown_ordered (n - 0) l1 0 n) as [Ho Hk];
    [lia | unfold l1; rewrite lswap_length; lia | now apply Forall_lswap | |].
  { split; [|intros; lia].
    intros c x p Hc Hpc Hx Hp. rewrite Hsw in Hx, Hp.
    pose proof (parent_lt c ltac:(lia)).
    rewrite !decide_False in Hx by lia. rewrite !decide_False in Hp by lia.
    apply (Hh c); auto; lia. }
  set (l2 := ldown (n - 0) l1 0 n) in *.
  assert (length l2 = S n) as Hlen2.
  { unfold l2. rewrite ldown_length. unfold l1. now rewrite lswap_length. }
  assert (l2 !! n = Some r) as Hlast.
  { rewrite Hk, Hsw by lia. now rewrite decide_True. }
  assert (l2 = removelast l2 ++ [r]) as Hsplit.
  { destruct (exists_last (l := l2)) as (l3 & a & E); [intros E; now rewrite E in Hlen2|].
    rewrite E. rewrite removelast_last. f_equal.
    rewrite E, lookup_app_r in Hlast by (rewrite E, length_app in Hlen2; cbn in Hlen2; lia).
    rewrite E, length_app in Hlen2. cbn in Hlen2.
    replace (n - length l3) with 0 in Hlast by lia. cbn in Hlast. congruence. }
  exists r, (removelast l2). repeat split.
  - f_equal. rewrite last_lookup, Hlen2. exact Hlast.
  - exact Hr.
  - rewrite Permutation_cons_append, <- Hsplit.
    unfold l2. rewrite ldown_Permutation. unfold l1. now rewrite lswap_Permutation.
  - assert (length (removelast l2) = n) as Hlr.
    { rewrite Hsplit, length_app in Hlen2. cbn in Hlen2. lia. }
    intros c x p Hc Hx Hp. rewrite Hlr in Hc.
    pose proof (parent_lt c ltac:(lia)).
    apply (Ho c); auto.
    + rewrite Hsplit, lookup_app_l by lia. exact Hx.
    + rewrite Hsplit, lookup_app_l by lia. exact Hp.
Qed.

End list_heap.

End heap_facts.

(** ** Run files read back *)

Module csv_facts.

(** The first [Read] over a file sets the number of fields: it
    returns a record or the end of the file, never an error. *)
Lemma NewReader_head (written : list (list string)) :
  match csv.NewReader written with
  | csv.ReadError _ :: _ => False
  | _ => True
  end.
Proof.
  unfold csv.NewReader. induction written as [|record written IH]; [exact I|].
  cbn [csv.readFrom]. destruct (csv.emptyLine record); [exact IH | exact I].
Qed.

(** Records of one width, none of them an empty line, all come
    back, each field as [readLine] leaves it. *)
Lemma readFrom_same_width (width : nat) (written : list (list string)) :
  Forall (fun record => csv.emptyLine record = false /\ length record = width) written ->
  forall n, n = 0%nat \/ n = width ->
    csv.readFrom n written = map (fun record => csv.Record (map csv.dropCR record)) written.
Proof.
  induction 1 as [|record written [Hline Hwidth] _ IH]; intros n Hn; [reflexivity|].
  cbn [csv.readFrom map]. rewrite Hline, length_map, Hwidth.
  assert (width <> 0%nat) as Hpos.
  { intros E. rewrite E in Hwidth. apply nil_length_inv in Hwidth. now subst record. }
  destruct Hn as [-> | ->].
  - cbn [Nat.eqb]. f_equal. apply IH. now right.
  - apply Nat.eqb_neq in Hpos. rewrite Hpos, Nat.eqb_refl. f_equal. apply IH. now right.
Qed.

(** A field without a carriage return comes back as it is. *)
Lemma dropCR_no_CR (field : string) :
  (forall c, In c (list_ascii_of_string field) -> c <> csv.CR) -> csv.dropCR field = field.
Proof.
  induction field as [|c field IH]; intros Hno; [reflexivity|].
  cbn [csv.dropCR]. destruct field as [|c' field']; [reflexivity|].
  assert (Ascii.eqb c csv.CR = false) as ->
    by (apply Ascii.eqb_neq, Hno; now left).
  cbn [andb]. f_equal. apply IH. intros x Hx. apply Hno. now right.
Qed.

End csv_facts.

(** ** External sort *)

Module sort_facts.

Import operators.

(** *** Lists ordered by a strict weak order *)

(** Neither element comes before the other. *)
Definition same_rank {A} (less : A -> A -> bool) (a b : A) : Prop :=
  less a b = false /\ less b a = false.

Lemma nil_or_not {A} (l : list A) : l = [] \/ l <> [].
Proof. destruct l; [now left | now right]. Qed.

Section ordered_lists.
Context {A : Type} (less : A -> A -> bool) (u : list A).
Context (weak : strict_weak less u).

Lemma same_rank_refl (a : A) : a ∈ u -> same_rank less a a.
Proof. intros Ha. destruct weak as (Hi & _). split; now apply Hi. Qed.

Lemma same_rank_trans (a b c : A) :
  a ∈ u -> b ∈ u -> c ∈ u ->
  same_rank less a b -> same_rank less b c -> same_rank less a c.
Proof.
  intros Ha Hb Hc [Hab Hba] [Hbc Hcb]. destruct weak as (_ & _ & Hn).
  split; [apply (Hn a b c) | apply (Hn c b a)]; assumption.
Qed.

Lemma ordered_head (a : A) (l : list A) (x : A) :
  a ∈ u -> ordered less (a :: l) -> x ∈ a :: l -> less x a = false.
Proof.
  intros Ha Hord Hx. apply StronglySorted_inv in Hord as [_ Hall].
  apply elem_of_cons in Hx as [->|Hx].
  - destruct weak as (Hi & _). now apply Hi.
  - rewrite Forall_forall in Hall. now apply Hall.
Qed.

(** Two ordered lists with the same elements up to rank agree, rank
    by rank. *)
Lemma ordered_same_rank_upto (l1 : list A) :
  forall l2 m : list A,
    l1 ≡ₚ m -> Forall2 (same_rank less) m l2 ->
    (forall x, x ∈ l1 -> x ∈ u) -> (forall x, x ∈ l2 -> x ∈ u) ->
    ordered less l1 -> ordered less l2 ->
    Forall2 (same_rank less) l1 l2.
Proof.
  induction l1 as [|a l1 IH]; intros l2 m Hperm Hm Hu1 Hu2 Ho1 Ho2.
  - apply Permutation_nil_l in Hperm. subst m. inversion Hm. constructor.
  - assert (a ∈ m) as Ha by (rewrite <- Hperm; left).
    apply list_elem_of_split in Ha as (m1 & m2 & ->).
    apply Permutation_cons_app_inv in Hperm.
    apply Forall2_app_inv_l in Hm as (k1 & k2' & Hk1 & Hk2 & ->).
    apply Forall2_cons_inv_l in Hk2 as (a' & k2 & Haa' & Hk2 & ->).
    assert (a ∈ u) as Hau by (apply Hu1; left).
    assert (a' ∈ u) as Ha'u by (apply Hu2, elem_of_app; right; left).
    pose proof (StronglySorted_inv Ho1) as [Ho1' _].
    destruct Hk1 as [|bm b m1 k1 Hbmb Hk1].
    + cbn [app] in *. pose proof (StronglySorted_inv Ho2) as [Ho2' _].
      constructor; [exact Haa'|].
      apply (IH k2 m2); auto.
      * intros x Hx. apply Hu1. now right.
      * intros x Hx. apply Hu2. now right.
    + cbn [app] in *. pose proof (StronglySorted_inv Ho2) as [Ho2' _].
      assert (bm ∈ l1) as Hbm by (rewrite Hperm; left).
      assert (bm ∈ u) as Hbmu by (apply Hu1; now right).
      assert (b ∈ u) as Hbu by (apply Hu2; left).
      assert (less bm a = false) as Hbma
        by (apply (ordered_head a l1); [exact Hau | exact Ho1 | now right]).
      assert (less a' b = false) as Ha'b.
      { apply (ordered_head b (k1 ++ a' :: k2)); [exact Hbu | exact Ho2 |].
        right. apply elem_of_app. right. left. }
      destruct weak as (_ & _ & Hn). destruct Haa' as [Haa' Ha'a], Hbmb as [Hbmb Hbbm].
      assert (same_rank less a b) as Hab.
      { split; [apply (Hn a a' b) | apply (Hn b bm a)]; assumption. }
      constructor; [exact Hab|].
      apply (IH (k1 ++ a' :: k2)%list (m1 ++ bm :: m2)%list).
      * rewrite Hperm. apply Permutation_middle.
      * apply Forall2_app; [exact Hk1|]. constructor; [|exact Hk2].
        apply (same_rank_trans bm a a'); auto.
        -- split; [apply (Hn bm b a) | apply (Hn a b bm)]; try assumption;
             apply Hab.
        -- now split.
      * intros x Hx. apply Hu1. now right.
      * intros x Hx. apply Hu2. now right.
      * exact Ho1'.
      * exact Ho2'.
Qed.

Lemma ordered_same_rank (l1 l2 : list A) :
  l1 ≡ₚ l2 -> (forall x, x ∈ l1 -> x ∈ u) ->
  ordered less l1 -> ordered less l2 ->
  Forall2 (same_rank less) l1 l2.
Proof.
  intros Hperm Hu Ho1 Ho2.
  assert (forall x, x ∈ l2 -> x ∈ u) as Hu2 by (intros x Hx; apply Hu; now rewrite Hperm).
  apply (ordered_same_rank_upto l1 l2 l2); auto.
  clear Hperm Ho2 Ho1 Hu. induction l2 as [|x l2 IH]; constructor.
  - apply same_rank_refl, Hu2. left.
  - apply IH. intros y Hy. apply Hu2. now right.
Qed.

End ordered_lists.
Section facts.
Context `{Platform} `{SliceSorter}.

(** The comparison of two heap items that [mergeHeap.Less] makes. *)
Definition itemLess (columnIndex : Z) (desc : bool) (x y : heapItem) : bool :=
  rowLess columnIndex desc (item_row x) (item_row y).

Abbreviation hless h := (itemLess (mh_columnIndex h) (mh_desc h)).

(** *** The heap of the operator is the heap on its list of items *)

Lemma Less_lless (h : mergeHeap) (i j : nat) :
  Less h i j = heap_facts.lless (hless h) (items h) i j.
Proof. reflexivity. Qed.

Lemma Swap_items (h : mergeHeap) (i j : nat) :
  Swap h i j = set_items h (heap_facts.lswap (items h) i j).
Proof.
  unfold Swap, heap_facts.lswap.
  destruct (items h !! i), (items h !! j); try reflexivity; now destruct h.
Qed.

Lemma up_loop_items (fuel : nat) (h : mergeHeap) (j : nat) :
  up_loop fuel h j = set_items h (heap_facts.lup (hless h) fuel (items h) j).
Proof.
  revert h j. induction fuel as [|fuel IH]; intros h j; [now destruct h|].
  cbn [up_loop heap_facts.lup]. rewrite Less_lless. fold (heap_facts.parent j).
  destruct (_ || _); [now destruct h|].
  rewrite Swap_items, IH. reflexivity.
Qed.

Lemma down_loop_items (fuel : nat) (h : mergeHeap) (i n : nat) :
  down_loop fuel h i n = set_items h (heap_facts.ldown (hless h) fuel (items h) i n).
Proof.
  revert h i. induction fuel as [|fuel IH]; intros h i; [now destruct h|].
  cbn [down_loop heap_facts.ldown]. rewrite !Less_lless.
  destruct (n <=? _)%nat; [now destruct h|].
  destruct (negb _); [now destruct h|].
  rewrite Swap_items, IH. reflexivity.
Qed.

Lemma heap_Push_items (h : mergeHeap) (x : heapItem) :
  heap_Push h x = set_items h (heap_facts.lpush (hless h) (items h) x).
Proof. unfold heap_Push, up. now rewrite up_loop_items. Qed.

Lemma heap_Pop_items (h : mergeHeap) :
  heap_Pop h = (fst (heap_facts.lpop (hless h) (items h)),
                set_items h (snd (heap_facts.lpop (hless h) (items h)))).
Proof.
  unfold heap_Pop, down. rewrite Swap_items, down_loop_items. reflexivity.
Qed.

Lemma heap_Init_empty (columnIndex : Z) (desc : bool) :
  heap_Init (mkMergeHeap [] columnIndex desc) = mkMergeHeap [] columnIndex desc.
Proof. reflexivity. Qed.

(** *** One buffered row per run *)

(** The runs that have a row in the heap are distinct runs of the
    operator. *)
Definition one_row_per_run (s : SortOp) : Prop :=
  match mergeHeap_ s with
  | None => True
  | Some h =>
      NoDup (map fileIndex (items h))
      /\ Forall (fun item => (fileIndex item < length (tempFiles s))%nat) (items h)
  end.

Lemma one_row_per_run_length (s : SortOp) (h : mergeHeap) :
  one_row_per_run s -> mergeHeap_ s = Some h ->
  (length (items h) <= length (tempFiles s))%nat.
Proof.
  unfold one_row_per_run. intros Hs Hh. rewrite Hh in Hs. destruct Hs as [Hnd Hb].
  rewrite <- (length_map fileIndex).
  transitivity (length (seq 0 (length (tempFiles s)))); [|now rewrite length_seq].
  apply NoDup_incl_length; [now apply NoDup_ListNoDup|].
  intros i Hi. apply in_seq. apply list_elem_of_In, list_elem_of_fmap in Hi as (item & -> & Hitem).
  rewrite Forall_forall in Hb. apply Hb in Hitem. lia.
Qed.

Lemma openRuns_bound (schema : Schema) (files : list (list (list string))) :
  forall (i : nat) (readers : list csv.Reader) (h : mergeHeap),
    NoDup (map fileIndex (items h)) ->
    Forall (fun item => (fileIndex item < i)%nat) (items h) ->
    exists readers' h',
      openRuns schema i files readers h = (None, readers', h')
      /\ NoDup (map fileIndex (items h'))
      /\ Forall (fun item => (fileIndex item < i + length files)%nat) (items h').
Proof.
  induction files as [|content files IH]; intros i readers h Hnd Hb.
  - exists readers, h. rewrite Nat.add_0_r. auto.
  - cbn [openRuns length].
    replace (i + S (length files))%nat with (S i + length files)%nat by lia.
    pose proof (csv_facts.NewReader_head content) as Hhead.
    destruct (csv.NewReader content) as [|[record|msg] reader]; cbn [csv.Read];
      [| |contradiction].
    + apply IH; [exact Hnd|]. eapply Forall_impl; [exact Hb|]. cbn. lia.
    + apply IH.
      * rewrite heap_Push_items. cbn [items set_items].
        rewrite heap_facts.lpush_Permutation. cbn [map fileIndex].
        apply NoDup_cons. split; [|exact Hnd].
        intros Hin. apply list_elem_of_fmap in Hin as (item & Hi & Hitem).
        rewrite Forall_forall in Hb. apply Hb in Hitem. lia.
      * rewrite heap_Push_items. cbn [items set_items].
        rewrite heap_facts.lpush_Permutation. apply Forall_cons. split; [cbn; lia|].
        eapply Forall_impl; [exact Hb|]. cbn. lia.
Qed.

Lemma mergeNext_one_row_per_run (s : SortOp) :
  one_row_per_run s ->
  one_row_per_run (snd (mergeNext s))
  /\ prepared (snd (mergeNext s)) = prepared s
  /\ (mergeHeap_ s = None -> mergeHeap_ (snd (mergeNext s)) = None).
Proof.
  intros Hs. unfold mergeNext.
  destruct (exhausted s); [now repeat split|].
  destruct (mergeHeap_ s) as [h|] eqn:Hh; [|repeat split; auto; unfold one_row_per_run; now rewrite Hh].
  destruct (Len h =? 0)%nat eqn:Hlen;
    [repeat split; auto; try discriminate; unfold one_row_per_run; now rewrite Hh|].
  assert (items h <> []) as Hne.
  { intros E. unfold Len in Hlen. now rewrite E in Hlen. }
  rewrite heap_Pop_items.
  destruct (heap_facts.lpop_shape (hless h) (items h) Hne) as (item & rest & -> & Hp).
  cbn [fst snd].
  unfold one_row_per_run in Hs. rewrite Hh in Hs. destruct Hs as [Hnd Hb].
  rewrite Hp in Hnd, Hb. cbn [map] in Hnd.
  apply NoDup_cons in Hnd as [Hnotin Hnd]. apply Forall_cons in Hb as [Hbi Hb].
  destruct (csv.Read _) as [[record|msg|] reader'];
    cbn [snd]; (split; [|split; [reflexivity | discriminate]]);
    unfold one_row_per_run, set_merge; cbn [mergeHeap_ tempFiles]; try (split; assumption).
  rewrite heap_Push_items. cbn [items set_items].
  rewrite heap_facts.lpush_Permutation. cbn [map fileIndex]. split.
  - apply NoDup_cons. now split.
  - apply Forall_cons. now split.
Qed.

(** The invariant of [Next]: the heap exists only once the operator
    is prepared, and then holds at most one row per run. *)
Definition heap_invariant (s : SortOp) : Prop :=
  one_row_per_run s /\ (prepared s = false -> mergeHeap_ s = None).

Lemma fillChunks_files (columnIndex : Z) (desc : bool) (chunkSize : Z) (input : Input) :
  forall chunk files, exists res files' input',
    fillChunks columnIndex desc chunkSize input chunk files = (res, files', input').
Proof. intros. destruct (fillChunks _ _ _ _ _ _) as [[? ?] ?]. eauto. Qed.

Lemma SortOp_Next_invariant (s : SortOp) :
  heap_invariant s -> heap_invariant (snd (SortOp_Next s)).
Proof.
  intros [Hone Hprep]. unfold SortOp_Next, prepare.
  destruct (prepared s) eqn:Hp.
  - destruct (mergeNext_one_row_per_run s Hone) as (H1 & H2 & H3).
    split; [exact H1|]. rewrite H2, Hp. discriminate.
  - specialize (Hprep eq_refl).
    destruct (chunkSize s <? 0); [cbn [snd]; split; [exact Hone | now intros _]|].
    destruct (fillChunks _ _ _ _ _ _) as [[res files] input'].
    destruct res as [chunk|msg]; cbn [snd].
    2:{ split; [|now intros _]. unfold one_row_per_run. cbn [mergeHeap_]. now rewrite Hprep. }
    set (files' := if 0 <? len chunk then _ else _).
    unfold setupMerge. cbn [tempFiles input columnIndex desc chunkSize schema prepared
                            readers mergeHeap_ exhausted].
    destruct (length files' =? 0)%nat.
    + cbn [snd]. unfold mergeNext. cbn [exhausted snd]. split.
      * unfold one_row_per_run. cbn [mergeHeap_]. now rewrite Hprep.
      * discriminate.
    + rewrite heap_Init_empty.
      destruct (openRuns_bound (schema s) files' 0 [] (mkMergeHeap [] (columnIndex s) (desc s)))
        as (readers' & h' & -> & Hnd & Hb); [constructor | constructor |].
      cbn [Nat.add] in Hb.
      match goal with |- heap_invariant (snd (mergeNext ?t)) => set (s1 := t) end.
      destruct (mergeNext_one_row_per_run s1) as (H1 & H2 & H3).
      { unfold one_row_per_run, s1. cbn [mergeHeap_ tempFiles]. now split. }
      split; [exact H1|]. rewrite H2. discriminate.
Qed.

(** The operator after [n] calls of [Next]. *)
Definition after_calls (n : nat) (s : SortOp) : SortOp :=
  Nat.iter n (fun s => snd (SortOp_Next s)) s.

(** C3. After every [Next], on any upstream and for any chunk size,
    the runs of the rows buffered in the merge heap are distinct runs
    of the operator: the heap holds at most one row per run file, and
    so never more entries than there are runs. *)
Theorem merge_heap_one_row_per_run
        (input : Input) (inputSchema : Schema) (col : Z) (descending : bool)
        (size : Z) (n : nat) :
  let s := after_calls n (NewSortOpWithChunkSize input inputSchema col descending size) in
  match mergeHeap_ s with
  | None => True
  | Some h =>
      NoDup (map fileIndex (items h))
      /\ Forall (fun item => (fileIndex item < length (tempFiles s))%nat) (items h)
      /\ (length (items h) <= length (tempFiles s))%nat
  end.
Proof.
  cbn zeta.
  assert (heap_invariant
            (after_calls n (NewSortOpWithChunkSize input inputSchema col descending size)))
    as [Hone _].
  { induction n as [|n IH].
    - split; [exact I | reflexivity].
    - unfold after_calls. rewrite Nat.iter_succ. now apply SortOp_Next_invariant. }
  pose proof (fun h => one_row_per_run_length _ h Hone) as Hlen.
  unfold one_row_per_run in Hone.
  destruct (mergeHeap_ _) as [h|]; [|exact I].
  destruct Hone as [Hnd Hb]. repeat split; auto.
Qed.

End facts.

(** *** The merge returns the rows in order *)

Section merging.
Context `{Platform} `{SliceSorter}.
Context (sch : Schema) (col : Z) (dsc : bool) (rows : list Row) (width : nat).

(** A row that a run file returns as it was written: it has [width]
    values, its record is not written as an empty line, and the
    fields that the reader returns for it parse to its values. *)
Definition comes_back (row : Row) : Prop :=
  length (Values row) = width
  /\ csv.emptyLine (rowToRecord row) = false
  /\ recordToRow sch (map csv.dropCR (rowToRecord row)) = row.

Context (come_back : Forall comes_back rows).
Context (weak_order : strict_weak (rowLess col dsc) rows).

Abbreviation lt := (rowLess col dsc).
Abbreviation ilt := (itemLess col dsc).

(** The items whose row is one of the input rows. *)
Definition known (item : heapItem) : Prop := item_row item ∈ rows.

Lemma ilt_irrefl (a : heapItem) : known a -> ilt a a = false.
Proof. intros Ha. now apply weak_order. Qed.

Lemma ilt_trans (a b c : heapItem) :
  known a -> known b -> known c -> ilt a b = true -> ilt b c = true -> ilt a c = true.
Proof. intros Ha Hb Hc. destruct weak_order as (_ & Ht & _). now apply Ht. Qed.

Lemma ilt_negtrans (a b c : heapItem) :
  known a -> known b -> known c -> ilt a b = false -> ilt b c = false -> ilt a c = false.
Proof. intros Ha Hb Hc. destruct weak_order as (_ & _ & Hn). now apply Hn. Qed.

Lemma lt_negtrans (a b c : Row) :
  a ∈ rows -> b ∈ rows -> c ∈ rows -> lt a b = false -> lt b c = false -> lt a c = false.
Proof. destruct weak_order as (_ & _ & Hn). apply Hn. Qed.

(** The rows still to be read from a run file. *)
Fixpoint reader_rows (r : csv.Reader) : list Row :=
  match r with
  | [] => []
  | csv.Record fields :: r' => recordToRow sch fields :: reader_rows r'
  | csv.ReadError _ :: r' => reader_rows r'
  end.

Definition is_record (item : csv.ReadItem) : Prop :=
  match item with csv.Record _ => True | csv.ReadError _ => False end.

(** The rows the merge has not returned yet: those in the heap and
    those still in the run files. *)
Definition pending (readers : list csv.Reader) (h : mergeHeap) : list Row :=
  (map item_row (items h) ++ concat (map reader_rows readers))%list.

(** The state of a merge under way. *)
Definition merging (readers : list csv.Reader) (h : mergeHeap) : Prop :=
  mh_columnIndex h = col /\ mh_desc h = dsc
  /\ heap_facts.heap_ordered ilt (items h)
  /\ NoDup (map fileIndex (items h))
  /\ Forall (Forall is_record) readers
  /\ (forall item, item ∈ items h ->
        exists r, readers !! fileIndex item = Some r
                  /\ ordered lt (item_row item :: reader_rows r))
  /\ (forall i r, readers !! i = Some r -> i ∉ map fileIndex (items h) -> r = [])
  /\ Forall (fun row => row ∈ rows) (pending readers h).

Lemma concat_insert_reader (readers : list csv.Reader) (j : nat) (r r' : csv.Reader) :
  readers !! j = Some r ->
  concat (map reader_rows (<[j := r']> readers))
  ≡ₚ (reader_rows r' ++ concat (map reader_rows (delete j readers)))%list.
Proof.
  intros Hj. pose proof (lookup_lt_Some _ _ _ Hj) as Hlen.
  rewrite insert_take_drop by exact Hlen. rewrite delete_take_drop.
  rewrite !map_app, !concat_app. cbn [map concat].
  rewrite (Permutation_app_comm (concat (map reader_rows (take j readers)))).
  rewrite <- !app_assoc. apply Permutation_app_head.
  apply Permutation_app_comm.
Qed.

Lemma concat_delete_reader (readers : list csv.Reader) (j : nat) (r : csv.Reader) :
  readers !! j = Some r ->
  concat (map reader_rows readers)
  ≡ₚ (reader_rows r ++ concat (map reader_rows (delete j readers)))%list.
Proof.
  intros Hj. rewrite <- (list_insert_id readers j r Hj) at 1.
  exact (concat_insert_reader readers j r r Hj).
Qed.

Lemma merging_known (readers : list csv.Reader) (h : mergeHeap) :
  merging readers h -> Forall known (items h).
Proof.
  intros (_ & _ & _ & _ & _ & _ & _ & Hrows). unfold pending in Hrows.
  apply Forall_app in Hrows as [Hitems _].
  apply Forall_forall. intros item Hitem. rewrite Forall_forall in Hitems.
  apply Hitems. apply list_elem_of_fmap. eauto.
Qed.

(** No pending row is less than the row at the root of the heap. *)
Lemma root_is_least (readers : list csv.Reader) (h : mergeHeap) (item : heapItem) :
  merging readers h -> items h !! 0%nat = Some item ->
  Forall (fun row => lt row (item_row item) = false) (pending readers h).
Proof.
  intros Hm Hroot. pose proof (merging_known _ _ Hm) as Hknown.
  destruct Hm as (_ & _ & Hord & _ & _ & Hitem & Hex & Hrows).
  assert (forall x, x ∈ items h -> ilt x item = false) as Hleast.
  { intros x Hx.
    exact (heap_facts.root_least ilt known ilt_irrefl ilt_negtrans
             (items h) item Hord Hknown Hroot x Hx). }
  assert (known item) as Hki.
  { rewrite Forall_forall in Hknown. apply Hknown. eapply list_elem_of_lookup_2; eauto. }
  apply Forall_forall. intros x Hx.
  assert (x ∈ rows) as Hxr by (rewrite Forall_forall in Hrows; now apply Hrows).
  unfold pending in Hx. apply elem_of_app in Hx as [Hx|Hx].
  - apply list_elem_of_fmap in Hx as (y & -> & Hy). now apply Hleast.
  - apply list_elem_of_In, in_concat in Hx as (xs & Hxs & Hx).
    apply list_elem_of_In in Hx. apply list_elem_of_In in Hxs.
    apply list_elem_of_fmap in Hxs as (r & -> & Hr).
    apply list_elem_of_lookup in Hr as [i Hi].
    destruct (decide (i ∈ map fileIndex (items h))) as [Hin|Hout].
    2:{ rewrite (Hex i r Hi Hout) in Hx. now apply elem_of_nil in Hx. }
    apply list_elem_of_fmap in Hin as (y & -> & Hy).
    destruct (Hitem y Hy) as (r' & Hr' & Hsorted). rewrite Hi in Hr'. injection Hr' as <-.
    apply StronglySorted_inv in Hsorted as [_ Hall].
    rewrite List.Forall_forall in Hall. specialize (Hall x).
    assert (known y) as Hky by (rewrite Forall_forall in Hknown; now apply Hknown).
    apply (lt_negtrans x (item_row y) (item_row item)); auto.
    + apply Hall. now apply list_elem_of_In.
    + now apply Hleast.
Qed.

(** One step of the merge: the root leaves the heap, and the next row
    of its run, if there is one, enters it. *)
Lemma merge_step (readers : list csv.Reader) (h : mergeHeap) :
  merging readers h -> items h <> [] ->
  exists item h1 r,
    heap_Pop h = (Some item, h1)
    /\ readers !! fileIndex item = Some r
    /\ match csv.Read r with
       | (csv.EOF, r') =>
           let readers' := <[fileIndex item := r']> readers in
           merging readers' h1
           /\ pending readers h ≡ₚ item_row item :: pending readers' h1
           /\ Forall (fun row => lt row (item_row item) = false) (pending readers' h1)
       | (csv.GotRecord record, r') =>
           let readers' := <[fileIndex item := r']> readers in
           let h2 := heap_Push h1 (mkHeapItem (recordToRow sch record) (fileIndex item)) in
           merging readers' h2
           /\ pending readers h ≡ₚ item_row item :: pending readers' h2
           /\ Forall (fun row => lt row (item_row item) = false) (pending readers' h2)
       | (csv.Failed _, _) => False
       end.
Proof.
  intros Hm Hne. pose proof (merging_known _ _ Hm) as Hknown.
  pose proof Hm as (Hc & Hd & Hord & Hnd & Hrec & Hitem & Hex & Hrows).
  destruct (heap_facts.lpop_spec ilt known ilt_irrefl ilt_trans ilt_negtrans
              (items h) Hne Hord Hknown) as (item & rest & Hpop & Hroot & Hperm & Hord').
  pose proof (root_is_least readers h item Hm Hroot) as Hleast.
  assert (item ∈ items h) as Hin by (eapply list_elem_of_lookup_2; eauto).
  destruct (Hitem item Hin) as (r & Hr & Hsorted).
  exists item, (set_items h rest), r.
  split; [rewrite heap_Pop_items, Hc, Hd, Hpop; reflexivity|].
  split; [exact Hr|].
  assert (NoDup (fileIndex item :: map fileIndex rest)) as Hnd'.
  { change (NoDup (map fileIndex (item :: rest))). now rewrite <- Hperm. }
  apply NoDup_cons in Hnd' as [Hfresh Hnd'].
  assert (Forall known rest) as Hknown'.
  { rewrite Hperm in Hknown. now apply Forall_cons in Hknown as [_ ?]. }
  assert (forall x, x ∈ rest -> x ∈ items h) as Hsub.
  { intros x Hx. rewrite Hperm. now right. }
  assert (forall i, i <> fileIndex item -> i ∉ map fileIndex rest ->
                    i ∉ map fileIndex (items h)) as Hother.
  { intros i Hi Hnot. rewrite Hperm. cbn [map]. intros Hmem.
    apply elem_of_cons in Hmem as [?|?]; auto. }
  destruct r as [|[record|msg] r']; cbn [csv.Read].
  - (* the run is exhausted *)
    cbv zeta. rewrite (list_insert_id readers _ [] Hr).
    assert (pending readers h ≡ₚ item_row item :: pending readers (set_items h rest)) as Hp.
    { unfold pending. cbn [items set_items]. now rewrite Hperm. }
    split; [|split; [exact Hp|]].
    + unfold merging. cbn [items set_items mh_columnIndex mh_desc].
      split; [exact Hc|]. split; [exact Hd|]. split; [exact Hord'|].
      split; [exact Hnd'|]. split; [exact Hrec|].
      split; [intros x Hx; apply Hitem; now apply Hsub|].
      split.
      { intros i r0 Hi Hnot.
        destruct (decide (i = fileIndex item)) as [->|Hne'].
        { rewrite Hr in Hi. now injection Hi. }
        apply (Hex i r0 Hi). now apply Hother. }
      rewrite Hp in Hrows. now apply Forall_cons in Hrows as [_ ?].
    + rewrite Hp in Hleast. now apply Forall_cons in Hleast as [_ ?].
  - (* the run has a next row *)
    cbv zeta. rewrite heap_Push_items. cbn [items set_items mh_columnIndex mh_desc].
    rewrite Hc, Hd.
    set (new := mkHeapItem (recordToRow sch record) (fileIndex item)).
    set (readers' := <[fileIndex item := r']> readers).
    assert (pending readers h
            ≡ₚ item_row item
               :: pending readers' (set_items h (heap_facts.lpush ilt rest new))) as Hp.
    { unfold pending. cbn [items set_items].
      rewrite heap_facts.lpush_Permutation, Hperm. cbn [map item_row new].
      rewrite (concat_delete_reader readers _ _ Hr).
      unfold readers'. rewrite (concat_insert_reader readers _ _ r' Hr).
      cbn [reader_rows app].
      apply perm_skip. symmetry. apply Permutation_middle. }
    assert (known new) as Hknew.
    { rewrite Hp in Hrows. apply Forall_cons in Hrows as [_ Hrows'].
      rewrite Forall_forall in Hrows'. apply Hrows'. unfold pending. cbn [items set_items].
      apply elem_of_app. left. apply list_elem_of_fmap. exists new. split; [reflexivity|].
      rewrite heap_facts.lpush_Permutation. now left. }
    split; [|split; [exact Hp|]].
    + unfold merging. cbn [items set_items mh_columnIndex mh_desc].
      split; [exact Hc|]. split; [exact Hd|].
      split; [now apply (heap_facts.lpush_ordered ilt known ilt_irrefl ilt_trans ilt_negtrans)|].
      split; [rewrite heap_facts.lpush_Permutation; cbn [map new fileIndex];
              apply NoDup_cons; now split|].
      split.
      { unfold readers'. apply Forall_insert; [exact Hrec|].
        rewrite Forall_forall in Hrec. 
        assert (Forall is_record (csv.Record record :: r')) as Hr0.
        { apply Hrec. eapply list_elem_of_lookup_2; eauto. }
        now apply Forall_cons in Hr0 as [_ ?]. }
      split.
      { intros x Hx. rewrite heap_facts.lpush_Permutation in Hx.
        apply elem_of_cons in Hx as [->|Hx].
        - exists r'. split.
          + unfold readers'. cbn [new fileIndex].
            apply list_lookup_insert_eq. eapply lookup_lt_Some; eauto.
          + cbn [new item_row]. cbn [reader_rows] in Hsorted.
            now apply StronglySorted_inv in Hsorted as [? _].
        - destruct (Hitem x (Hsub x Hx)) as (rx & Hrx & Hsx). exists rx. split; [|exact Hsx].
          unfold readers'. rewrite list_lookup_insert_ne; [exact Hrx|].
          intros E. apply Hfresh. rewrite E. apply list_elem_of_fmap. eauto. }
      split.
      { intros i r0 Hi Hnot. rewrite heap_facts.lpush_Permutation in Hnot.
        cbn [map new fileIndex] in Hnot.
        apply not_elem_of_cons in Hnot as [Hne' Hnot].
        unfold readers' in Hi. rewrite list_lookup_insert_ne in Hi by congruence.
        apply (Hex i r0 Hi). now apply Hother. }
      rewrite Hp in Hrows. now apply Forall_cons in Hrows as [_ ?].
    + rewrite Hp in Hleast. now apply Forall_cons in Hleast as [_ ?].
  - (* no read of a run file fails *)
    rewrite Forall_forall in Hrec.
    assert (Forall is_record (csv.ReadError msg :: r')) as Hr0.
    { apply Hrec. eapply list_elem_of_lookup_2; eauto. }
    now apply Forall_cons in Hr0 as [? _].
Qed.

(** A prepared operator in the middle of its merge. *)
Definition merge_state (s : SortOp) (h : mergeHeap) : Prop :=
  prepared s = true /\ exhausted s = false /\ schema s = sch
  /\ mergeHeap_ s = Some h /\ merging (readers s) h.

Lemma SortOp_Next_prepared (s : SortOp) :
  prepared s = true -> SortOp_Next s = mergeNext s.
Proof. intros Hp. unfold SortOp_Next, prepare. now rewrite Hp. Qed.

Lemma pending_empty_heap (readers : list csv.Reader) (h : mergeHeap) :
  merging readers h -> items h = [] -> pending readers h = [].
Proof.
  intros (_ & _ & _ & _ & _ & _ & Hex & _) Hitems. unfold pending. rewrite Hitems. cbn.
  rewrite Hitems in Hex. clear Hitems.
  induction readers as [|r readers IH]; [reflexivity|]. cbn.
  rewrite (Hex 0%nat r eq_refl) by apply not_elem_of_nil. cbn.
  apply IH. intros i r0 Hi _. apply (Hex (S i) r0 Hi). apply not_elem_of_nil.
Qed.

Lemma ordered_cons (row : Row) (out pend : list Row) :
  ordered lt out -> pend ≡ₚ out ->
  Forall (fun x => lt x row = false) pend -> ordered lt (row :: out).
Proof.
  intros Ho Hp Hall. constructor; [exact Ho|].
  rewrite Hp in Hall. apply List.Forall_forall. intros x Hx.
  rewrite Forall_forall in Hall. apply Hall. now apply list_elem_of_In.
Qed.

(** Draining a merge under way returns its pending rows, in order. *)
Lemma drain_merging (n : nat) :
  forall (s : SortOp) (h : mergeHeap),
    merge_state s h -> length (pending (readers s) h) = n ->
    exists out, (forall fuel, (n < fuel)%nat -> drain fuel s = Some out)
                /\ pending (readers s) h ≡ₚ out /\ ordered lt out.
Proof.
  induction n as [|n IH]; intros s h (Hprep & Hexh & Hsch & Hh & Hm) Hlen.
  - exists []. apply nil_length_inv in Hlen. rewrite Hlen.
    split; [|split; [reflexivity | constructor]].
    intros [|fuel] Hfuel; [lia|]. cbn [drain].
    rewrite (SortOp_Next_prepared s Hprep). unfold mergeNext. rewrite Hexh, Hh.
    destruct (items h) as [|item rest] eqn:Hitems.
    + unfold Len. now rewrite Hitems.
    + unfold pending in Hlen. now rewrite Hitems in Hlen.
  - assert (items h <> []) as Hne.
    { intros E. rewrite (pending_empty_heap _ _ Hm E) in Hlen. discriminate. }
    destruct (merge_step (readers s) h Hm Hne) as (item & h1 & r & Hpop & Hr & Hstep).
    assert (SortOp_Next s
            = let '(res, reader') := csv.Read r in
              let readers' := <[fileIndex item := reader']> (readers s) in
              match res with
              | csv.EOF => (Ok (Some (item_row item)), set_merge s readers' h1)
              | csv.Failed _ => (Err "error reading during merge", set_merge s readers' h1)
              | csv.GotRecord record =>
                  (Ok (Some (item_row item)),
                   set_merge s readers'
                     (heap_Push h1 (mkHeapItem (recordToRow (schema s) record)
                                               (fileIndex item))))
              end) as Hnext.
    { rewrite (SortOp_Next_prepared s Hprep). unfold mergeNext. rewrite Hexh, Hh.
      destruct (Len h =? 0)%nat eqn:E.
      - apply Nat.eqb_eq in E. unfold Len in E. now apply nil_length_inv in E.
      - rewrite Hpop, Hr. reflexivity. }
    destruct (csv.Read r) as [[record|msg|] reader']; [| contradiction |].
    + destruct Hstep as (Hm' & Hperm & Hleast). cbv zeta in *. rewrite Hsch in Hnext.
      set (s' := set_merge s _ _) in Hnext.
      destruct (IH s' _ (conj Hprep (conj Hexh (conj Hsch (conj eq_refl Hm')))))
        as (out & Hdrain & Hout & Hord).
      { apply Permutation_length in Hperm. rewrite Hlen in Hperm. cbn [length] in Hperm.
        injection Hperm as Hperm. subst s'. cbn [set_merge readers]. now symmetry. }
      exists (item_row item :: out). split; [|split].
      * intros [|fuel] Hfuel; [lia|]. cbn [drain]. rewrite Hnext.
        rewrite Hdrain by lia. reflexivity.
      * rewrite Hperm. now apply perm_skip.
      * eapply ordered_cons; eauto.
    + destruct Hstep as (Hm' & Hperm & Hleast). cbv zeta in *.
      set (s' := set_merge s _ _) in Hnext.
      destruct (IH s' _ (conj Hprep (conj Hexh (conj Hsch (conj eq_refl Hm')))))
        as (out & Hdrain & Hout & Hord).
      { apply Permutation_length in Hperm. rewrite Hlen in Hperm. cbn [length] in Hperm.
        injection Hperm as Hperm. subst s'. cbn [set_merge readers]. now symmetry. }
      exists (item_row item :: out). split; [|split].
      * intros [|fuel] Hfuel; [lia|]. cbn [drain]. rewrite Hnext.
        rewrite Hdrain by lia. reflexivity.
      * rewrite Hperm. now apply perm_skip.
      * eapply ordered_cons; eauto.
Qed.

(** *** The partition writes sorted runs *)

(** The records of the run file written for a chunk. *)
Definition run (chunk : list Row) : list (list string) :=
  map rowToRecord (sort_Slice lt chunk).

Lemma fillChunks_rows (size : Z) (l : list Row) :
  forall (chunk : list Row) (files : list (list (list string))),
  exists chunks chunk',
    fillChunks col dsc size (map PullRow l) chunk files
    = (Ok chunk', (files ++ map run chunks)%list, [])
    /\ (concat chunks ++ chunk' = chunk ++ l)%list
    /\ Forall (fun c => c <> []) chunks.
Proof.
  induction l as [|row l IH]; intros chunk files.
  - exists [], chunk. cbn. rewrite !app_nil_r. auto.
  - cbn [map fillChunks]. destruct (len (chunk ++ [row]) >=? size).
    + destruct (IH [] (flushChunk col dsc (chunk ++ [row]) files)) as (cs & c' & -> & Hcat & Hne).
      exists ((chunk ++ [row]) :: cs)%list, c'. unfold flushChunk. cbn [map concat].
      rewrite <- !app_assoc. cbn [app]. split; [reflexivity|]. split.
      * rewrite Hcat. reflexivity.
      * apply Forall_cons. split; [now destruct chunk | exact Hne].
    + destruct (IH (chunk ++ [row])%list files) as (cs & c' & -> & Hcat & Hne).
      exists cs, c'. split; [reflexivity|]. split; [|exact Hne].
      rewrite Hcat, <- app_assoc. reflexivity.
Qed.

(** What a reader returns over the records of the rows [l]. *)
Definition read_back (l : list Row) : csv.Reader :=
  map (fun record => csv.Record (map csv.dropCR record)) (map rowToRecord l).

Lemma readFrom_rows (l : list Row) (n : nat) :
  Forall (fun row => row ∈ rows) l -> n = 0%nat \/ n = width ->
  csv.readFrom n (map rowToRecord l) = read_back l.
Proof.
  intros Hl Hn. apply (csv_facts.readFrom_same_width width); [|exact Hn].
  apply Forall_fmap. eapply Forall_impl; [exact Hl|]. cbn. intros row Hrow.
  rewrite Forall_forall in come_back. destruct (come_back row Hrow) as (Hw & Hline & _).
  split; [exact Hline|]. unfold rowToRecord. now rewrite length_map.
Qed.

Lemma reader_rows_records (l : list Row) :
  Forall (fun row => row ∈ rows) l -> reader_rows (read_back l) = l.
Proof.
  unfold read_back. induction l as [|row l IH]; intros Hl; [reflexivity|].
  apply Forall_cons in Hl as [Hrow Hl]. cbn [map reader_rows].
  rewrite IH by exact Hl. f_equal.
  rewrite Forall_forall in come_back. now apply come_back.
Qed.

Lemma records_are_records (l : list Row) : Forall is_record (read_back l).
Proof. unfold read_back. induction l; constructor; [exact I | assumption]. Qed.

Lemma strict_weak_sub {A} (less : A -> A -> bool) (l l' : list A) :
  (forall x, x ∈ l' -> x ∈ l) -> strict_weak less l -> strict_weak less l'.
Proof.
  intros Hsub (Hi & Ht & Hn). repeat split.
  - intros a Ha. apply Hi. auto.
  - intros a b c Ha Hb Hc. apply Ht; auto.
  - intros a b c Ha Hb Hc. apply Hn; auto.
Qed.

(** Opening the runs of the chunks [cs] adds their rows to the merge. *)
Lemma openRuns_merging (cs : list (list Row)) :
  forall (readers : list csv.Reader) (h : mergeHeap),
    Forall (fun c => c <> [] /\ Forall (fun row => row ∈ rows) c) cs ->
    merging readers h ->
    Forall (fun item => (fileIndex item < length readers)%nat) (items h) ->
    exists readers' h',
      openRuns sch (length readers) (map run cs) readers h = (None, readers', h')
      /\ merging readers' h'
      /\ pending readers' h' ≡ₚ (pending readers h ++ concat cs)%list.
Proof.
  induction cs as [|c cs IH]; intros readers h Hcs Hm Hb.
  - exists readers, h. cbn. rewrite app_nil_r. auto.
  - apply Forall_cons in Hcs as [[Hne Hc] Hcs]. cbn [map openRuns].
    pose proof (sort_Slice_Permutation lt c) as Hperm.
    assert (ordered lt (sort_Slice lt c)) as Hsorted.
    { apply sort_Slice_ordered. apply (strict_weak_sub _ rows); [|exact weak_order].
      rewrite Forall_forall in Hc. exact Hc. }
    unfold run at 1.
    destruct (sort_Slice lt c) as [|first rest] eqn:Hs.
    { apply Permutation_nil_r in Hperm. contradiction. }
    assert (Forall (fun row => row ∈ rows) (first :: rest)) as Hin by (now rewrite <- Hperm).
    pose proof Hin as Hin'. apply Forall_cons in Hin' as [Hfirst Hrest].
    unfold csv.NewReader. rewrite (readFrom_rows (first :: rest) 0 Hin) by now left.
    unfold read_back. cbn [map csv.Read]. fold (read_back rest).
    assert (recordToRow sch (map csv.dropCR (rowToRecord first)) = first) as ->.
    { rewrite Forall_forall in come_back. now apply come_back. }
    set (new := mkHeapItem first (length readers)).
    set (reader := read_back rest).
    pose proof (merging_known _ _ Hm) as Hknown.
    destruct Hm as (Hcol & Hdsc & Hord & Hnd & Hrec & Hitem & Hex & Hrows).
    assert (pending (readers ++ [reader]) (heap_Push h new)
            ≡ₚ (pending readers h ++ c)%list) as Hp.
    { unfold pending. rewrite heap_Push_items. cbn [items set_items].
      rewrite heap_facts.lpush_Permutation. cbn [map item_row new].
      rewrite map_app, concat_app. cbn [map concat]. rewrite app_nil_r.
      unfold reader. rewrite (reader_rows_records rest Hrest).
      rewrite Hperm, !app_assoc. apply Permutation_middle. }
    assert (Forall (fun row => row ∈ rows) (pending (readers ++ [reader]) (heap_Push h new)))
      as HF by (rewrite Hp; apply Forall_app; split; [exact Hrows | exact Hc]).
    destruct (IH (readers ++ [reader])%list (heap_Push h new) Hcs) as (readers' & h' & Hopen & Hm' & Hp').
    + unfold merging.
      refine (conj _ (conj _ (conj _ (conj _ (conj _ (conj _ (conj _ HF)))))));
        rewrite ?heap_Push_items; cbn [items set_items mh_columnIndex mh_desc].
      * exact Hcol.
      * exact Hdsc.
      * rewrite Hcol, Hdsc.
        now apply (heap_facts.lpush_ordered ilt known ilt_irrefl ilt_trans ilt_negtrans).
      * rewrite heap_facts.lpush_Permutation. cbn [map new fileIndex].
        apply NoDup_cons. split; [|exact Hnd].
        intros Hmem. apply list_elem_of_fmap in Hmem as (y & Hy & Hmem).
        rewrite Forall_forall in Hb. apply Hb in Hmem. lia.
      * apply Forall_app. split; [exact Hrec|]. apply Forall_singleton.
        apply records_are_records.
      * intros x Hx. rewrite heap_facts.lpush_Permutation in Hx.
        apply elem_of_cons in Hx as [->|Hx].
        -- exists reader. split.
           ++ cbn [new fileIndex]. rewrite lookup_app_r by lia.
              now rewrite Nat.sub_diag.
           ++ cbn [new item_row]. unfold reader. now rewrite (reader_rows_records rest Hrest).
        -- destruct (Hitem x Hx) as (rx & Hrx & Hsx). exists rx. split; [|exact Hsx].
           rewrite lookup_app_l; [exact Hrx|]. eapply lookup_lt_Some; eauto.
      * intros i r0 Hi Hnot. rewrite heap_facts.lpush_Permutation in Hnot.
        cbn [map new fileIndex] in Hnot. apply not_elem_of_cons in Hnot as [Hne' Hnot].
        assert (i < length readers)%nat as Hlt.
        { apply lookup_lt_Some in Hi. rewrite length_app in Hi. cbn in Hi. lia. }
        rewrite lookup_app_l in Hi by exact Hlt. now apply (Hex i).
    + rewrite heap_Push_items. cbn [items set_items].
      rewrite heap_facts.lpush_Permutation. apply Forall_cons. split.
      * cbn [new fileIndex]. rewrite length_app. cbn. lia.
      * eapply Forall_impl; [exact Hb|]. cbn. intros x Hx. rewrite length_app. cbn. lia.
    + exists readers', h'.
      replace (length (readers ++ [reader])) with (S (length readers)) in Hopen
        by (rewrite length_app; cbn; lia).
      split; [exact Hopen|]. split; [exact Hm'|].
      rewrite Hp', Hp. cbn [concat]. now rewrite <- app_assoc.
Qed.

Lemma merging_start : merging [] (mkMergeHeap [] col dsc).
Proof.
  unfold merging. cbn [items mh_columnIndex mh_desc map].
  split; [reflexivity|]. split; [reflexivity|].
  split; [intros c x p Hc Hx; now rewrite lookup_nil in Hx|].
  split; [constructor|]. split; [constructor|].
  split; [intros item Hitem; now apply elem_of_nil in Hitem|].
  split; [intros i r Hi; now rewrite lookup_nil in Hi|].
  constructor.
Qed.

(** [prepare] over an upstream that yields [rows] and then ends:
    every row is in a run or in the heap, and the merge is under
    way. *)
Lemma prepare_rows (size : Z) :
  0 <= size -> rows <> [] ->
  exists s1 h,
    prepare (NewSortOpWithChunkSize (map PullRow rows) sch col dsc size) = (None, s1)
    /\ merge_state s1 h /\ pending (readers s1) h ≡ₚ rows.
Proof.
  intros Hsize Hrows. unfold prepare, NewSortOpWithChunkSize.
  cbn [prepared input columnIndex desc chunkSize tempFiles schema readers mergeHeap_ exhausted].
  replace (size <? 0) with false by (symmetry; now apply Z.ltb_ge).
  destruct (fillChunks_rows size rows [] []) as (cs & c' & -> & Hcat & Hne).
  cbn [app] in Hcat |- *.
  assert (exists cs', (if 0 <? len c' then flushChunk col dsc c' (map run cs) else map run cs)
                      = map run cs'
                      /\ concat cs' = rows /\ Forall (fun c => c <> []) cs')
    as (cs' & -> & Hcat' & Hne').
  { destruct c' as [|row c'].
    - exists cs. rewrite app_nil_r in Hcat. now cbn.
    - exists (cs ++ [row :: c'])%list.
      replace (0 <? len (row :: c')) with true
        by (symmetry; apply Z.ltb_lt; unfold len; cbn [length]; lia).
      unfold flushChunk. rewrite map_app, concat_app. cbn [map concat].
      rewrite app_nil_r. split; [reflexivity|]. split; [exact Hcat|].
      apply Forall_app. split; [exact Hne|]. now apply Forall_singleton. }
  clear Hcat Hne cs c'.
  assert (Forall (fun c => c <> [] /\ Forall (fun row => row ∈ rows) c) cs') as Hcs.
  { rewrite Forall_forall in Hne'. apply Forall_forall. intros c Hc.
    split; [now apply Hne'|]. apply Forall_forall. intros row Hrow.
    rewrite <- Hcat'. apply list_elem_of_In, in_concat. exists c.
    split; now apply list_elem_of_In. }
  destruct (openRuns_merging cs' [] (mkMergeHeap [] col dsc) Hcs merging_start)
    as (readers' & h' & Hopen & Hm & Hp); [constructor|].
  cbn [length] in Hopen.
  unfold setupMerge.
  cbn [prepared input columnIndex desc chunkSize tempFiles schema readers mergeHeap_ exhausted].
  destruct cs' as [|c0 cs0]; [cbn in Hcat'; now symmetry in Hcat'|].
  rewrite heap_Init_empty, Hopen.
  cbn [map length Nat.eqb prepared input columnIndex desc chunkSize tempFiles schema readers
       mergeHeap_ exhausted].
  eexists _, h'. split; [reflexivity|]. split.
  - unfold merge_state.
    cbn [prepared input columnIndex desc chunkSize tempFiles schema readers mergeHeap_ exhausted].
    auto.
  - cbn [readers]. rewrite Hp, Hcat'. reflexivity.
Qed.

(** X29. Take rows that come back unchanged from a run file and
    on which the comparison of the sort column is a strict weak
    order. Over an upstream that yields these rows and then ends, for
    every chunk size that is not negative, the calls of [Next] return
    a sequence [out] and then the end of the stream; [out] has the
    rows of the in-memory sort of the whole input by the same
    comparison, it is in order, and it agrees with the in-memory sort
    rank by rank. *)
Theorem SortOp_agrees_with_in_memory_sort (size : Z) :
  0 <= size ->
  exists out,
    (forall fuel, (length rows < fuel)%nat ->
       drain fuel (NewSortOpWithChunkSize (map PullRow rows) sch col dsc size) = Some out)
    /\ out ≡ₚ sort_Slice lt rows
    /\ ordered lt out
    /\ Forall2 (same_rank lt) out (sort_Slice lt rows).
Proof.
  intros Hsize. destruct (nil_or_not rows) as [E|E].
  - exists []. rewrite E.
    assert (sort_Slice lt [] = []) as ->
      by (apply Permutation.Permutation_nil, sort_Slice_Permutation).
    split; [|split; [reflexivity | split; constructor]].
    intros [|fuel] Hfuel; [cbn in Hfuel; lia|].
    cbn [drain map]. unfold SortOp_Next, prepare, NewSortOpWithChunkSize.
    cbn [prepared chunkSize].
    replace (size <? 0) with false by (symmetry; now apply Z.ltb_ge).
    reflexivity.
  - destruct (prepare_rows size Hsize E) as (s1 & h & Hprep & Hms & Hpend).
    destruct (drain_merging _ s1 h Hms eq_refl) as (out & Hdrain & Hout & Hord).
    assert (out ≡ₚ rows) as Hperm by (now rewrite <- Hout).
    exists out. split; [|split; [|split]].
    + intros [|fuel] Hfuel; [lia|].
      rewrite <- (Hdrain (S fuel))
        by (rewrite (Permutation_length Hpend); exact Hfuel).
      cbn [drain]. unfold SortOp_Next at 1. rewrite Hprep.
      destruct Hms as (Hp & _). now rewrite (SortOp_Next_prepared s1 Hp).
    + rewrite Hperm. apply sort_Slice_Permutation.
    + exact Hord.
    + apply (ordered_same_rank lt rows weak_order).
      * rewrite Hperm. apply sort_Slice_Permutation.
      * intros x Hx. now rewrite <- Hperm.
      * exact Hord.
      * now apply sort_Slice_ordered.
Qed.

End merging.

(** *** The insertion sort of the sort package *)

Section insertion.
Context {A : Type} (less : A -> A -> bool).

Lemma insertBack_Permutation (x : A) (before : list A) :
  insertBack less x before ≡ₚ x :: before.
Proof.
  induction before as [|y before IH]; [reflexivity|]. cbn [insertBack].
  destruct (less x y); [|reflexivity].
  rewrite IH. apply perm_swap.
Qed.

Lemma insertionSort_Permutation (data : list A) : data ≡ₚ insertionSort less data.
Proof.
  unfold insertionSort. rewrite <- Permutation_rev.
  change data with (rev [] ++ data)%list at 1. generalize (@nil A) as before.
  induction data as [|x data IH]; intros before; cbn [fold_left].
  - rewrite app_nil_r. symmetry. apply Permutation_rev.
  - rewrite <- IH, insertBack_Permutation. cbn [rev].
    now rewrite <- app_assoc.
Qed.

Lemma ordered_snoc (R : A -> A -> Prop) (l : list A) (a : A) :
  StronglySorted R l -> Forall (fun x => R x a) l -> StronglySorted R (l ++ [a]).
Proof.
  induction 1 as [|y l Hl IH Hy]; intros Ha; cbn [app].
  - repeat constructor.
  - apply Forall_cons in Ha as [Hya Ha]. constructor; [now apply IH|].
    apply Forall_app. split; [exact Hy|]. now constructor.
Qed.

Lemma ordered_rev (l : list A) :
  StronglySorted (fun a b => less a b = false) l -> ordered less (rev l).
Proof.
  induction 1 as [|a l Hl IH Ha]; [constructor|]. cbn [rev].
  apply ordered_snoc; [exact IH|]. apply Forall_forall. intros x Hx.
  rewrite Forall_forall in Ha. apply Ha.
  apply list_elem_of_In, in_rev. now apply list_elem_of_In.
Qed.

Context (u : list A) (weak : strict_weak less u).

Lemma insertBack_ordered (x : A) (before : list A) :
  x ∈ u -> Forall (fun y => y ∈ u) before ->
  StronglySorted (fun a b => less a b = false) before ->
  StronglySorted (fun a b => less a b = false) (insertBack less x before).
Proof.
  intros Hx Hu Hs. induction Hs as [|y before Hs IH Hy]; cbn [insertBack].
  - repeat constructor.
  - apply Forall_cons in Hu as [Hyu Hu].
    destruct weak as (Hi & Ht & Hn).
    destruct (less x y) eqn:E.
    + constructor; [now apply IH|].
      rewrite insertBack_Permutation. constructor; [|exact Hy].
      destruct (less y x) eqn:E'; [|reflexivity].
      rewrite <- (Hi x Hx). symmetry. now apply (Ht x y x).
    + constructor; [now constructor|]. constructor; [exact E|].
      rewrite Forall_forall in Hy, Hu. apply Forall_forall. intros z Hz.
      apply (Hn x y z); auto.
Qed.

Lemma insertionSort_ordered (data : list A) :
  Forall (fun y => y ∈ u) data -> ordered less (insertionSort less data).
Proof.
  intros Hdata. unfold insertionSort. apply ordered_rev.
  assert (StronglySorted (fun a b => less a b = false) (@nil A)) as Hs by constructor.
  assert (Forall (fun y => y ∈ u) (@nil A)) as Hu by constructor.
  revert Hs Hu. generalize (@nil A) as before.
  induction Hdata as [|x data Hx Hdata IH]; intros before Hs Hu; cbn [fold_left];
    [exact Hs|].
  apply IH.
  - now apply insertBack_ordered.
  - rewrite insertBack_Permutation. now constructor.
Qed.

End insertion.

(** [sort.Slice] on slices short enough to be sorted by insertion. *)
Definition insertion_sorter : SliceSorter := {|
  sort_Slice := insertionSort;
  sort_Slice_Permutation := insertionSort_Permutation;
  sort_Slice_ordered := fun less l weak =>
    insertionSort_ordered less l weak l (proj2 (Forall_forall _ l) (fun x Hx => Hx))
|}.

(** *** Sorting on concrete rows *)

(** A check of [strict_weak] that runs. *)
Definition strict_weakb {A} (less : A -> A -> bool) (l : list A) : bool :=
  forallb (fun a => negb (less a a)) l
  && forallb (fun a => forallb (fun b => forallb (fun c =>
       implb (less a b && less b c) (less a c)
       && implb (negb (less a b) && negb (less b c)) (negb (less a c))) l) l) l.

Lemma strict_weakb_sound {A} (less : A -> A -> bool) (l : list A) :
  strict_weakb less l = true -> strict_weak less l.
Proof.
  unfold strict_weakb. intros Hb. apply andb_prop in Hb as [Hirr Hall].
  rewrite forallb_forall in Hirr.
  assert (forall a b c, a ∈ l -> b ∈ l -> c ∈ l ->
            implb (less a b && less b c) (less a c)
            && implb (negb (less a b) && negb (less b c)) (negb (less a c)) = true) as Hc.
  { intros a b c Ha%list_elem_of_In Hb%list_elem_of_In Hc%list_elem_of_In.
    rewrite forallb_forall in Hall. specialize (Hall a Ha).
    rewrite forallb_forall in Hall. specialize (Hall b Hb).
    rewrite forallb_forall in Hall. exact (Hall c Hc). }
  split; [|split].
  - intros a Ha%list_elem_of_In. apply negb_true_iff. now apply Hirr.
  - intros a b c Ha Hb0 Hc0 Hab Hbc. specialize (Hc a b c Ha Hb0 Hc0).
    rewrite Hab, Hbc in Hc. cbn in Hc. now destruct (less a c).
  - intros a b c Ha Hb0 Hc0 Hab Hbc. specialize (Hc a b c Ha Hb0 Hc0).
    rewrite Hab, Hbc in Hc. cbn in Hc. now destruct (less a c).
Qed.

#[local] Existing Instance sample.platform.
#[local] Existing Instance insertion_sorter.

(** C1, the failing input. A null does not come back from a run
    file: [rowToRecord] writes it as the text that [%v] prints and
    [recordToRow] parses this text at the type of the column. The
    row that Min gives over no numeric value holds a null in a Float
    column; the sort returns 0.0 in its place, which the in-memory
    sort does not. *)
Lemma SortOp_loses_null :
  drain 2 (NewSortOpWithChunkSize [PullRow (mkRow [VNil])]
             (mkSchema ["min_0"] [types.Float]) 0 false 1)
  = Some [mkRow [VFloat 0%float]]
  /\ sort_Slice (rowLess 0 false) [mkRow [VNil]] = [mkRow [VNil]]
  /\ ~ ([mkRow [VFloat 0%float]] ≡ₚ [mkRow [VNil]]).
Proof.
  split; [vm_compute; reflexivity|]. split; [reflexivity|].
  intros Hp. apply Permutation_singleton_l in Hp. discriminate.
Qed.

(** A row whose only value is the empty string does not come back
    either: its record is written as an empty line, which the reader
    skips, and the sort returns one row of two. *)
Example SortOp_loses_empty_row :
  drain 3 (NewSortOpWithChunkSize
             [PullRow (mkRow [VString ""]); PullRow (mkRow [VString "b"])]
             (mkSchema ["name"] [types.String]) 0 false 2)
  = Some [mkRow [VString "b"]]
  /\ sort_Slice (rowLess 0 false) [mkRow [VString ""]; mkRow [VString "b"]]
     = [mkRow [VString ""]; mkRow [VString "b"]].
Proof. split; vm_compute; reflexivity. Qed.

(** With a negative chunk size the first [Next] panics, on any
    upstream. *)
Example SortOp_negative_chunk_size :
  fst (SortOp_Next (NewSortOpWithChunkSize [PullRow (mkRow [VInt 1])]
                      (mkSchema ["id"] [types.Int]) 0 false (-1)))
  = Err "panic: runtime error: makeslice: cap out of range".
Proof. reflexivity. Qed.

(** A not-a-number has the rank of every float, so the rows need
    not be in a strict weak order, and the run that holds 2, NaN, 1
    is merged as it is. *)
Example SortOp_nan_out_of_order :
  drain 4 (NewSortOpWithChunkSize
             [PullRow (mkRow [VFloat 2%float]); PullRow (mkRow [VFloat nan]);
              PullRow (mkRow [VFloat 1%float])]
             (mkSchema ["x"] [types.Float]) 0 false 3)
  = Some [mkRow [VFloat 2%float]; mkRow [VFloat nan]; mkRow [VFloat 1%float]]
  /\ rowLess 0 false (mkRow [VFloat 1%float]) (mkRow [VFloat 2%float]) = true.
Proof. split; vm_compute; reflexivity. Qed.

(** Rows (1,10), (2,5), (3,20) sorted on the second column,
    descending, in chunks of two rows. *)
Example SortOp_three_rows :
  drain 4 (NewSortOpWithChunkSize
             [PullRow (mkRow [VInt 1; VInt 10]); PullRow (mkRow [VInt 2; VInt 5]);
              PullRow (mkRow [VInt 3; VInt 20])]
             (mkSchema ["id"; "val"] [types.Int; types.Int]) 1 true 2)
  = Some [mkRow [VInt 3; VInt 20]; mkRow [VInt 1; VInt 10]; mkRow [VInt 2; VInt 5]].
Proof. vm_compute. reflexivity. Qed.

Example SortOp_agrees_with_in_memory_sort_witness :
  exists out,
    (forall fuel, (3 < fuel)%nat ->
       drain fuel (NewSortOpWithChunkSize
                     [PullRow (mkRow [VInt 1; VInt 10]); PullRow (mkRow [VInt 2; VInt 5]);
                      PullRow (mkRow [VInt 3; VInt 20])]
                     (mkSchema ["id"; "val"] [types.Int; types.Int]) 1 true 2) = Some out)
    /\ out ≡ₚ sort_Slice (rowLess 1 true)
                [mkRow [VInt 1; VInt 10]; mkRow [VInt 2; VInt 5]; mkRow [VInt 3; VInt 20]]
    /\ ordered (rowLess 1 true) out
    /\ Forall2 (same_rank (rowLess 1 true)) out
         (sort_Slice (rowLess 1 true)
            [mkRow [VInt 1; VInt 10]; mkRow [VInt 2; VInt 5]; mkRow [VInt 3; VInt 20]]).
Proof.
  apply (SortOp_agrees_with_in_memory_sort
           (mkSchema ["id"; "val"] [types.Int; types.Int]) 1 true
           [mkRow [VInt 1; VInt 10]; mkRow [VInt 2; VInt 5]; mkRow [VInt 3; VInt 20]]
           2%nat).
  - repeat constructor.
  - apply strict_weakb_sound. vm_compute. reflexivity.
  - lia.
Defined.

End sort_facts.

(** ** Lookup of a column by name *)

Module schema_facts.

(** [j] is the first position of [name] in [columns]. *)
Definition first_index (columns : list string) (name : string) (j : nat) : Prop :=
  columns !! j = Some name /\ forall j', (j' < j)%nat -> columns !! j' <> Some name.

Lemma columnIndexFrom_absent (i : Z) (columns : list string) (name : string) :
  name ∉ columns -> types.columnIndexFrom i columns name = -1.
Proof.
  revert i. induction columns as [|col columns IH]; intros i Hout; [reflexivity|].
  cbn [types.columnIndexFrom]. apply not_elem_of_cons in Hout as [Hne Hout].
  destruct (String.eqb_spec col name) as [E|_]; [now subst|]. now apply IH.
Qed.

Lemma columnIndexFrom_present (i : Z) (columns : list string) (name : string) :
  name ∈ columns ->
  exists j, types.columnIndexFrom i columns name = i + Z.of_nat j
            /\ first_index columns name j.
Proof.
  revert i. induction columns as [|col columns IH]; intros i Hin.
  - now apply elem_of_nil in Hin.
  - cbn [types.columnIndexFrom]. destruct (String.eqb_spec col name) as [->|Hne].
    + exists 0%nat. split; [lia|]. split; [reflexivity|]. intros j' Hj'. lia.
    + apply elem_of_cons in Hin as [->|Hin]; [contradiction|].
      destruct (IH (i + 1) Hin) as (j & Hj & Hat & Hfirst).
      exists (S j). split; [lia|]. split; [exact Hat|].
      intros [|j'] Hj'; cbn; [congruence|]. apply Hfirst. lia.
Qed.

(** X1. [ColumnIndex] returns -1 exactly for a name that is not a
    column, and otherwise the position of the first column of that
    name. *)
Theorem ColumnIndex_first (s : Schema) (name : string) :
  (types.ColumnIndex s name = -1 /\ name ∉ Columns s)
  \/ (exists j, types.ColumnIndex s name = Z.of_nat j
                /\ first_index (Columns s) name j).
Proof.
  unfold types.ColumnIndex. destruct (decide (name ∈ Columns s)) as [Hin|Hout].
  - right. destruct (columnIndexFrom_present 0 _ _ Hin) as (j & Hj & Hf).
    exists j. split; [lia | exact Hf].
  - left. split; [now apply columnIndexFrom_absent | exact Hout].
Qed.

End schema_facts.

(** ** Filter chains *)

Module stream_facts.
Import operators.

Lemma stream_end {S : Type} (next : S -> Result (option Row) * S) (fuel : nat) (s s' : S) :
  next s = (Ok None, s') -> stream next (Datatypes.S fuel) s = ([], s').
Proof. intros E. cbn [stream]. now rewrite E. Qed.

Lemma stream_row {S : Type} (next : S -> Result (option Row) * S) (fuel : nat)
      (s s' : S) (row : Row) :
  next s = (Ok (Some row), s') ->
  stream next (Datatypes.S fuel) s
  = (PullRow row :: fst (stream next fuel s'), snd (stream next fuel s')).
Proof. intros E. cbn [stream]. rewrite E. now destruct (stream next fuel s'). Qed.

Lemma stream_err {S : Type} (next : S -> Result (option Row) * S) (fuel : nat)
      (s s' : S) (msg : string) :
  next s = (Err msg, s') ->
  stream next (Datatypes.S fuel) s
  = (PullErr msg :: fst (stream next fuel s'), snd (stream next fuel s')).
Proof. intros E. cbn [stream]. rewrite E. now destruct (stream next fuel s'). Qed.

End stream_facts.

Module filter_stream_facts.
Import operators.

(** The rows of an upstream that pass a predicate, and its errors. *)
Fixpoint passing (predicate : Row -> bool) (input : Input) : Input :=
  match input with
  | [] => []
  | PullErr msg :: input' => PullErr msg :: passing predicate input'
  | PullRow row :: input' =>
      if predicate row then PullRow row :: passing predicate input'
      else passing predicate input'
  end.

Lemma passing_rows (predicate : Row -> bool) (rows : list Row) :
  passing predicate (map PullRow rows) = map PullRow (filter (fun r => predicate r = true) rows).
Proof.
  induction rows as [|row rows IH]; [reflexivity|]. cbn [map passing].
  rewrite filter_cons. destruct (predicate row) eqn:E.
  - rewrite decide_True by reflexivity. cbn [map]. now rewrite IH.
  - rewrite decide_False by discriminate. exact IH.
Qed.

Lemma passing_length (predicate : Row -> bool) (input : Input) :
  (length (passing predicate input) <= length input)%nat.
Proof.
  induction input as [|[row|msg] input IH]; cbn [passing length]; [lia| |lia].
  destruct (predicate row); cbn [length]; lia.
Qed.

(** One call of [Next] is one step along the passing rows. *)
Lemma FilterOp_Next_passing (predicate : Row -> bool) (input : Input) :
  exists input',
    FilterOp_Next predicate input
    = (fst (Input_Next (passing predicate input)), input')
    /\ passing predicate input' = snd (Input_Next (passing predicate input))
    /\ (length input' <= length input)%nat
    /\ (passing predicate input <> [] -> (length input' < length input)%nat).
Proof.
  induction input as [|[row|msg] input IH]; cbn [FilterOp_Next passing].
  - exists []. cbn. repeat split; auto. congruence.
  - destruct (predicate row).
    + exists input. cbn. repeat split; auto; lia.
    + destruct IH as (input' & -> & Hp & Hle & Hlt). exists input'.
      cbn [length]. repeat split; auto. intros Hne. specialize (Hlt Hne). lia.
  - exists input. cbn. repeat split; auto; lia.
Qed.

Lemma FilterOp_stream_passing (predicate : Row -> bool) (fuel : nat) :
  forall input : Input,
    (length input < fuel)%nat ->
    exists input', stream (FilterOp_Next predicate) fuel input
                   = (passing predicate input, input')
                   /\ passing predicate input' = [].
Proof.
  induction fuel as [|fuel IH]; intros input Hfuel; [lia|].
  destruct (FilterOp_Next_passing predicate input) as (input' & Hnext & Hp & Hle & Hlt).
  destruct (passing predicate input) as [|[row|msg] rest] eqn:E; cbn in Hnext, Hp.
  - exists input'. split; [now apply stream_facts.stream_end | exact Hp].
  - assert (length input' < fuel)%nat as Hf by (specialize (Hlt ltac:(discriminate)); lia).
    destruct (IH input' Hf) as (final & Hs & Hfinal).
    exists final. rewrite (stream_facts.stream_row _ _ _ _ _ Hnext), Hs, Hp.
    split; [reflexivity | exact Hfinal].
  - assert (length input' < fuel)%nat as Hf by (specialize (Hlt ltac:(discriminate)); lia).
    destruct (IH input' Hf) as (final & Hs & Hfinal).
    exists final. rewrite (stream_facts.stream_err _ _ _ _ _ Hnext), Hs, Hp.
    split; [reflexivity | exact Hfinal].
Qed.

(** X2. Over an upstream that yields [rows] and then ends, the calls
    of [Next] on a filter return the rows that pass the predicate, in
    the order of the upstream, and then the end of the stream. *)
Theorem FilterOp_returns_passing_rows (predicate : Row -> bool) (rows : list Row)
        (extra : nat) :
  fst (stream (FilterOp_Next predicate) (S (length rows) + extra) (map PullRow rows))
  = map PullRow (filter (fun row => predicate row = true) rows).
Proof.
  destruct (FilterOp_stream_passing predicate (S (length rows) + extra) (map PullRow rows))
    as (input' & -> & _); [rewrite length_map; lia|].
  apply passing_rows.
Qed.

(** The filters that [ParseAndPlan] stacks for the conjuncts of a
    WHERE clause, innermost first, each consuming the one below. *)
Definition filterChain (predicates : list (Row -> bool)) (fuel : nat) (input : Input)
  : Input :=
  fold_left (fun upstream predicate => fst (stream (FilterOp_Next predicate) fuel upstream))
            predicates input.

Lemma passing_true (input : Input) : passing (fun _ => true) input = input.
Proof. induction input as [|[row|msg] input IH]; cbn; now rewrite ?IH. Qed.

Lemma passing_and (p q : Row -> bool) (input : Input) :
  passing q (passing p input) = passing (fun row => p row && q row) input.
Proof.
  induction input as [|[row|msg] input IH]; cbn [passing]; [reflexivity| |now rewrite IH].
  destruct (p row); cbn [passing andb]; [|exact IH].
  destruct (q row); now rewrite IH.
Qed.

Lemma passing_ext (p q : Row -> bool) (input : Input) :
  (forall row, p row = q row) -> passing p input = passing q input.
Proof.
  intros E. induction input as [|[row|msg] input IH]; cbn [passing]; [reflexivity| |now rewrite IH].
  rewrite E, IH. reflexivity.
Qed.

Lemma filterChain_passing (predicates : list (Row -> bool)) (fuel : nat) :
  forall (seen : Row -> bool) (input : Input),
    (length input < fuel)%nat ->
    filterChain predicates fuel (passing seen input)
    = passing (fun row => seen row && AndPredicate predicates row) input.
Proof.
  induction predicates as [|p predicates IH]; intros seen input Hfuel;
    cbn [filterChain fold_left].
  - apply passing_ext. intros row. cbn. now rewrite andb_true_r.
  - destruct (FilterOp_stream_passing p fuel (passing seen input)) as (input' & -> & _).
    { pose proof (passing_length seen input). lia. }
    cbn [fst]. rewrite passing_and.
    change (fold_left _ predicates ?u) with (filterChain predicates fuel u).
    rewrite (IH (fun row => seen row && p row) input Hfuel).
    apply passing_ext. intros row. cbn. now rewrite andb_assoc.
Qed.

(** X3. A stack of filters, one per predicate, returns what a single
    filter on [AndPredicate] of the predicates returns: the same rows
    and the same upstream errors, in the same order. *)
Theorem filterChain_is_AndPredicate (predicates : list (Row -> bool)) (input : Input)
        (extra : nat) :
  filterChain predicates (S (length input) + extra) input
  = fst (stream (FilterOp_Next (AndPredicate predicates)) (S (length input) + extra) input).
Proof.
  destruct (FilterOp_stream_passing (AndPredicate predicates)
              (S (length input) + extra) input) as (input' & -> & _); [lia|].
  rewrite <- (passing_true input) at 2.
  rewrite filterChain_passing by lia. apply passing_ext. reflexivity.
Qed.

End filter_stream_facts.

(** ** Limit *)

Module limit_facts.
Import operators.

(** The skip loop over rows: it stops after [offset - skipped] rows,
    or returns the end of the stream when the upstream ends first. *)
Lemma skipRows_rows (offset : Z) (rows : list Row) :
  forall skipped : Z,
    0 <= skipped -> skipped + Z.of_nat (length rows) < 2 ^ 63 ->
    let k := Z.to_nat (offset - skipped) in
    skipRows offset skipped (map PullRow rows)
    = if (k <=? length rows)%nat
      then (None, skipped + Z.of_nat k, map PullRow (drop k rows))
      else (Some (Ok None), skipped + Z.of_nat (length rows), []).
Proof.
  induction rows as [|row rows IH]; intros skipped Hs Hlen k; subst k.
  - cbn [map skipRows length drop]. destruct (Z.ltb_spec skipped offset).
    + replace (Z.to_nat (offset - skipped) <=? 0)%nat with false
        by (symmetry; apply Nat.leb_gt; lia).
      f_equal. f_equal. lia.
    + replace (Z.to_nat (offset - skipped)) with 0%nat by lia.
      cbn. f_equal. f_equal. lia.
  - cbn [map skipRows length] in *. destruct (Z.ltb_spec skipped offset).
    + rewrite aggregate_facts.wrap64_small by lia.
      rewrite IH by lia.
      replace (Z.to_nat (offset - skipped)) with (S (Z.to_nat (offset - (skipped + 1))))
        by lia.
      cbn [Nat.leb drop].
      destruct (Z.to_nat (offset - (skipped + 1)) <=? length rows)%nat;
        f_equal; f_equal; lia.
    + replace (Z.to_nat (offset - skipped)) with 0%nat by lia.
      cbn. f_equal. f_equal. lia.
Qed.

(** Once the offset is skipped, the calls of [Next] return the rows
    left until [limit] have been returned, and pull no row after. *)
Lemma LimitOp_stream_skipped (limit offset : Z) (rows : list Row) :
  forall (count skipped : Z) (fuel : nat),
    offset <= skipped -> 0 <= count ->
    count + Z.of_nat (length rows) < 2 ^ 63 ->
    (length rows < fuel)%nat ->
    let k := Z.to_nat (limit - count) in
    exists final,
      stream LimitOp_Next fuel (mkLimitOp (map PullRow rows) limit offset count skipped)
      = (map PullRow (take k rows), final)
      /\ lim_input final = map PullRow (drop k rows).
Proof.
  induction rows as [|row rows IH]; intros count skipped fuel Hsk Hc Hlen Hfuel k; subst k;
    (destruct fuel as [|fuel]; [cbn in Hfuel; lia|]).
  - rewrite take_nil, drop_nil.
    exists (mkLimitOp [] limit offset count skipped). split; [|reflexivity].
    apply stream_facts.stream_end. unfold LimitOp_Next.
    cbn [lim_offset lim_skipped lim_input lim_count lim_limit map skipRows].
    replace (skipped <? offset) with false by (symmetry; apply Z.ltb_ge; lia).
    destruct (count >=? limit); reflexivity.
  - cbn [length] in Hlen, Hfuel.
    assert (LimitOp_Next (mkLimitOp (map PullRow (row :: rows)) limit offset count skipped)
            = if count >=? limit
              then (Ok None, mkLimitOp (map PullRow (row :: rows)) limit offset count skipped)
              else (Ok (Some row),
                    mkLimitOp (map PullRow rows) limit offset (wrap64 (count + 1)) skipped))
      as Hnext.
    { unfold LimitOp_Next.
      cbn [lim_offset lim_skipped lim_input lim_count lim_limit map skipRows].
      replace (skipped <? offset) with false by (symmetry; apply Z.ltb_ge; lia).
      destruct (count >=? limit); reflexivity. }
    destruct (Z.geb_spec count limit) as [Hge|Hlt].
    + replace (Z.to_nat (limit - count)) with 0%nat by lia.
      eexists. split; [apply stream_facts.stream_end; exact Hnext | reflexivity].
    + rewrite aggregate_facts.wrap64_small in Hnext by lia.
      rewrite (stream_facts.stream_row _ _ _ _ _ Hnext).
      destruct (IH (count + 1) skipped fuel Hsk ltac:(lia) ltac:(lia) ltac:(lia))
        as (final & -> & Hfinal).
      replace (Z.to_nat (limit - count)) with (S (Z.to_nat (limit - (count + 1)))) by lia.
      exists final. split; [reflexivity | exact Hfinal].
Qed.

(** X4. Over an upstream that yields [rows] and then ends, a limit
    operator returns the first [limit] of the rows that follow the
    first [offset], then the end of the stream, and it has pulled
    [offset + limit] rows at most: the rest of the upstream is left
    unread. A limit or an offset below zero counts as zero. *)
Theorem LimitOp_returns_window (rows : list Row) (limit offset : Z) (extra : nat) :
  Z.of_nat (length rows) < 2 ^ 63 ->
  exists final,
    stream LimitOp_Next (S (length rows) + extra)
           (NewLimitOffsetOp (map PullRow rows) limit offset)
    = (map PullRow (take (Z.to_nat limit) (drop (Z.to_nat offset) rows)), final)
    /\ lim_input final
       = map PullRow (drop (Z.to_nat offset + Z.to_nat limit) rows).
Proof.
  intros Hlen. unfold NewLimitOffsetOp.
  pose proof (skipRows_rows offset rows 0 ltac:(lia) ltac:(lia)) as Hskip.
  cbv zeta in Hskip. rewrite Z.sub_0_r in Hskip.
  (* The first call, after its skip loop. *)
  assert (LimitOp_Next (mkLimitOp (map PullRow rows) limit offset 0 0)
          = if (Z.to_nat offset <=? length rows)%nat
            then LimitOp_Next (mkLimitOp (map PullRow (drop (Z.to_nat offset) rows))
                                         limit offset 0 (Z.of_nat (Z.to_nat offset)))
            else (Ok None, mkLimitOp [] limit offset 0 (Z.of_nat (length rows)))) as Hsame.
  { unfold LimitOp_Next at 1.
    cbn [lim_offset lim_skipped lim_input lim_count lim_limit]. rewrite Hskip.
    destruct (Z.to_nat offset <=? length rows)%nat; [|reflexivity].
    unfold LimitOp_Next.
    cbn [lim_offset lim_skipped lim_input lim_count lim_limit]. rewrite Z.add_0_l.
    assert (skipRows offset (Z.of_nat (Z.to_nat offset))
                     (map PullRow (drop (Z.to_nat offset) rows))
            = (None, Z.of_nat (Z.to_nat offset),
               map PullRow (drop (Z.to_nat offset) rows))) as ->; [|reflexivity].
    destruct (drop (Z.to_nat offset) rows) as [|r rest']; cbn [map skipRows];
      replace (Z.of_nat (Z.to_nat offset) <? offset) with false
        by (symmetry; apply Z.ltb_ge; lia); reflexivity. }
  destruct (Nat.leb_spec (Z.to_nat offset) (length rows)) as [Hin|Hout];
    [rename Hsame into Hskip0 | rename Hsame into Hskip0].
  - (* The offset is reached: the first call goes on as a call
       on the rows that are left. *)
    destruct (LimitOp_stream_skipped limit offset (drop (Z.to_nat offset) rows) 0
                (Z.of_nat (Z.to_nat offset)) (S (length rows) + extra))
      as (final & Hstream & Hfinal); try lia.
    { rewrite length_drop. lia. }
    { rewrite length_drop. lia. }
    rewrite Z.sub_0_r in Hstream, Hfinal.
    exists final. split; [|now rewrite Hfinal, drop_drop].
    rewrite <- Hstream. cbn [Nat.add stream]. now rewrite Hskip0.
  - (* The upstream ends within the offset. *)
    rewrite drop_ge by lia. rewrite take_nil.
    rewrite drop_ge by lia.
    eexists. split; [apply stream_facts.stream_end; exact Hskip0 | reflexivity].
Qed.

Lemma LimitOp_returns_window_witness :
  exists final,
    stream LimitOp_Next 4
           (NewLimitOffsetOp
              (map PullRow [mkRow [VInt 1]; mkRow [VInt 2]; mkRow [VInt 3]]) 1 1)
    = ([PullRow (mkRow [VInt 2])], final)
    /\ lim_input final = [PullRow (mkRow [VInt 3])].
Proof.
  apply (LimitOp_returns_window [mkRow [VInt 1]; mkRow [VInt 2]; mkRow [VInt 3]] 1 1 0).
  reflexivity.
Defined.

End limit_facts.

(** ** Project *)

Module project_facts.
Import operators.

Lemma index_lookup (vals : list Value) (j : nat) (v : Value) :
  vals !! j = Some v -> golang.index vals (Z.of_nat j) = v.
Proof.
  intros Hj. unfold golang.index. rewrite Nat2Z.id.
  now apply nth_lookup_Some with (d := VNil) in Hj.
Qed.

(** The index that [ColumnIndex] gives for a column of the schema
    selects that column, in the schema and in a row as wide. *)
Lemma projectColumn_present (s : Schema) (name : string) (j : nat) (t : types.DataType) :
  schema_facts.first_index (Columns s) name j -> Types s !! j = Some t ->
  types.ColumnIndex s name = Z.of_nat j ->
  projectColumn s (types.ColumnIndex s name) = Some (name, t).
Proof.
  intros [Hj _] Ht ->. unfold projectColumn.
  pose proof (lookup_lt_Some _ _ _ Hj) as Hlt.
  replace ((0 <=? Z.of_nat j) && (Z.of_nat j <? len (Columns s))) with true.
  - now rewrite Nat2Z.id, Hj, Ht.
  - symmetry. apply andb_true_iff. split; [apply Z.leb_le | apply Z.ltb_lt];
      unfold len; lia.
Qed.

Lemma ColumnIndex_present (s : Schema) (name : string) :
  name ∈ Columns s ->
  exists j, types.ColumnIndex s name = Z.of_nat j
            /\ schema_facts.first_index (Columns s) name j.
Proof.
  intros Hin. unfold types.ColumnIndex.
  destruct (schema_facts.columnIndexFrom_present 0 _ _ Hin) as (j & Hj & Hf).
  exists j. split; [lia | exact Hf].
Qed.

(** X5. Projecting by the names of columns of the input gives an
    output schema with exactly these names, and each output row holds,
    name by name, the value of the first input column of that name. *)
Theorem ProjectOp_selects_named_columns
        (s : Schema) (names : list string) (row : Row) (rest : Input) :
  names <> [] ->
  Forall (fun name => name ∈ Columns s) names ->
  length (Types s) = length (Columns s) ->
  length (Values row) = length (Columns s) ->
  exists p p' vals,
    NewProjectOpByNames (PullRow row :: rest) s names = Some p
    /\ Columns (proj_outputSchema p) = names
    /\ length (Types (proj_outputSchema p)) = length names
    /\ ProjectOp_Next p = (Ok (Some (mkRow vals)), p')
    /\ proj_input p' = rest
    /\ Forall2 (fun name v => exists j, schema_facts.first_index (Columns s) name j
                                        /\ Values row !! j = Some v) names vals.
Proof.
  intros Hne Hnames Htypes Hrow. unfold NewProjectOpByNames, NewProjectOp.
  rewrite length_map.
  destruct names as [|name0 names0] eqn:En; [contradiction|]. rewrite <- En in *.
  replace (length names =? 0)%nat with false by (now rewrite En).
  clear Hne En name0 names0.
  assert (exists cols,
             Forall2 (fun name col => projectColumn s (types.ColumnIndex s name) = Some col
                                      /\ fst col = name) names cols) as (cols & Hcols).
  { induction Hnames as [|name names Hname Hnames IH].
    - exists []. constructor.
    - destruct IH as (cols & Hcols).
      destruct (ColumnIndex_present s name Hname) as (j & Hj & Hf).
      destruct (lookup_lt_is_Some_2 (Types s) j) as [t Ht].
      { rewrite Htypes. destruct Hf as [Hf _]. now apply lookup_lt_Some in Hf. }
      exists ((name, t) :: cols). constructor; [|exact Hcols].
      split; [now apply projectColumn_present with j | reflexivity]. }
  assert (mapM (projectColumn s) (map (types.ColumnIndex s) names) = Some cols) as ->.
  { apply mapM_Some_2, Forall2_fmap_l.
    eapply Forall2_impl; [exact Hcols|]. now intros name col [Hc _]. }
  assert (map fst cols = names) as Hfst.
  { clear Hnames. induction Hcols as [|name col names cols [_ Hc] _ IH]; [reflexivity|].
    cbn [map]. now rewrite Hc, IH. }
  eexists _, _, _. split; [reflexivity|].
  cbn [proj_outputSchema Columns Types]. split; [exact Hfst|].
  split; [now rewrite length_map, <- Hfst, length_map|].
  unfold ProjectOp_Next.
  cbn [proj_input Input_Next proj_passthrough proj_columnIndices proj_outputSchema].
  split; [reflexivity|]. split; [reflexivity|].
  unfold projectValues. clear Hcols Hfst cols.
  induction Hnames as [|name names Hname Hnames IH]; cbn [map]; constructor; [|exact IH].
  destruct (ColumnIndex_present s name Hname) as (j & -> & Hf).
  exists j. split; [exact Hf|].
  destruct Hf as [Hj _]. apply lookup_lt_Some in Hj.
  replace ((0 <=? Z.of_nat j) && (Z.of_nat j <? len (Values row))) with true.
  - destruct (lookup_lt_is_Some_2 (Values row) j) as [v Hv]; [lia|].
    rewrite Hv. f_equal. symmetry. now apply index_lookup.
  - symmetry. apply andb_true_iff. split; [apply Z.leb_le | apply Z.ltb_lt];
      unfold len; lia.
Qed.

(** X6. A name that is not a column of the input is no error: the
    output schema has a column with the empty name and the type
    Int in its place, and every output row holds a null there. *)
Theorem ProjectOp_unknown_column_is_null
        (s : Schema) (name : string) (row : Row) (rest : Input) :
  name ∉ Columns s ->
  exists p p',
    NewProjectOpByNames (PullRow row :: rest) s [name] = Some p
    /\ proj_outputSchema p = mkSchema [""] [types.Int]
    /\ ProjectOp_Next p = (Ok (Some (mkRow [VNil])), p').
Proof.
  intros Hout. unfold NewProjectOpByNames, NewProjectOp. cbn [length Nat.eqb map].
  unfold types.ColumnIndex. rewrite schema_facts.columnIndexFrom_absent by exact Hout.
  cbn. eexists _, _. repeat split.
Qed.

Lemma passthrough_stream (s : Schema) (n : nat) :
  forall input : Input,
    (length input < n)%nat ->
    fst (stream ProjectOp_Next n (mkProjectOp input [] s true)) = input.
Proof.
  induction n as [|n IH]; intros input Hlen; [lia|].
  destruct input as [|[row|msg] input].
  - reflexivity.
  - rewrite (stream_facts.stream_row _ _ _ (mkProjectOp input [] s true) row) by reflexivity.
    cbn [fst]. rewrite IH by (cbn in Hlen; lia). reflexivity.
  - rewrite (stream_facts.stream_err _ _ _ (mkProjectOp input [] s true) msg) by reflexivity.
    cbn [fst]. rewrite IH by (cbn in Hlen; lia). reflexivity.
Qed.

(** X7. With no column selected, the operator is a passthrough: its
    schema is the schema of the input, and [Next] returns what the
    upstream returns, rows as they are, errors and the end of the
    stream included. *)
Theorem ProjectOp_passthrough (s : Schema) (input : Input) :
  exists p,
    NewProjectOp input s [] = Some p
    /\ NewProjectOpByNames input s [] = Some p
    /\ proj_outputSchema p = s
    /\ forall extra, fst (stream ProjectOp_Next (S (length input) + extra) p) = input.
Proof.
  eexists. split; [reflexivity|]. split; [reflexivity|]. split; [reflexivity|].
  intros extra. apply passthrough_stream. lia.
Qed.

Lemma ProjectOp_selects_named_columns_witness :
  exists p p' vals,
    NewProjectOpByNames [PullRow (mkRow [VInt 1; VString "ann"; VInt 7])]
      (mkSchema ["id"; "name"; "qty"] [types.Int; types.String; types.Int])
      ["qty"; "id"] = Some p
    /\ Columns (proj_outputSchema p) = ["qty"; "id"]
    /\ length (Types (proj_outputSchema p)) = 2%nat
    /\ ProjectOp_Next p = (Ok (Some (mkRow vals)), p')
    /\ proj_input p' = []
    /\ Forall2 (fun name v =>
                  exists j, schema_facts.first_index ["id"; "name"; "qty"] name j
                            /\ [VInt 1; VString "ann"; VInt 7] !! j = Some v)
               ["qty"; "id"] vals.
Proof.
  apply (ProjectOp_selects_named_columns
           (mkSchema ["id"; "name"; "qty"] [types.Int; types.String; types.Int])
           ["qty"; "id"] (mkRow [VInt 1; VString "ann"; VInt 7]) []).
  - discriminate.
  - repeat constructor.
  - reflexivity.
  - reflexivity.
Defined.

Lemma ProjectOp_unknown_column_is_null_witness :
  exists p p',
    NewProjectOpByNames [PullRow (mkRow [VInt 1])] (mkSchema ["id"] [types.Int]) ["age"]
    = Some p
    /\ proj_outputSchema p = mkSchema [""] [types.Int]
    /\ ProjectOp_Next p = (Ok (Some (mkRow [VNil])), p').
Proof.
  apply (ProjectOp_unknown_column_is_null (mkSchema ["id"] [types.Int]) "age"
           (mkRow [VInt 1]) []).
  cbn [Columns]. intros Hin. apply elem_of_cons in Hin as [Hin|Hin]; [discriminate|].
  now apply elem_of_nil in Hin.
Defined.

End project_facts.

(** ** Scan: the stream of a file *)

Module scan_stream_facts.
Import operators.

Section facts.
Context `{Platform}.

(** After the first row, the scan returns the records of its reader. *)
Lemma CSVScan_stream_rest (file : option os.File) (schema : Schema)
      (first : option (list string)) (fuel : nat) :
  forall records : list (list string),
    (length records < fuel)%nat ->
    fst (stream CSVScan_Next fuel
                (mkCSVScan (map csv.Record records) file schema first true))
    = map (fun r => PullRow (mkRow (parseRecord r (Types schema)))) records.
Proof.
  induction fuel as [|fuel IH]; intros records Hfuel; [lia|].
  destruct records as [|record records].
  - cbn. now destruct first.
  - rewrite (stream_facts.stream_row _ _ _
               (mkCSVScan (map csv.Record records) file schema first true)
               (mkRow (parseRecord record (Types schema)))).
    + cbn [fst map]. rewrite IH by (cbn in Hfuel; lia). reflexivity.
    + unfold CSVScan_Next. cbn. now destruct first.
Qed.

Lemma CSVScan_stream_records
        (file : os.File) (header first : list string) (rest : list (list string))
        (extra : nat) :
  (length first <= length header)%nat ->
  exists s,
    NewCSVScan (Some (file, map csv.Record (header :: first :: rest))) = Ok s
    /\ Columns (scan_schema s) = header
    /\ length (Types (scan_schema s)) = length header
    /\ fst (stream CSVScan_Next (2 + length rest + extra) s)
       = map (fun r => PullRow (mkRow (parseRecord r (Types (scan_schema s)))))
             (first :: rest).
Proof.
  intros Hwidth. unfold NewCSVScan, inferTypes. cbn [map csv.Read].
  replace (length first <=? length header)%nat with true
    by (symmetry; now apply Nat.leb_le).
  eexists. split; [reflexivity|]. cbn [scan_schema Columns Types].
  split; [reflexivity|]. split.
  - rewrite length_app, length_map, length_replicate. lia.
  - set (colTypes := (map inferType first ++ _)%list).
    change (2 + length rest + extra)%nat with (S (S (length rest + extra))).
    rewrite (stream_facts.stream_row _ _ _
               (mkCSVScan (map csv.Record rest) (Some file) (mkSchema header colTypes)
                          (Some first) true)
               (mkRow (parseRecord first colTypes))) by reflexivity.
    cbn [fst map]. rewrite CSVScan_stream_rest by lia. reflexivity.
Qed.

(** X8. A scan over a file with a header and data rows returns one
    row per data record, in file order and parsed at the types
    inferred from the first of them; the first record, read ahead for
    the inference, comes first and once. The schema has the header as
    its column names and one type per column: the type that
    [inferType] gives the field of the first record in that column,
    and Int for a column that the first record does not reach. *)
Theorem CSVScan_returns_every_record
        (file : os.File) (header first : list string) (rest : list (list string))
        (extra : nat) :
  (length first <= length header)%nat ->
  exists s,
    NewCSVScan (Some (file, map csv.Record (header :: first :: rest))) = Ok s
    /\ Columns (scan_schema s) = header
    /\ length (Types (scan_schema s)) = length header
    /\ Types (scan_schema s)
       = (map inferType first ++ replicate (length header - length first) types.Int)%list
    /\ fst (stream CSVScan_Next (2 + length rest + extra) s)
       = map (fun r => PullRow
                         (mkRow (parseRecord r
                                   (map inferType first
                                    ++ replicate (length header - length first) types.Int))))
             (first :: rest).
Proof.
  intros Hwidth.
  destruct (CSVScan_stream_records file header first rest extra Hwidth)
    as (s & Hs & Hcols & Hlen & Hstream).
  exists s. split; [exact Hs|]. split; [exact Hcols|]. split; [exact Hlen|].
  assert (Types (scan_schema s)
          = (map inferType first ++ replicate (length header - length first) types.Int)%list)
    as Htypes.
  { revert Hs. unfold NewCSVScan, inferTypes. cbn [map csv.Read].
    replace (length first <=? length header)%nat with true
      by (symmetry; now apply Nat.leb_le).
    now intros [= <-]. }
  split; [exact Htypes|]. now rewrite <- Htypes.
Qed.

(** X9. The edges of opening a scan: a file that cannot be opened
    and a file without a header row are errors; a file with a header
    and no data row is a scan whose columns are all typed String and
    whose first [Next] is the end of the stream. *)
Theorem NewCSVScan_edges (file : os.File) (header : list string) (fuel : nat) :
  NewCSVScan None = Err "failed to open CSV file"
  /\ NewCSVScan (Some (file, [])) = Err "failed to read CSV header"
  /\ exists s,
       NewCSVScan (Some (file, [csv.Record header])) = Ok s
       /\ scan_schema s = mkSchema header (replicate (length header) types.String)
       /\ fst (CSVScan_Next s) = Ok None
       /\ fst (stream CSVScan_Next fuel s) = [].
Proof.
  split; [reflexivity|]. split; [reflexivity|].
  eexists. split; [reflexivity|]. cbn [scan_schema]. split.
  - f_equal. induction header as [|c header IH]; [reflexivity|].
    cbn [map length replicate]. now rewrite IH.
  - split; [reflexivity|]. now destruct fuel.
Qed.

(** X10. The type inferred from a text always parses that text: a
    value of the first data row is never replaced by a zero. *)
Theorem inferType_parses (val : string) :
  match inferType val with
  | types.Int => exists v, strconv.ParseInt val = Some v /\ parseValue val types.Int = VInt v
  | types.Float =>
      exists f, ParseFloat val = Some f /\ parseValue val types.Float = VFloat f
  | types.String => parseValue val types.String = VString val
  end.
Proof.
  unfold inferType, parseValue.
  destruct (String.eqb val ""); [reflexivity|].
  destruct (strconv.ParseInt val) as [v|]; [now exists v|].
  destruct (ParseFloat val) as [f|]; [now exists f | reflexivity].
Qed.

Lemma FormatInt_nonempty (v : Z) : strconv.FormatInt v <> "".
Proof.
  unfold strconv.FormatInt, NilZero.string_of_int, NilZero.string_of_uint.
  destruct (Z.to_int v) as [d|d]; destruct d; discriminate.
Qed.

(** X11. The decimal text of an [int64] is inferred as Int and read
    back as the same integer. *)
Theorem int64_text_round_trip (v : Z) :
  in_int64 v = true ->
  inferType (strconv.FormatInt v) = types.Int
  /\ parseValue (strconv.FormatInt v) types.Int = VInt v.
Proof.
  intros Hv. unfold inferType, parseValue.
  rewrite (strconv_facts.ParseInt_FormatInt v Hv).
  destruct (String.eqb_spec (strconv.FormatInt v) "") as [E|_]; [|auto].
  now apply FormatInt_nonempty in E.
Qed.

End facts.

Lemma int64_text_round_trip_witness :
  inferType (H := sample.platform) (strconv.FormatInt (-42)) = types.Int
  /\ parseValue (H := sample.platform) (strconv.FormatInt (-42)) types.Int = VInt (-42).
Proof. apply (int64_text_round_trip (H := sample.platform) (-42)). reflexivity. Defined.

Lemma CSVScan_returns_every_record_witness :
  exists s,
    NewCSVScan (H := sample.platform)
      (Some (0%nat, map csv.Record [["id"; "name"]; ["1"; "ann"]; ["x"; "bob"]])) = Ok s
    /\ Columns (scan_schema s) = ["id"; "name"]
    /\ length (Types (scan_schema s)) = 2%nat
    /\ Types (scan_schema s) = [types.Int; types.String]
    /\ fst (stream (CSVScan_Next (H := sample.platform)) 3 s)
       = [PullRow (mkRow [VInt 1; VString "ann"]); PullRow (mkRow [VInt 0; VString "bob"])].
Proof.
  apply (CSVScan_returns_every_record (H := sample.platform) 0%nat
           ["id"; "name"] ["1"; "ann"] [["x"; "bob"]] 0).
  cbn. lia.
Defined.

End scan_stream_facts.

(** ** Pruning is sound *)

Module pruning_facts.
Import metadata operators.

Lemma column_ints_elem (i : nat) (rows : list (list string)) (vs : list Z)
      (r : list string) :
  metadata_facts.column_ints i rows = Some vs -> r ∈ rows ->
  exists text x, r !! i = Some text /\ strconv.ParseInt text = Some x /\ x ∈ vs.
Proof.
  revert vs. induction rows as [|r0 rows IH]; intros vs Hvs Hr.
  - now apply elem_of_nil in Hr.
  - cbn [metadata_facts.column_ints] in Hvs.
    destruct (r0 !! i ≫= strconv.ParseInt) as [v|] eqn:Hv; [|discriminate].
    destruct (metadata_facts.column_ints i rows) as [vs'|]; [|discriminate].
    injection Hvs as <-.
    apply elem_of_cons in Hr as [->|Hr].
    + destruct (r0 !! i) as [text|]; [|discriminate]. cbn in Hv.
      exists text, v. repeat split; [exact Hv | left].
    + destruct (IH vs' eq_refl Hr) as (text & x & Ht & Hx & Hin).
      exists text, x. repeat split; [exact Ht | exact Hx | now right].
Qed.

(** A comparison that [CanPrune] excludes by the bounds fails on every
    integer within the bounds. *)
Lemma CanPrune_bounds (zm : ZoneMap) (name : string) (comp : types.Comparator) (v : Z) :
  CanPrune zm name comp v = true ->
  exists lo hi, MinValues zm !! name = Some lo /\ MaxValues zm !! name = Some hi
                /\ forall x, lo <= x <= hi -> compareInt64 x comp v = false.
Proof.
  unfold CanPrune.
  destruct (MinValues zm !! name) as [lo|]; [|discriminate].
  destruct (MaxValues zm !! name) as [hi|]; [|discriminate].
  intros Hp. exists lo, hi. split; [reflexivity|]. split; [reflexivity|].
  intros x Hx. destruct comp; cbn [compareInt64]; try reflexivity; try discriminate.
  - apply orb_true_iff in Hp as [Hp|Hp]; lia.
  - lia.
  - lia.
  - lia.
  - lia.
  - apply andb_true_iff in Hp as [H1 H2]. lia.
Qed.

Lemma pruned_column (path : string) (header first : list string)
      (rest : list (list string)) (zm : ZoneMap) (name : string)
      (comp : types.Comparator) (v : Z) :
  NoDup header ->
  Forall (fun r => length r = length header) (first :: rest) ->
  GenerateZoneMap path (Some (map csv.Record (header :: first :: rest))) = Ok zm ->
  CanPrune zm name comp v = true ->
  exists i, header !! i = Some name
    /\ forall r, r ∈ first :: rest ->
         exists text x, r !! i = Some text /\ strconv.ParseInt text = Some x
                        /\ compareInt64 x comp v = false.
Proof.
  intros Hnd Hlen Hzm Hp.
  destruct (metadata_facts.GenerateZoneMap_describes path header first rest Hnd Hlen)
    as (zm' & Hzm' & Hin & Hout).
  rewrite Hzm in Hzm'. injection Hzm' as <-.
  destruct (CanPrune_bounds zm name comp v Hp) as (lo & hi & Hlo & Hhi & Hcmp).
  destruct (decide (name ∈ header)) as [Hmem|Hmem].
  2:{ destruct (Hout name Hmem) as [E _]. congruence. }
  apply list_elem_of_lookup in Hmem as [i Hi]. exists i. split; [exact Hi|].
  specialize (Hin i name Hi).
  destruct (metadata_facts.column_ints i (first :: rest)) as [vs|] eqn:Hvs.
  2:{ destruct Hin as [E _]. congruence. }
  destruct Hin as (lo' & hi' & Hlo' & Hhi' & _ & _ & Hb).
  assert (lo' = lo) as -> by congruence. assert (hi' = hi) as -> by congruence.
  intros r Hr. destruct (column_ints_elem i _ vs r Hvs Hr) as (text & x & Ht & Hx & Hxin).
  exists text, x. split; [exact Ht|]. split; [exact Hx|]. apply Hcmp, Hb, Hxin.
Qed.

(** X12. When [CanPrune] answers true on the zone map generated
    from a file, the file has a column of that name, every data row
    holds an integer there, and none of these integers satisfies the
    comparison. *)
Theorem CanPrune_sound (path : string) (header first : list string)
        (rest : list (list string)) (zm : ZoneMap) (name : string)
        (comp : types.Comparator) (v : Z) :
  NoDup header ->
  Forall (fun r => length r = length header) (first :: rest) ->
  GenerateZoneMap path (Some (map csv.Record (header :: first :: rest))) = Ok zm ->
  CanPrune zm name comp v = true ->
  exists i, header !! i = Some name
    /\ forall r, r ∈ first :: rest ->
         exists text x, r !! i = Some text /\ strconv.ParseInt text = Some x
                        /\ compareInt64 x comp v = false.
Proof. apply pruned_column. Qed.

Section scan.
Context `{Platform}.

Lemma parseRecord_Int (r : list string) (colTypes : list types.DataType) (i : nat)
      (text : string) (x : Z) :
  r !! i = Some text -> colTypes !! i = Some types.Int ->
  strconv.ParseInt text = Some x ->
  parseRecord r colTypes !! i = Some (VInt x).
Proof.
  intros Hr Ht Hx. rewrite scan_facts.parseRecord_lookup, Hr, Ht. cbn.
  unfold parseValue. now rewrite Hx.
Qed.

(** X13. A file that [CanPrune] excludes for a comparison of a
    column with an integer literal has no matching row: the filter on
    that comparison over the scan of the file returns the end of the
    stream at its first call. *)
Theorem pruned_file_has_no_matching_row
        (path : string) (file : os.File) (header first : list string)
        (rest : list (list string)) (zm : ZoneMap) (name : string)
        (comp : types.Comparator) (v : Z) (extra : nat) :
  NoDup header ->
  Forall (fun r => length r = length header) (first :: rest) ->
  GenerateZoneMap path (Some (map csv.Record (header :: first :: rest))) = Ok zm ->
  CanPrune zm name comp v = true ->
  exists s,
    NewCSVScan (Some (file, map csv.Record (header :: first :: rest))) = Ok s
    /\ let fuel := (2 + length rest + extra)%nat in
       let predicate :=
         BuildComparisonPredicate
           (mkComparison (types.ColumnIndex (scan_schema s) name) comp (VInt v)) in
       fst (stream (FilterOp_Next predicate) fuel (fst (stream CSVScan_Next fuel s))) = [].
Proof.
  intros Hnd Hlen Hzm Hp.
  destruct (pruned_column path header first rest zm name comp v Hnd Hlen Hzm Hp)
    as (i & Hi & Hrows).
  pose proof Hlen as Hlen'. apply Forall_cons in Hlen' as [Hfirst _].
  destruct (scan_stream_facts.CSVScan_stream_records file header first rest extra)
    as (s & Hs & Hcols & Htypes & Hstream); [lia|].
  exists s. split; [exact Hs|]. cbv zeta. rewrite Hstream.
  destruct (filter_stream_facts.FilterOp_stream_passing
              (BuildComparisonPredicate
                 (mkComparison (types.ColumnIndex (scan_schema s) name) comp (VInt v)))
              (2 + length rest + extra)
              (map (fun r => PullRow (mkRow (parseRecord r (Types (scan_schema s)))))
                   (first :: rest))) as (input' & -> & _).
  { rewrite length_map. cbn [length]. lia. }
  cbn [fst].
  (* The column index and its type. *)
  assert (types.ColumnIndex (scan_schema s) name = Z.of_nat i) as ->.
  { unfold types.ColumnIndex. rewrite Hcols.
    destruct (schema_facts.columnIndexFrom_present 0 header name) as (j & -> & Hj & _).
    { apply list_elem_of_lookup. now exists i. }
    rewrite Z.add_0_l. f_equal. now apply (NoDup_lookup header j i name). }
  assert (Types (scan_schema s) !! i = Some types.Int) as Hint.
  { unfold NewCSVScan, inferTypes in Hs. cbn [map csv.Read] in Hs.
    replace (length first <=? length header)%nat with true in Hs
      by (symmetry; apply Nat.leb_le; lia).
    injection Hs as <-. cbn [scan_schema Types].
    destruct (Hrows first ltac:(left)) as (text & x & Ht & Hx & _).
    rewrite lookup_app_l by (rewrite length_map; now apply lookup_lt_Some in Ht).
    rewrite list_lookup_fmap, Ht. cbn. unfold inferType. rewrite Hx.
    destruct (String.eqb_spec text "") as [->|_]; [discriminate | reflexivity]. }
  (* No row passes. *)
  assert (forall rows : list (list string),
             (forall r, r ∈ rows -> r ∈ first :: rest) ->
             filter_stream_facts.passing
               (BuildComparisonPredicate (mkComparison (Z.of_nat i) comp (VInt v)))
               (map (fun r => PullRow (mkRow (parseRecord r (Types (scan_schema s))))) rows)
             = []) as Hnone.
  { induction rows as [|r rows IH]; intros Hsub; [reflexivity|].
    cbn [map filter_stream_facts.passing].
    destruct (Hrows r (Hsub r ltac:(left))) as (text & x & Ht & Hx & Hcmp).
    pose proof (parseRecord_Int r _ i text x Ht Hint Hx) as Hval.
    unfold BuildComparisonPredicate at 1.
    cbn [cmp_ColumnIndex cmp_Comparator cmp_Value Values].
    pose proof (lookup_lt_Some _ _ _ Hval) as Hlt.
    replace ((Z.of_nat i <? 0) || (Z.of_nat i >=? len (parseRecord r (Types (scan_schema s)))))
      with false.
    - rewrite (project_facts.index_lookup _ _ _ Hval). cbn [compare toInt64].
      rewrite Hcmp. apply IH. intros r' Hr'. apply Hsub. now right.
    - symmetry. apply orb_false_iff. split; [apply Z.ltb_ge; lia|].
      rewrite Z.geb_leb. apply Z.leb_gt. unfold len. lia. }
  apply Hnone. auto.
Qed.

End scan.

Lemma CanPrune_sound_witness :
  exists i, ["id"; "name"] !! i = Some "id"
    /\ forall r, r ∈ [["10"; "a"]; ["50"; "b"]] ->
         exists text x, r !! i = Some text /\ strconv.ParseInt text = Some x
                        /\ compareInt64 x types.Eq 5 = false.
Proof.
  eapply (CanPrune_sound "t.csv" ["id"; "name"] ["10"; "a"] [["50"; "b"]] _
            "id" types.Eq 5).
  - compute_done.
  - repeat constructor.
  - vm_compute. reflexivity.
  - vm_compute. reflexivity.
Defined.

Lemma pruned_file_has_no_matching_row_witness :
  exists s,
    NewCSVScan (H := sample.platform)
      (Some (0%nat, map csv.Record [["id"; "name"]; ["10"; "a"]; ["50"; "b"]])) = Ok s
    /\ fst (stream (FilterOp_Next
                      (BuildComparisonPredicate (H := sample.platform)
                         (mkComparison (types.ColumnIndex (scan_schema s) "id")
                                       types.Eq (VInt 5))))
                   3 (fst (stream (CSVScan_Next (H := sample.platform)) 3 s))) = [].
Proof.
  eapply (pruned_file_has_no_matching_row (H := sample.platform) "t.csv" 0%nat
            ["id"; "name"] ["10"; "a"] [["50"; "b"]] _ "id" types.Eq 5 0).
  - compute_done.
  - repeat constructor.
  - vm_compute. reflexivity.
  - vm_compute. reflexivity.
Defined.

End pruning_facts.

(** ** Zone maps on any file *)

Module zonemap_facts.
Import metadata.

(** What the scan may know of a column name: nothing, or that it is
    an integer column with a least value not above the greatest. *)
Definition good (w : option bool * option Z * option Z) : Prop :=
  match w with
  | (Some true, Some lo, Some hi) => lo <= hi
  | (None, None, None) => True
  | _ => False
  end.

Lemma firstView_good (val : string) w : good w -> good (metadata_facts.firstView val w).
Proof.
  unfold metadata_facts.firstView. destruct (strconv.ParseInt val) as [v|]; [|auto].
  intros _. cbn. lia.
Qed.

Lemma rowView_good (val : string) w : good w -> good (metadata_facts.rowView val w).
Proof.
  destruct w as [[[[]|] [lo|]] [hi|]]; cbn; try contradiction; try (intros; exact I).
  intros Hle. destruct (strconv.ParseInt val) as [v|]; [|exact I]. cbn.
  destruct (Z.ltb_spec v lo), (Z.gtb_spec v hi); lia.
Qed.

Lemma rangeColumns_good body f (header record : list string) :
  metadata_facts.local body f -> (forall val w, good w -> good (f val w)) ->
  forall st, (forall name, good (metadata_facts.view name st)) ->
             forall name, good (metadata_facts.view name (rangeColumns body header record st)).
Proof.
  intros Hlocal Hf. revert record.
  induction header as [|c header IH]; intros record st Hst name; [apply Hst|].
  destruct record as [|val record]; [apply Hst|].
  cbn [rangeColumns]. apply IH. intros name'. rewrite Hlocal.
  destruct (decide (c = name')); [apply Hf|]; apply Hst.
Qed.

Lemma scanRows_good (header : list string) (r : csv.Reader) :
  forall st n st' n',
    (forall name, good (metadata_facts.view name st)) ->
    scanRows header r st n = Ok (st', n') ->
    forall name, good (metadata_facts.view name st').
Proof.
  induction r as [|[record|msg] r IH]; intros st n st' n' Hst Hscan; cbn [scanRows] in Hscan.
  - injection Hscan as <- _. exact Hst.
  - eapply IH; [|exact Hscan].
    now apply rangeColumns_good with (f := metadata_facts.rowView);
      [apply metadata_facts.rowBody_local | apply rowView_good |].
  - discriminate.
Qed.

(** X14. In every zone map that [GenerateZoneMap] returns, on any
    file, a column has a minimum exactly when it has a maximum, and
    the minimum is not above the maximum. *)
Theorem GenerateZoneMap_bounds_paired (path : string) (file : option csv.Reader)
        (zm : ZoneMap) (name : string) :
  GenerateZoneMap path file = Ok zm ->
  match MinValues zm !! name, MaxValues zm !! name with
  | Some lo, Some hi => lo <= hi
  | None, None => True
  | _, _ => False
  end.
Proof.
  unfold GenerateZoneMap. destruct file as [r|]; [|discriminate].
  destruct r as [|[header|msg] r1]; cbn [csv.Read]; try discriminate.
  assert (forall name, good (metadata_facts.view name (mkScan ∅ ∅ ∅))) as H0.
  { intros name'. unfold metadata_facts.view. cbn. now rewrite !lookup_empty. }
  destruct r1 as [|[first|msg] r2]; cbn [csv.Read]; try discriminate.
  - intros [= <-]. cbn. now rewrite !lookup_empty.
  - destruct (scanRows header r2 _ 1) as [[st n]|msg] eqn:Hscan; [|discriminate].
    intros [= <-]. cbn [MinValues MaxValues].
    pose proof (scanRows_good header r2 _ 1 st n
                  (rangeColumns_good firstRowBody metadata_facts.firstView header first
                     metadata_facts.firstRowBody_local firstView_good _ H0)
                  Hscan name) as Hgood.
    unfold good, metadata_facts.view in Hgood.
    destruct (isIntColumn st !! name) as [[]|], (minValues st !! name), (maxValues st !! name);
      try contradiction; auto.
Qed.

Lemma scanRows_count (header : list string) (rows : list (list string)) :
  forall st n,
    0 <= n -> n + Z.of_nat (length rows) < 2 ^ 63 ->
    exists st', scanRows header (map csv.Record rows) st n
                = Ok (st', n + Z.of_nat (length rows)).
Proof.
  induction rows as [|r rows IH]; intros st n Hn Hlen; cbn [map scanRows length] in *.
  - exists st. do 2 f_equal. lia.
  - rewrite aggregate_facts.wrap64_small by lia.
    destruct (IH (rangeColumns rowBody header r st) (n + 1)) as (st' & ->); [lia|lia|].
    exists st'. do 2 f_equal. lia.
Qed.

(** X15. [GenerateZoneMap] on a file with a header and data rows
    succeeds, whatever the rows hold, and its row count is the number
    of data rows. *)
Theorem GenerateZoneMap_counts_rows (path : string) (header first : list string)
        (rest : list (list string)) :
  Z.of_nat (length rest) + 1 < 2 ^ 63 ->
  exists zm,
    GenerateZoneMap path (Some (map csv.Record (header :: first :: rest))) = Ok zm
    /\ RowCount zm = Z.of_nat (length (first :: rest))
    /\ Filename zm = path.
Proof.
  intros Hlen. unfold GenerateZoneMap. cbn [map csv.Read].
  destruct (scanRows_count header rest
              (rangeColumns firstRowBody header first (mkScan ∅ ∅ ∅)) 1) as (st & ->);
    [lia | lia |].
  eexists. split; [reflexivity|]. cbn [RowCount Filename length]. split; [lia | reflexivity].
Qed.

(** X16. The edges of [GenerateZoneMap]: a file that cannot be
    opened, a file without a header and a read error in a data row
    are errors; a file with a header only gives a zone map of no row
    that tracks no column, so that [CanPrune] is false on it for
    every comparison. *)
Theorem GenerateZoneMap_edges (path : string) (header : list string)
        (rows : list (list string)) (msg : string) (after : csv.Reader) :
  GenerateZoneMap path None = Err "failed to open CSV"
  /\ GenerateZoneMap path (Some []) = Err "failed to read CSV header"
  /\ GenerateZoneMap path (Some [csv.Record header; csv.ReadError msg])
     = Err "failed to read first data row"
  /\ (rows <> [] ->
      GenerateZoneMap path
        (Some (map csv.Record (header :: rows) ++ csv.ReadError msg :: after)%list)
      = Err "error reading CSV row")
  /\ exists zm,
       GenerateZoneMap path (Some [csv.Record header]) = Ok zm
       /\ RowCount zm = 0
       /\ forall name comp v, CanPrune zm name comp v = false.
Proof.
  split; [reflexivity|]. split; [reflexivity|]. split; [reflexivity|]. split.
  - intros Hrows. destruct rows as [|first rest]; [contradiction|]. clear Hrows.
    unfold GenerateZoneMap. cbn [map app csv.Read].
    assert (forall st n, scanRows header (map csv.Record rest ++ csv.ReadError msg :: after)
                                  st n = Err "error reading CSV row") as ->; [|reflexivity].
    induction rest as [|r rest IH]; intros st n; cbn [map app scanRows]; [reflexivity|].
    apply IH.
  - eexists. split; [reflexivity|]. split; [reflexivity|].
    intros name comp v. unfold CanPrune. cbn. now rewrite lookup_empty.
Qed.

Lemma GenerateZoneMap_bounds_paired_witness :
  exists zm,
    GenerateZoneMap "t.csv" (Some (map csv.Record [["id"; "id"]; ["4"; "x"]; ["9"; "2"]]))
    = Ok zm
    /\ match MinValues zm !! "id", MaxValues zm !! "id" with
       | Some lo, Some hi => lo <= hi
       | None, None => True
       | _, _ => False
       end.
Proof.
  destruct (GenerateZoneMap "t.csv"
              (Some (map csv.Record [["id"; "id"]; ["4"; "x"]; ["9"; "2"]])))
    as [zm|msg] eqn:E; [|vm_compute in E; discriminate].
  exists zm. split; [reflexivity|].
  exact (GenerateZoneMap_bounds_paired _ _ zm "id" E).
Defined.

Lemma GenerateZoneMap_counts_rows_witness :
  exists zm,
    GenerateZoneMap "t.csv" (Some (map csv.Record [["id"]; ["1"]; ["x"]; ["3"]])) = Ok zm
    /\ RowCount zm = 3
    /\ Filename zm = "t.csv".
Proof.
  apply (GenerateZoneMap_counts_rows "t.csv" ["id"] ["1"] [["x"]; ["3"]]).
  reflexivity.
Defined.

End zonemap_facts.

(** ** The scalar aggregate as a stream *)

Module scalar_aggregate_facts.
Import operators.

(** The values of the aggregates over the rows. *)
Definition scalarValues (aggregates : list AggregateExpr) (rows : list Row) : list Value :=
  zip_with finalizeState
           (fold_left (updateStates aggregates) rows
                      (replicate (length aggregates) initState))
           aggregates.

Lemma updateStates_length (aggregates : list AggregateExpr) (rows : list Row) :
  forall states,
    length states = length aggregates ->
    length (fold_left (updateStates aggregates) rows states) = length aggregates.
Proof.
  induction rows as [|row rows IH]; intros states Hlen; [exact Hlen|].
  cbn [fold_left]. apply IH. unfold updateStates. rewrite length_zip_with. lia.
Qed.

Lemma scalarValues_length (aggregates : list AggregateExpr) (rows : list Row) :
  length (scalarValues aggregates rows) = length aggregates.
Proof.
  unfold scalarValues. rewrite length_zip_with, updateStates_length.
  - lia.
  - apply length_replicate.
Qed.

Lemma ScalarAggregateOp_Next_rows (aggregates : list AggregateExpr) (rows : list Row) :
  ScalarAggregateOp_Next (NewScalarAggregateOp (map PullRow rows) aggregates)
  = (Ok (Some (mkRow (scalarValues aggregates rows))),
     mkScalarAggregateOp [] aggregates
       (sa_outputSchema (NewScalarAggregateOp (map PullRow rows) aggregates))
       true (Some (mkRow (scalarValues aggregates rows)))).
Proof.
  unfold ScalarAggregateOp_Next, NewScalarAggregateOp.
  cbn [sa_computed sa_aggregates sa_input sa_outputSchema sa_resultRow].
  now rewrite aggregate_facts.aggregateAll_rows.
Qed.

(** X17. Over an upstream that yields rows and then ends, a scalar
    aggregate returns exactly one row and then the end of the stream;
    the row has one value per aggregate, as its schema has one column
    name and one type per aggregate. *)
Theorem ScalarAggregateOp_one_row (aggregates : list AggregateExpr) (rows : list Row)
        (extra : nat) :
  let s := NewScalarAggregateOp (map PullRow rows) aggregates in
  fst (stream ScalarAggregateOp_Next (2 + extra) s)
  = [PullRow (mkRow (scalarValues aggregates rows))]
  /\ length (scalarValues aggregates rows) = length aggregates
  /\ length (Columns (sa_outputSchema s)) = length aggregates
  /\ length (Types (sa_outputSchema s)) = length aggregates.
Proof.
  cbv zeta. split; [|split; [apply scalarValues_length|split]].
  - change (2 + extra)%nat with (S (S extra)).
    rewrite (stream_facts.stream_row _ _ _ _ _ (ScalarAggregateOp_Next_rows aggregates rows)).
    cbn [fst]. now rewrite stream_facts.stream_end with (s' := mkScalarAggregateOp [] aggregates
       (sa_outputSchema (NewScalarAggregateOp (map PullRow rows) aggregates))
       true (Some (mkRow (scalarValues aggregates rows)))).
  - cbn. now rewrite length_imap.
  - cbn. now rewrite length_map.
Qed.

Lemma aggregateAll_error (aggregates : list AggregateExpr) (before : list Row)
      (msg : string) (after : Input) :
  forall states,
    aggregateAll aggregates (map PullRow before ++ PullErr msg :: after)%list states
    = (Err msg, after).
Proof.
  induction before as [|row before IH]; intros states; [reflexivity|].
  cbn [map app aggregateAll]. apply IH.
Qed.

(** X18. An upstream error is passed on by the scalar aggregate,
    which stays as new over the rest of the upstream: the call after
    the error starts over, and its row aggregates the rows after the
    error only. *)
Theorem ScalarAggregateOp_error_starts_over (aggregates : list AggregateExpr)
        (before after : list Row) (msg : string) :
  let s := NewScalarAggregateOp
             (map PullRow before ++ PullErr msg :: map PullRow after)%list aggregates in
  ScalarAggregateOp_Next s = (Err msg, NewScalarAggregateOp (map PullRow after) aggregates)
  /\ fst (ScalarAggregateOp_Next (snd (ScalarAggregateOp_Next s)))
     = Ok (Some (mkRow (scalarValues aggregates after))).
Proof.
  cbv zeta.
  assert (ScalarAggregateOp_Next
            (NewScalarAggregateOp
               (map PullRow before ++ PullErr msg :: map PullRow after)%list aggregates)
          = (Err msg, NewScalarAggregateOp (map PullRow after) aggregates)) as ->.
  { unfold ScalarAggregateOp_Next, NewScalarAggregateOp.
    cbn [sa_computed sa_aggregates sa_input sa_outputSchema sa_resultRow].
    now rewrite aggregateAll_error. }
  split; [reflexivity|]. cbn [snd]. now rewrite ScalarAggregateOp_Next_rows.
Qed.

End scalar_aggregate_facts.

(** ** The grouped aggregate as a stream *)

Module hash_aggregate_facts.
Import operators.

Local Open Scope list_scope.

(** The keys of a sequence in the order of their first occurrence;
    [seen] holds the keys met so far. *)
Fixpoint first_seen (seen keys : list string) : list string :=
  match keys with
  | [] => []
  | k :: keys' =>
      if decide (k ∈ seen) then first_seen seen keys'
      else k :: first_seen (k :: seen) keys'
  end.

Lemma first_seen_snoc (keys : list string) (k : string) :
  forall seen,
    first_seen seen (keys ++ [k])
    = first_seen seen keys ++ if decide (k ∈ seen ++ keys) then [] else [k].
Proof.
  induction keys as [|x keys IH]; intros seen; cbn [app first_seen].
  - rewrite app_nil_r. now destruct (decide (k ∈ seen)).
  - destruct (decide (x ∈ seen)) as [Hx|Hx]; rewrite IH; cbn [app].
    + destruct (decide (k ∈ seen ++ keys)) as [H1|H1],
               (decide (k ∈ seen ++ x :: keys)) as [H2|H2];
        [reflexivity | exfalso; apply H2 | exfalso; apply H1 | reflexivity];
        revert H1 H2; rewrite ?elem_of_cons, !elem_of_app, ?elem_of_cons;
        intuition (subst; auto).
    + destruct (decide (k ∈ x :: seen ++ keys)) as [H1|H1],
               (decide (k ∈ seen ++ x :: keys)) as [H2|H2];
        [reflexivity | exfalso; apply H2 | exfalso; apply H1 | reflexivity];
        revert H1 H2; rewrite ?elem_of_cons, !elem_of_app, ?elem_of_cons;
        intuition (subst; auto).
Qed.

Lemma first_seen_length (keys : list string) :
  forall seen, (length (first_seen seen keys) <= length keys)%nat.
Proof.
  induction keys as [|k keys IH]; intros seen; cbn [first_seen length]; [lia|].
  destruct (decide (k ∈ seen)); cbn [length].
  - specialize (IH seen). lia.
  - specialize (IH (k :: seen)). lia.
Qed.

Lemma first_seen_elem (keys : list string) (k : string) :
  forall seen, k ∈ first_seen seen keys <-> k ∈ keys /\ k ∉ seen.
Proof.
  induction keys as [|x keys IH]; intros seen; cbn [first_seen].
  - split; [intros Hk; now apply elem_of_nil in Hk | intros [Hk _]; now apply elem_of_nil in Hk].
  - destruct (decide (x ∈ seen)) as [Hx|Hx].
    + rewrite IH. split; intros [H1 H2]; (split; [|exact H2]).
      * now right.
      * apply elem_of_cons in H1 as [->|H1]; [contradiction | exact H1].
    + rewrite elem_of_cons, IH. split.
      * intros [->|[H1 H2]]; [split; [left | exact Hx]|].
        split; [now right|]. intros Hs. apply H2. now right.
      * intros [H1 H2]. destruct (decide (k = x)) as [->|Hne]; [now left|]. right.
        apply elem_of_cons in H1 as [->|H1]; [contradiction|].
        split; [exact H1|]. intros Hs. apply elem_of_cons in Hs as [->|Hs]; contradiction.
Qed.

Lemma first_seen_NoDup (keys : list string) :
  forall seen, NoDup (first_seen seen keys).
Proof.
  induction keys as [|k keys IH]; intros seen; cbn [first_seen]; [constructor|].
  destruct (decide (k ∈ seen)); [apply IH|].
  apply NoDup_cons. split; [|apply IH].
  rewrite first_seen_elem. intros [_ Hk]. apply Hk. left.
Qed.

Section facts.
Context `{Platform}.
Variables (groupByIndices : list Z) (aggregates : list AggregateExpr).

(** The rows of a group. *)
Definition members (key : string) (rows : list Row) : list Row :=
  filter (fun row => buildGroupKey groupByIndices row = key) rows.

(** The output row of a group: the group-by values of its first row,
    then the values of the aggregates over its rows. *)
Definition groupRow (key : string) (rows : list Row) : Row :=
  match members key rows with
  | [] => mkRow []
  | first :: _ =>
      mkRow (groupKeyValues groupByIndices first
             ++ scalar_aggregate_facts.scalarValues aggregates (members key rows))
  end.

(** The state a group is in after the rows [done]. *)
Definition groupOf (key : string) (done : list Row) : option groupState :=
  match members key done with
  | [] => None
  | first :: _ =>
      Some (mkGroupState (groupKeyValues groupByIndices first)
              (fold_left (updateStates aggregates) (members key done)
                         (replicate (length aggregates) initState)))
  end.

Definition built (done : list Row) (acc : gmap string groupState * list string) : Prop :=
  snd acc = first_seen [] (map (buildGroupKey groupByIndices) done)
  /\ forall key, fst acc !! key = groupOf key done.

Lemma members_snoc (key : string) (done : list Row) (row : Row) :
  members key (done ++ [row])
  = (members key done
     ++ if decide (buildGroupKey groupByIndices row = key) then [row] else [])%list.
Proof.
  unfold members. now rewrite filter_app.
Qed.

Lemma members_nil_iff (key : string) (done : list Row) :
  members key done = [] <-> key ∉ map (buildGroupKey groupByIndices) done.
Proof.
  unfold members. induction done as [|row done IH]; cbn [map].
  - split; [intros _; apply not_elem_of_nil | reflexivity].
  - rewrite filter_cons, not_elem_of_cons.
    destruct (decide (buildGroupKey groupByIndices row = key)) as [E|E].
    + split; [discriminate | intros [Hne _]; now symmetry in E].
    + rewrite IH. split; [intros Hk; split; [congruence | exact Hk] | now intros [_ Hk]].
Qed.

Lemma addRow_built (done : list Row) (acc : gmap string groupState * list string)
      (row : Row) :
  built done acc -> built (done ++ [row]) (addRow groupByIndices aggregates acc row).
Proof.
  destruct acc as [groups keys]. intros [Hkeys Hgroups]. cbn [fst snd] in *.
  unfold addRow. set (k0 := buildGroupKey groupByIndices row).
  pose proof (Hgroups k0) as Hk0. unfold groupOf in Hk0.
  destruct (members k0 done) as [|first rest] eqn:Hm.
  - (* A new group. *)
    rewrite Hk0. cbn [keyValues gs_states]. split; cbn [fst snd].
    + rewrite map_app. cbn [map]. rewrite first_seen_snoc, <- Hkeys. f_equal.
      apply members_nil_iff in Hm. now rewrite decide_False.
    + intros key. unfold groupOf. rewrite members_snoc.
      destruct (decide (k0 = key)) as [<-|Hne].
      * rewrite lookup_insert_eq, Hm. rewrite decide_True by reflexivity. reflexivity.
      * rewrite lookup_insert_ne by exact Hne. rewrite decide_False by exact Hne.
        rewrite app_nil_r. apply Hgroups.
  - (* A group met before. *)
    rewrite Hk0. cbn [keyValues gs_states]. split; cbn [fst snd].
    + rewrite map_app. cbn [map]. rewrite first_seen_snoc, <- Hkeys.
      rewrite decide_True; [now rewrite app_nil_r|].
      cbn [app]. destruct (decide (k0 ∈ map (buildGroupKey groupByIndices) done)) as [Hin|Hout];
        [exact Hin|]. apply members_nil_iff in Hout. congruence.
    + intros key. unfold groupOf. rewrite members_snoc.
      destruct (decide (k0 = key)) as [<-|Hne].
      * rewrite lookup_insert_eq, Hm. rewrite decide_True by reflexivity.
        cbn [app]. f_equal. f_equal.
        change (first :: (rest ++ [row]))%list with ((first :: rest) ++ [row])%list.
        now rewrite fold_left_app.
      * rewrite lookup_insert_ne by exact Hne. rewrite decide_False by exact Hne.
        rewrite app_nil_r. apply Hgroups.
Qed.

Lemma computeGroupsInPlace_rows (rows : list Row) :
  forall done acc,
    built done acc ->
    exists acc',
      computeGroupsInPlace groupByIndices aggregates (map PullRow rows) acc
      = (None, acc', [])
      /\ built (done ++ rows) acc'.
Proof.
  induction rows as [|row rows IH]; intros done acc Hb.
  - exists acc. rewrite app_nil_r. now split.
  - cbn [map computeGroupsInPlace].
    destruct (IH (done ++ [row])%list _ (addRow_built done acc row Hb)) as (acc' & -> & Hb').
    exists acc'. split; [reflexivity|]. now rewrite <- app_assoc in Hb'.
Qed.

Lemma built_empty : built [] (∅, []).
Proof. split; [reflexivity|]. intros key. cbn. apply lookup_empty. Qed.

(** The row that [Next] returns for a key whose group is built. *)
Lemma groupOf_row (key : string) (rows : list Row) (group : groupState) :
  groupOf key rows = Some group ->
  mkRow (keyValues group ++ zip_with finalizeState (gs_states group) aggregates)
  = groupRow key rows.
Proof.
  unfold groupOf, groupRow. destruct (members key rows) as [|first rest]; [discriminate|].
  now intros [= <-].
Qed.

(** Once the groups are built, the calls of [Next] walk the keys. *)
Lemma HashAggregateOp_stream_keys (schema : Schema) (rows : list Row)
      (groups : gmap string groupState) (keys : list string) (fuel : nat) :
  (forall key, key ∈ keys -> groups !! key = groupOf key rows) ->
  (forall key, key ∈ keys -> members key rows <> []) ->
  Z.of_nat (length keys) < 2 ^ 63 ->
  forall i : nat,
    (i <= length keys)%nat -> (length keys - i < fuel)%nat ->
    fst (stream HashAggregateOp_Next fuel
                (mkHashAggregateOp [] groupByIndices aggregates schema true groups keys
                                   (Z.of_nat i)))
    = map (fun key => PullRow (groupRow key rows)) (drop i keys).
Proof.
  intros Hgroups Hmem Hlen. induction fuel as [|fuel IH]; intros i Hi Hfuel; [lia|].
  destruct (decide (i = length keys)) as [->|Hne].
  - rewrite drop_all. cbn [map].
    rewrite stream_facts.stream_end
      with (s' := mkHashAggregateOp [] groupByIndices aggregates schema true groups keys
                                    (Z.of_nat (length keys))); [reflexivity|].
    unfold HashAggregateOp_Next.
    cbn [ha_computed ha_groups ha_keys ha_input ha_groupByIndices ha_aggregates
         ha_outputSchema ha_keyIndex].
    replace (Z.of_nat (length keys) >=? len keys) with true; [reflexivity|].
    symmetry. rewrite Z.geb_leb. apply Z.leb_le. unfold len. lia.
  - destruct (lookup_lt_is_Some_2 keys i) as [key Hkey]; [lia|].
    assert (key ∈ keys) as Hin by (apply list_elem_of_lookup; now exists i).
    pose proof (Hgroups key Hin) as Hg. pose proof (Hmem key Hin) as Hm.
    destruct (groupOf key rows) as [group|] eqn:Hgo.
    2:{ unfold groupOf in Hgo. destruct (members key rows); [contradiction | discriminate]. }
    rewrite (stream_facts.stream_row _ _ _
               (mkHashAggregateOp [] groupByIndices aggregates schema true groups keys
                                  (Z.of_nat (S i)))
               (groupRow key rows)).
    + cbn [fst]. rewrite IH by lia. rewrite (drop_S _ _ _ Hkey). reflexivity.
    + unfold HashAggregateOp_Next.
      cbn [ha_computed ha_groups ha_keys ha_input ha_groupByIndices ha_aggregates
           ha_outputSchema ha_keyIndex].
      replace (Z.of_nat i >=? len keys) with false
        by (symmetry; rewrite Z.geb_leb; apply Z.leb_gt; unfold len; lia).
      replace (Z.of_nat i <? 0) with false by (symmetry; apply Z.ltb_ge; lia).
      rewrite Nat2Z.id, Hkey, Hg. rewrite (groupOf_row key rows group Hgo).
      rewrite aggregate_facts.wrap64_small by lia.
      do 3 f_equal. lia.
Qed.

Lemma HashAggregateOp_stream_groups (schema : Schema) (rows : list Row)
        (h : HashAggregateOp) (extra : nat) :
  Z.of_nat (length rows) < 2 ^ 63 ->
  NewHashAggregateOp (map PullRow rows) schema groupByIndices aggregates = Some h ->
  fst (stream HashAggregateOp_Next (S (length rows) + extra) h)
  = map (fun key => PullRow (groupRow key rows))
        (first_seen [] (map (buildGroupKey groupByIndices) rows)).
Proof.
  intros Hlen Hnew. unfold NewHashAggregateOp in Hnew.
  destruct (mapM (projectColumn schema) groupByIndices) as [cols|]; [|discriminate].
  injection Hnew as <-.
  set (out := mkSchema _ _).
  destruct (computeGroupsInPlace_rows rows [] (∅, []) built_empty)
    as ([groups keys] & Hcompute & Hkeys & Hgroups).
  cbn [app fst snd] in Hkeys, Hgroups.
  pose proof (first_seen_length (map (buildGroupKey groupByIndices) rows) []) as Hk.
  rewrite length_map, <- Hkeys in Hk.
  assert (HashAggregateOp_Next
            (mkHashAggregateOp (map PullRow rows) groupByIndices aggregates out false ∅ [] 0)
          = HashAggregateOp_Next
              (mkHashAggregateOp [] groupByIndices aggregates out true groups keys 0))
    as Hnext.
  { unfold HashAggregateOp_Next.
    cbn [ha_computed ha_groups ha_keys ha_input ha_groupByIndices ha_aggregates
         ha_outputSchema ha_keyIndex].
    now rewrite Hcompute. }
  cbn [Nat.add stream]. rewrite Hnext.
  change (fst (stream HashAggregateOp_Next (S (length rows + extra))
                      (mkHashAggregateOp [] groupByIndices aggregates out true groups keys
                                         (Z.of_nat 0)))
          = map (fun key => PullRow (groupRow key rows))
                (first_seen [] (map (buildGroupKey groupByIndices) rows))).
  rewrite (HashAggregateOp_stream_keys out rows groups keys); try lia.
  - now rewrite drop_0, Hkeys.
  - intros key _. apply Hgroups.
  - intros key Hin. rewrite Hkeys in Hin. apply first_seen_elem in Hin as [Hin _].
    intros E. apply members_nil_iff in E. contradiction.
Qed.

(** X19. Over an upstream that yields rows and then ends, a grouped
    aggregate returns one row per distinct key, in the order in which
    the keys first occur; the row of a group holds the group-by
    values of the first row of the group, followed by the values a
    scalar aggregate computes over the rows of the group. *)
Theorem HashAggregateOp_returns_groups (schema : Schema) (rows : list Row)
        (h : HashAggregateOp) (extra : nat) :
  Z.of_nat (length rows) < 2 ^ 63 ->
  NewHashAggregateOp (map PullRow rows) schema groupByIndices aggregates = Some h ->
  fst (stream HashAggregateOp_Next (S (length rows) + extra) h)
  = map (fun key => PullRow (groupRow key rows))
        (first_seen [] (map (buildGroupKey groupByIndices) rows)).
Proof. apply HashAggregateOp_stream_groups. Qed.

Lemma computeGroupsInPlace_app (before : list Row) (rest : Input) :
  forall acc,
    computeGroupsInPlace groupByIndices aggregates (map PullRow before ++ rest) acc
    = computeGroupsInPlace groupByIndices aggregates rest
        (fold_left (addRow groupByIndices aggregates) before acc).
Proof.
  induction before as [|row before IH]; intros acc; [reflexivity|].
  cbn [map app computeGroupsInPlace fold_left]. apply IH.
Qed.

(** X20. An upstream error is passed on by the grouped aggregate,
    which keeps the groups built from the rows before it: the calls
    after the error return what the operator returns over the same
    rows without the error. *)
Theorem HashAggregateOp_error_resumes (schema : Schema) (before after : list Row)
        (msg : string) (h h' : HashAggregateOp) (fuel : nat) :
  NewHashAggregateOp (map PullRow before ++ PullErr msg :: map PullRow after) schema
                     groupByIndices aggregates = Some h ->
  NewHashAggregateOp (map PullRow (before ++ after)) schema groupByIndices aggregates
  = Some h' ->
  fst (HashAggregateOp_Next h) = Err msg
  /\ fst (stream HashAggregateOp_Next (S fuel) (snd (HashAggregateOp_Next h)))
     = fst (stream HashAggregateOp_Next (S fuel) h').
Proof.
  unfold NewHashAggregateOp. intros Hh Hh'.
  destruct (mapM (projectColumn schema) groupByIndices) as [cols|]; [|discriminate].
  injection Hh as <-. injection Hh' as <-. set (out := mkSchema _ _).
  destruct (fold_left (addRow groupByIndices aggregates) before (∅, [])) as [groups keys]
    eqn:Hacc.
  assert (HashAggregateOp_Next
            (mkHashAggregateOp (map PullRow before ++ PullErr msg :: map PullRow after)
                               groupByIndices aggregates out false ∅ [] 0)
          = (Err msg, mkHashAggregateOp (map PullRow after) groupByIndices aggregates out
                                        false groups keys 0)) as ->.
  { unfold HashAggregateOp_Next.
    cbn [ha_computed ha_groups ha_keys ha_input ha_groupByIndices ha_aggregates
         ha_outputSchema ha_keyIndex].
    rewrite computeGroupsInPlace_app, Hacc. reflexivity. }
  cbn [fst snd]. split; [reflexivity|].
  assert (HashAggregateOp_Next
            (mkHashAggregateOp (map PullRow after) groupByIndices aggregates out
                               false groups keys 0)
          = HashAggregateOp_Next
              (mkHashAggregateOp (map PullRow (before ++ after)) groupByIndices aggregates
                                 out false ∅ [] 0)) as Hnext.
  { unfold HashAggregateOp_Next.
    cbn [ha_computed ha_groups ha_keys ha_input ha_groupByIndices ha_aggregates
         ha_outputSchema ha_keyIndex].
    rewrite map_app, computeGroupsInPlace_app, Hacc. reflexivity. }
  cbn [stream]. now rewrite Hnext.
Qed.

End facts.

Section count_star.
Context `{Platform}.
Variables (groupByIndices : list Z) (alias : string).

Lemma scalarValues_count_star (rows : list Row) :
  len rows < 2 ^ 63 ->
  scalar_aggregate_facts.scalarValues [mkAggregateExpr types.Count (-1) alias] rows
  = [VInt (len rows)].
Proof.
  intros Hlen. unfold scalar_aggregate_facts.scalarValues.
  cbn [length replicate].
  pose proof (aggregate_facts.updateStates_lookup
                [mkAggregateExpr types.Count (-1) alias] rows [initState] 0
                (mkAggregateExpr types.Count (-1) alias) initState eq_refl eq_refl) as Hst.
  pose proof (scalar_aggregate_facts.updateStates_length
                [mkAggregateExpr types.Count (-1) alias] rows [initState] eq_refl) as Hl.
  destruct (fold_left _ rows [initState]) as [|state [|? ?]]; try discriminate.
  cbn in Hst. injection Hst as ->. cbn [zip_with finalizeState agg_Type].
  rewrite aggregate_facts.stateAfter_count; cbn [st_count initState]; [|lia|unfold len in *; lia].
  reflexivity.
Qed.

Lemma indicator_sum (keys : list string) (k0 : string) :
  NoDup keys -> k0 ∈ keys ->
  sum_list (map (fun k => if decide (k0 = k) then 1%nat else 0%nat) keys) = 1%nat.
Proof.
  induction 1 as [|k keys Hk Hnd IH]; intros Hin; [now apply elem_of_nil in Hin|].
  cbn [map sum_list]. destruct (decide (k0 = k)) as [->|Hne].
  - assert (sum_list (map (fun k' => if decide (k = k') then 1%nat else 0%nat) keys) = 0%nat)
      as ->; [|reflexivity].
    clear IH Hin Hnd. induction keys as [|k' keys IH]; [reflexivity|].
    cbn [map sum_list]. apply not_elem_of_cons in Hk as [Hne Hk].
    rewrite decide_False by exact Hne. now rewrite IH.
  - apply elem_of_cons in Hin as [->|Hin]; [contradiction|]. now rewrite IH.
Qed.

Lemma members_partition (keys : list string) (rows : list Row) :
  NoDup keys ->
  (forall row, row ∈ rows -> buildGroupKey groupByIndices row ∈ keys) ->
  sum_list (map (fun k => length (members groupByIndices k rows)) keys) = length rows.
Proof.
  intros Hnd. induction rows as [|row rows IH]; intros Hall.
  - cbn. induction keys as [|k keys IHk]; [reflexivity|].
    cbn [map sum_list]. apply NoDup_cons in Hnd as [_ Hnd]. now rewrite IHk.
  - transitivity
      (sum_list (map (fun k => if decide (buildGroupKey groupByIndices row = k)
                               then 1%nat else 0%nat) keys)
       + sum_list (map (fun k => length (members groupByIndices k rows)) keys))%nat.
    + clear IH Hall Hnd. induction keys as [|k keys IHk]; [reflexivity|].
      cbn [map sum_list]. rewrite IHk.
      assert (length (members groupByIndices k (row :: rows))
              = ((if decide (buildGroupKey groupByIndices row = k) then 1 else 0)
                 + length (members groupByIndices k rows))%nat) as ->;
        [|unfold id; destruct (decide (buildGroupKey groupByIndices row = k)); lia].
      unfold members. rewrite filter_cons.
      now destruct (decide (buildGroupKey groupByIndices row = k)).
    + rewrite (indicator_sum keys _ Hnd (Hall row ltac:(left))).
      rewrite IH by (intros r Hr; apply Hall; now right). reflexivity.
Qed.

(** X21. Grouped by any columns, COUNT over all rows gives each group
    the number of input rows of the group, and these numbers add up
    to the number of input rows. *)
Theorem HashAggregateOp_count_star (schema : Schema) (rows : list Row)
        (h : HashAggregateOp) (extra : nat) :
  Z.of_nat (length rows) < 2 ^ 63 ->
  NewHashAggregateOp (map PullRow rows) schema groupByIndices
                     [mkAggregateExpr types.Count (-1) alias] = Some h ->
  let keys := first_seen [] (map (buildGroupKey groupByIndices) rows) in
  let group key := members groupByIndices key rows in
  fst (stream HashAggregateOp_Next (S (length rows) + extra) h)
  = map (fun key =>
           PullRow (mkRow (match group key with
                           | first :: _ => groupKeyValues groupByIndices first
                           | [] => []
                           end ++ [VInt (len (group key))])))
        keys
  /\ sum_list (map (fun key => length (group key)) keys) = length rows.
Proof.
  intros Hlen Hnew. cbv zeta. split.
  - rewrite (HashAggregateOp_stream_groups groupByIndices
               [mkAggregateExpr types.Count (-1) alias] schema rows h extra Hlen Hnew).
    apply map_ext_in. intros key Hin. apply list_elem_of_In in Hin.
    apply first_seen_elem in Hin as [Hin _]. f_equal. unfold groupRow.
    pose proof (members_nil_iff groupByIndices key rows) as Hnil.
    destruct (members groupByIndices key rows) as [|first rest] eqn:Hm.
    + exfalso. now apply Hnil.
    + rewrite <- Hm. rewrite scalarValues_count_star; [reflexivity|].
      unfold len, members. pose proof (length_filter (fun row => buildGroupKey groupByIndices row = key) rows).
      lia.
  - apply members_partition; [apply first_seen_NoDup|].
    intros row Hrow. apply first_seen_elem. split; [|apply not_elem_of_nil].
    apply list_elem_of_fmap. now exists row.
Qed.

End count_star.

#[local] Existing Instance sample.platform.

(** Three rows in two groups, counted. *)
Example HashAggregateOp_counts_groups :
  match NewHashAggregateOp
          (map PullRow [mkRow [VString "a"; VInt 1]; mkRow [VString "b"; VInt 2];
                        mkRow [VString "a"; VInt 3]])
          (mkSchema ["k"; "v"] [types.String; types.Int]) [0]
          [mkAggregateExpr types.Count (-1) "n"] with
  | Some h =>
      ha_outputSchema h = mkSchema ["k"; "n"] [types.String; types.Int]
      /\ fst (stream HashAggregateOp_Next 4 h)
         = [PullRow (mkRow [VString "a"; VInt 2]); PullRow (mkRow [VString "b"; VInt 1])]
  | None => False
  end.
Proof. vm_compute. split; reflexivity. Qed.

Lemma HashAggregateOp_returns_groups_witness :
  exists h,
    NewHashAggregateOp
      (map PullRow [mkRow [VString "a"; VInt 1]; mkRow [VString "b"; VInt 2];
                    mkRow [VString "a"; VInt 3]])
      (mkSchema ["k"; "v"] [types.String; types.Int]) [0]
      [mkAggregateExpr types.Sum 1 "s"] = Some h
    /\ fst (stream HashAggregateOp_Next 4 h)
       = map (fun key =>
                PullRow (groupRow [0] [mkAggregateExpr types.Sum 1 "s"] key
                           [mkRow [VString "a"; VInt 1]; mkRow [VString "b"; VInt 2];
                            mkRow [VString "a"; VInt 3]]))
             (first_seen [] (map (buildGroupKey [0])
                [mkRow [VString "a"; VInt 1]; mkRow [VString "b"; VInt 2];
                 mkRow [VString "a"; VInt 3]])).
Proof.
  eexists. split; [reflexivity|].
  apply (HashAggregateOp_returns_groups [0] [mkAggregateExpr types.Sum 1 "s"]
           (mkSchema ["k"; "v"] [types.String; types.Int])
           [mkRow [VString "a"; VInt 1]; mkRow [VString "b"; VInt 2];
            mkRow [VString "a"; VInt 3]] _ 0); reflexivity.
Defined.

Lemma HashAggregateOp_error_resumes_witness :
  exists h h',
    NewHashAggregateOp [PullRow (mkRow [VString "a"]); PullErr "read"; PullRow (mkRow [VString "a"])]
      (mkSchema ["k"] [types.String]) [0] [mkAggregateExpr types.Count (-1) "n"] = Some h
    /\ NewHashAggregateOp [PullRow (mkRow [VString "a"]); PullRow (mkRow [VString "a"])]
         (mkSchema ["k"] [types.String]) [0] [mkAggregateExpr types.Count (-1) "n"] = Some h'
    /\ fst (HashAggregateOp_Next h) = Err "read"
    /\ fst (stream HashAggregateOp_Next 3 (snd (HashAggregateOp_Next h)))
       = fst (stream HashAggregateOp_Next 3 h').
Proof.
  eexists _, _. split; [reflexivity|]. split; [reflexivity|].
  apply (HashAggregateOp_error_resumes [0] [mkAggregateExpr types.Count (-1) "n"]
           (mkSchema ["k"] [types.String]) [mkRow [VString "a"]] [mkRow [VString "a"]]
           "read" _ _ 2); reflexivity.
Defined.

Lemma HashAggregateOp_count_star_witness :
  exists h,
    NewHashAggregateOp
      (map PullRow [mkRow [VString "a"]; mkRow [VString "b"]; mkRow [VString "a"]])
      (mkSchema ["k"] [types.String]) [0] [mkAggregateExpr types.Count (-1) "n"] = Some h
    /\ fst (stream HashAggregateOp_Next 4 h)
       = [PullRow (mkRow [VString "a"; VInt 2]); PullRow (mkRow [VString "b"; VInt 1])].
Proof.
  eexists. split; [reflexivity|].
  destruct (HashAggregateOp_count_star [0] "n" (mkSchema ["k"] [types.String])
              [mkRow [VString "a"]; mkRow [VString "b"]; mkRow [VString "a"]] _ 0
              ltac:(reflexivity) eq_refl) as [Hstream _].
  etransitivity; [exact Hstream|]. vm_compute. reflexivity.
Defined.

End hash_aggregate_facts.

(** ** Run files *)

Module run_file_facts.
Import operators.

Local Open Scope list_scope.

Section facts.
Context `{Platform} `{SliceSorter}.

(** A row that a run file gives back as it is: a column of the
    schema holds a value of its type, an [int64] within its range and
    a float that its own text parses to; a column beyond the schema
    holds a string. *)
Fixpoint conforms (vals : list Value) (colTypes : list types.DataType) : Prop :=
  match vals with
  | [] => True
  | v :: vals' =>
      match colTypes with
      | [] => (exists s, v = VString s) /\ conforms vals' []
      | t :: colTypes' =>
          match t, v with
          | types.Int, VInt z => in_int64 z = true
          | types.Float, VFloat f => ParseFloat (FormatFloat f) = Some f
          | types.String, VString _ => True
          | _, _ => False
          end /\ conforms vals' colTypes'
      end
  end.

(** X22. A row that conforms to the schema comes back from a run file
    as it was written. *)
Theorem run_file_round_trip (schema : Schema) (row : Row) :
  conforms (Values row) (Types schema) ->
  recordToRow schema (rowToRecord row) = row.
Proof.
  destruct row as [vals]. unfold recordToRow, rowToRecord. cbn [Values]. intros Hc.
  f_equal. revert Hc. generalize (Types schema) as colTypes.
  induction vals as [|v vals IH]; intros colTypes Hc; [reflexivity|].
  cbn [map parseRecord]. destruct colTypes as [|t colTypes]; cbn [conforms] in Hc.
  - destruct Hc as [[s ->] Hc]. f_equal. now apply IH.
  - destruct Hc as [Hv Hc]. f_equal; [|now apply IH].
    destruct t, v; try contradiction; unfold parseValue.
    + now rewrite strconv_facts.ParseInt_FormatInt.
    + now rewrite Hv.
    + reflexivity.
Qed.

(** *** The size and the number of the runs *)





(** *** The order of the sort column *)

Lemma ascii_compare_refl (x : ascii) : Ascii.compare x x = Eq.
Proof. unfold Ascii.compare. apply N.compare_refl. Qed.

Lemma ascii_compare_trans (x y z : ascii) :
  Ascii.compare x y = Lt -> Ascii.compare y z = Lt -> Ascii.compare x z = Lt.
Proof. unfold Ascii.compare. rewrite !N.compare_lt_iff. lia. Qed.

Lemma string_compare_trans (a : string) :
  forall b c, String.compare a b = Lt -> String.compare b c = Lt -> String.compare a c = Lt.
Proof.
  induction a as [|x a IH]; intros [|y b] [|z c]; cbn; try discriminate; auto.
  destruct (Ascii.compare x y) eqn:Exy; try discriminate;
    destruct (Ascii.compare y z) eqn:Eyz; try discriminate; intros Hab Hbc.
  - apply Ascii.compare_eq_iff in Exy, Eyz. subst. rewrite ascii_compare_refl.
    now apply IH with b.
  - apply Ascii.compare_eq_iff in Exy. subst. now rewrite Eyz.
  - apply Ascii.compare_eq_iff in Eyz. subst. now rewrite Exy.
  - now rewrite (ascii_compare_trans x y z).
Qed.

Lemma string_lt_irrefl (a : string) : golang.string_lt a a = false.
Proof.
  unfold golang.string_lt. destruct (String.compare a a) eqn:E; try reflexivity.
  pose proof (String.compare_antisym a a) as Ha. rewrite E in Ha. discriminate.
Qed.

Lemma string_lt_trans (a b c : string) :
  golang.string_lt a b = true -> golang.string_lt b c = true -> golang.string_lt a c = true.
Proof.
  unfold golang.string_lt.
  destruct (String.compare a b) eqn:Eab; try discriminate.
  destruct (String.compare b c) eqn:Ebc; try discriminate.
  now rewrite (string_compare_trans a b c Eab Ebc).
Qed.

Lemma string_lt_total (a b : string) :
  golang.string_lt a b = false -> golang.string_lt b a = false -> a = b.
Proof.
  unfold golang.string_lt. rewrite (String.compare_antisym a b).
  destruct (String.compare b a) eqn:E; cbn; try discriminate.
  intros _ _. symmetry. now apply String.compare_eq_iff.
Qed.

Lemma string_lt_negtrans (a b c : string) :
  golang.string_lt a b = false -> golang.string_lt b c = false ->
  golang.string_lt a c = false.
Proof.
  intros Hab Hbc. destruct (golang.string_lt a c) eqn:Hac; [|reflexivity].
  destruct (golang.string_lt b a) eqn:Hba.
  - now rewrite (string_lt_trans b a c Hba Hac) in Hbc.
  - rewrite (string_lt_total a b Hab Hba) in Hac. congruence.
Qed.

(** The key of a row: the value of the sort column, when the row has
    that column. *)
Definition sortKey (col : Z) (row : Row) : option Value :=
  if (col <? 0) || (col >=? len (Values row)) then None
  else Some (golang.index (Values row) col).

Lemma rowLess_int (col : Z) (dsc : bool) (a b : Row) (x y : Z) :
  sortKey col a = Some (VInt x) -> sortKey col b = Some (VInt y) ->
  rowLess col dsc a b = if dsc then y <? x else x <? y.
Proof.
  unfold sortKey, rowLess, compareRows. intros Ha Hb.
  destruct ((col <? 0) || (col >=? len (Values a))) eqn:Ea; [discriminate|].
  destruct ((col <? 0) || (col >=? len (Values b))) eqn:Eb; [discriminate|].
  apply orb_false_iff in Ea as [E0 Ea]. apply orb_false_iff in Eb as [_ Eb].
  rewrite ?E0, ?Ea, ?Eb. cbn [orb]. injection Ha as ->. injection Hb as ->.
  destruct (Z.ltb_spec x y), (Z.gtb_spec x y), (Z.ltb_spec y x), dsc; cbn; lia.
Qed.

Lemma rowLess_string (col : Z) (dsc : bool) (a b : Row) (x y : string) :
  sortKey col a = Some (VString x) -> sortKey col b = Some (VString y) ->
  rowLess col dsc a b = if dsc then golang.string_lt y x else golang.string_lt x y.
Proof.
  unfold sortKey, rowLess, compareRows. intros Ha Hb.
  destruct ((col <? 0) || (col >=? len (Values a))) eqn:Ea; [discriminate|].
  destruct ((col <? 0) || (col >=? len (Values b))) eqn:Eb; [discriminate|].
  apply orb_false_iff in Ea as [E0 Ea]. apply orb_false_iff in Eb as [_ Eb].
  rewrite ?E0, ?Ea, ?Eb. cbn [orb]. injection Ha as ->. injection Hb as ->.
  assert (golang.string_lt x y = true -> golang.string_lt y x = true -> False) as Hasym.
  { intros E1 E2. pose proof (string_lt_trans x y x E1 E2) as E.
    now rewrite string_lt_irrefl in E. }
  destruct (golang.string_lt x y) eqn:Exy, (golang.string_lt y x) eqn:Eyx, dsc;
    cbn; try reflexivity; exfalso; now apply Hasym.
Qed.

(** X24. On rows that all hold an [int64] in the sort column, or all
    a string, the comparison of the sort, ascending or descending, is
    a strict weak order: the order [sort.Slice] requires. *)
Theorem rowLess_strict_weak (col : Z) (dsc : bool) (rows : list Row) :
  Forall (fun row => exists x, sortKey col row = Some (VInt x)) rows
  \/ Forall (fun row => exists x, sortKey col row = Some (VString x)) rows ->
  strict_weak (rowLess col dsc) rows.
Proof.
  intros [Hkeys|Hkeys]; rewrite Forall_forall in Hkeys; repeat split.
  - intros a Ha. destruct (Hkeys a Ha) as [x Hx].
    rewrite (rowLess_int col dsc a a x x Hx Hx). destruct dsc; apply Z.ltb_irrefl.
  - intros a b c Ha Hb Hc.
    destruct (Hkeys a Ha) as [x Hx], (Hkeys b Hb) as [y Hy], (Hkeys c Hc) as [z Hz].
    rewrite (rowLess_int col dsc a b x y Hx Hy), (rowLess_int col dsc b c y z Hy Hz),
            (rowLess_int col dsc a c x z Hx Hz).
    destruct dsc; rewrite !Z.ltb_lt; lia.
  - intros a b c Ha Hb Hc.
    destruct (Hkeys a Ha) as [x Hx], (Hkeys b Hb) as [y Hy], (Hkeys c Hc) as [z Hz].
    rewrite (rowLess_int col dsc a b x y Hx Hy), (rowLess_int col dsc b c y z Hy Hz),
            (rowLess_int col dsc a c x z Hx Hz).
    destruct dsc; rewrite !Z.ltb_ge; lia.
  - intros a Ha. destruct (Hkeys a Ha) as [x Hx].
    rewrite (rowLess_string col dsc a a x x Hx Hx). destruct dsc; apply string_lt_irrefl.
  - intros a b c Ha Hb Hc.
    destruct (Hkeys a Ha) as [x Hx], (Hkeys b Hb) as [y Hy], (Hkeys c Hc) as [z Hz].
    rewrite (rowLess_string col dsc a b x y Hx Hy), (rowLess_string col dsc b c y z Hy Hz),
            (rowLess_string col dsc a c x z Hx Hz).
    destruct dsc; intros H1 H2; [now apply string_lt_trans with y|now apply string_lt_trans with y].
  - intros a b c Ha Hb Hc.
    destruct (Hkeys a Ha) as [x Hx], (Hkeys b Hb) as [y Hy], (Hkeys c Hc) as [z Hz].
    rewrite (rowLess_string col dsc a b x y Hx Hy), (rowLess_string col dsc b c y z Hy Hz),
            (rowLess_string col dsc a c x z Hx Hz).
    destruct dsc; intros H1 H2; [now apply string_lt_negtrans with y|now apply string_lt_negtrans with y].
Qed.

End facts.

#[local] Existing Instance sample.platform.
#[local] Existing Instance sort_facts.insertion_sorter.

Lemma run_file_round_trip_witness :
  recordToRow (mkSchema ["id"; "price"; "name"] [types.Int; types.Float; types.String])
              (rowToRecord (mkRow [VInt (-7); VFloat 2.5; VString "ann"; VString "extra"]))
  = mkRow [VInt (-7); VFloat 2.5; VString "ann"; VString "extra"].
Proof.
  apply (run_file_round_trip
           (mkSchema ["id"; "price"; "name"] [types.Int; types.Float; types.String])
           (mkRow [VInt (-7); VFloat 2.5; VString "ann"; VString "extra"])).
  cbn [conforms Values Types].
  split; [reflexivity|]. split; [vm_compute; reflexivity|]. split; [exact I|].
  split; [now exists "extra" | exact I].
Defined.


Lemma rowLess_strict_weak_witness :
  strict_weak (rowLess 1 true)
              [mkRow [VInt 1; VString "b"]; mkRow [VInt 2; VString "a"]].
Proof.
  apply (rowLess_strict_weak 1 true). right.
  repeat constructor; eexists; reflexivity.
Defined.

End run_file_facts.

(** ** The end of the stream is final *)

Module end_of_stream_facts.
Import operators.

Lemma skipRows_returned (offset : Z) (input : Input) :
  forall skipped skipped' input',
    skipRows offset skipped input = (Some (Ok None), skipped', input') ->
    input' = [] /\ skipped' < offset.
Proof.
  induction input as [|[row|msg] input IH]; intros skipped skipped' input';
    cbn [skipRows]; destruct (Z.ltb_spec skipped offset); try discriminate.
  - intros [= <- <-]. auto.
  - apply IH.
Qed.

Lemma skipRows_skipped (offset : Z) (input : Input) :
  forall skipped skipped' input',
    skipRows offset skipped input = (None, skipped', input') ->
    skipRows offset skipped' input' = (None, skipped', input').
Proof.
  induction input as [|[row|msg] input IH]; intros skipped skipped' input';
    cbn [skipRows]; destruct (Z.ltb_spec skipped offset) as [Hlt|Hge]; try discriminate.
  - intros [= <- <-]. cbn. now rewrite (proj2 (Z.ltb_ge skipped offset)).
  - apply IH.
  - intros [= <- <-]. cbn. now rewrite (proj2 (Z.ltb_ge skipped offset)).
  - intros [= <- <-]. cbn. now rewrite (proj2 (Z.ltb_ge skipped offset)).
Qed.

Section facts.
Context `{Platform} `{SliceSorter}.

Lemma CSVScan_end_final (s s' : CSVScan) :
  CSVScan_Next s = (Ok None, s') -> CSVScan_Next s' = (Ok None, s').
Proof.
  unfold CSVScan_Next.
  destruct (firstRowReturned s) eqn:Er, (firstRow s) as [first|] eqn:Ef; try discriminate;
    destruct (scan_reader s) as [|[record|msg] reader]; cbn [csv.Read]; try discriminate;
    intros [= <-]; cbn; reflexivity.
Qed.

Lemma FilterOp_end_final (predicate : Row -> bool) (input input' : Input) :
  FilterOp_Next predicate input = (Ok None, input') ->
  FilterOp_Next predicate input' = (Ok None, input').
Proof.
  induction input as [|[row|msg] input IH]; cbn [FilterOp_Next].
  - now intros [= <-].
  - destruct (predicate row); [discriminate | exact IH].
  - discriminate.
Qed.

Lemma ProjectOp_end_final (p p' : ProjectOp) :
  ProjectOp_Next p = (Ok None, p') -> ProjectOp_Next p' = (Ok None, p').
Proof.
  unfold ProjectOp_Next. destruct (proj_input p) as [|[row|msg] input]; cbn [Input_Next].
  - now intros [= <-].
  - destruct (proj_passthrough p); discriminate.
  - discriminate.
Qed.

Lemma LimitOp_end_final (l l' : LimitOp) :
  LimitOp_Next l = (Ok None, l') -> LimitOp_Next l' = (Ok None, l').
Proof.
  unfold LimitOp_Next.
  destruct (skipRows (lim_offset l) (lim_skipped l) (lim_input l))
    as [[[res|] skipped'] input'] eqn:Hskip.
  - intros [= -> <-]. apply skipRows_returned in Hskip as [-> Hlt].
    cbn [lim_offset lim_skipped lim_input lim_count lim_limit skipRows].
    now rewrite (proj2 (Z.ltb_lt skipped' (lim_offset l))).
  - apply skipRows_skipped in Hskip.
    destruct (lim_count l >=? lim_limit l) eqn:Hcount.
    + intros [= <-].
      cbn [lim_offset lim_skipped lim_input lim_count lim_limit].
      now rewrite Hskip, Hcount.
    + destruct input' as [|[row|msg] input'']; cbn [Input_Next]; try discriminate.
      intros [= <-].
      cbn [lim_offset lim_skipped lim_input lim_count lim_limit].
      now rewrite Hskip, Hcount.
Qed.

Lemma ScalarAggregateOp_end_final (s s' : ScalarAggregateOp) :
  ScalarAggregateOp_Next s = (Ok None, s') -> ScalarAggregateOp_Next s' = (Ok None, s').
Proof.
  unfold ScalarAggregateOp_Next. destruct (sa_computed s) eqn:E.
  - intros [= <-]. now rewrite E.
  - now destruct (aggregateAll _ _ _) as [[states|msg] input'].
Qed.

Lemma HashAggregateOp_end_final (h h' : HashAggregateOp) :
  HashAggregateOp_Next h = (Ok None, h') -> HashAggregateOp_Next h' = (Ok None, h').
Proof.
  unfold HashAggregateOp_Next.
  destruct (if ha_computed h then _ else _) as [[[msg|] [groups keys]] input']; [discriminate|].
  destruct (ha_keyIndex h >=? len keys) eqn:Hend.
  - intros [= <-].
    cbn [ha_computed ha_groups ha_keys ha_input ha_groupByIndices ha_aggregates
         ha_outputSchema ha_keyIndex].
    now rewrite Hend.
  - destruct (if ha_keyIndex h <? 0 then None else keys !! Z.to_nat (ha_keyIndex h));
      [|discriminate].
    now destruct (groups !! _).
Qed.

Lemma mergeNext_end (s s' : SortOp) : mergeNext s = (Ok None, s') -> s' = s.
Proof.
  unfold mergeNext. destruct (exhausted s); [now intros [= <-]|].
  destruct (mergeHeap_ s) as [h|]; [|now intros [= <-]].
  destruct (Len h =? 0)%nat; [now intros [= <-]|].
  destruct (heap_Pop h) as [[item|] h']; [|now intros [= <-]].
  destruct (csv.Read _) as [[record|msg|] reader']; discriminate.
Qed.

Lemma prepare_prepared (s s' : SortOp) :
  prepare s = (None, s') -> prepared s' = true.
Proof.
  unfold prepare. destruct (prepared s) eqn:E; [now intros [= <-]|].
  destruct (chunkSize s <? 0); [discriminate|].
  destruct (fillChunks _ _ _ _ _ _) as [[[chunk|msg] files] input']; [|discriminate].
  destruct (setupMerge _) as [[msg|] s1]; [discriminate|]. now intros [= <-].
Qed.

Lemma SortOp_end_final (s s' : SortOp) :
  SortOp_Next s = (Ok None, s') -> SortOp_Next s' = (Ok None, s').
Proof.
  unfold SortOp_Next at 1. destruct (prepare s) as [[msg|] s1] eqn:Hprep; [discriminate|].
  intros Hmerge. pose proof (mergeNext_end _ _ Hmerge) as ->.
  rewrite (sort_facts.SortOp_Next_prepared s1 (prepare_prepared s s1 Hprep)). exact Hmerge.
Qed.

(** X25. For every operator, the end of the stream is final: a call
    of [Next] that returns it leaves the operator in a state in which
    every later call returns it again. *)
Theorem end_of_stream_is_final :
  (forall s s', CSVScan_Next s = (Ok None, s') -> CSVScan_Next s' = (Ok None, s'))
  /\ (forall predicate input input',
        FilterOp_Next predicate input = (Ok None, input') ->
        FilterOp_Next predicate input' = (Ok None, input'))
  /\ (forall p p', ProjectOp_Next p = (Ok None, p') -> ProjectOp_Next p' = (Ok None, p'))
  /\ (forall l l', LimitOp_Next l = (Ok None, l') -> LimitOp_Next l' = (Ok None, l'))
  /\ (forall s s', ScalarAggregateOp_Next s = (Ok None, s') ->
                   ScalarAggregateOp_Next s' = (Ok None, s'))
  /\ (forall h h', HashAggregateOp_Next h = (Ok None, h') ->
                   HashAggregateOp_Next h' = (Ok None, h'))
  /\ (forall s s', SortOp_Next s = (Ok None, s') -> SortOp_Next s' = (Ok None, s')).
Proof.
  split; [exact CSVScan_end_final|]. split; [exact FilterOp_end_final|].
  split; [exact ProjectOp_end_final|]. split; [exact LimitOp_end_final|].
  split; [exact ScalarAggregateOp_end_final|]. split; [exact HashAggregateOp_end_final|].
  exact SortOp_end_final.
Qed.

End facts.

End end_of_stream_facts.

(** ** Closing a sort *)

Module close_sort_facts.
Import operators.

Lemma os_Remove_present (path p : string) (st : os.State) :
  (p ∉ os.present st -> p ∉ os.present (snd (os.Remove path st)))
  /\ path ∉ os.present (snd (os.Remove path st)).
Proof.
  unfold os.Remove. destruct (decide (path ∈ os.present st)) as [Hin|Hout]; cbn.
  - split.
    + intros Hp Hp'. apply elem_of_difference in Hp' as [Hp' _]. contradiction.
    + intros Hp. apply elem_of_difference in Hp as [_ Hp]. apply Hp. now apply elem_of_singleton.
  - auto.
Qed.

Lemma removeFiles_gone (paths : list string) :
  forall st p,
    (p ∉ os.present st -> p ∉ os.present (removeFiles paths st))
    /\ (p ∈ paths -> p ∉ os.present (removeFiles paths st)).
Proof.
  induction paths as [|path paths IH]; intros st p; cbn [removeFiles fold_left].
  - split; [auto|]. intros Hp. now apply elem_of_nil in Hp.
  - fold (removeFiles paths (snd (os.Remove path st))).
    destruct (IH (snd (os.Remove path st)) p) as [IH1 IH2].
    destruct (os_Remove_present path p st) as [Hkeep Hgone]. split.
    + intros Hp. now apply IH1, Hkeep.
    + intros Hp. apply elem_of_cons in Hp as [->|Hp]; [now apply IH1 | now apply IH2].
Qed.

Lemma closeFiles_closed (files : list (option os.File)) :
  forall st f,
    Some f ∈ files -> f ∈ os.closed (closeFiles files st).
Proof.
  induction files as [|[g|] files IH]; intros st f Hf; cbn [closeFiles fold_left].
  - now apply elem_of_nil in Hf.
  - fold (closeFiles files (snd (os.Close g st))).
    apply elem_of_cons in Hf as [[= <-]|Hf]; [|now apply IH].
    apply close_facts.closeFiles_spec. unfold os.Close.
    destruct (decide (f ∈ os.closed st)); cbn; [assumption|].
    apply elem_of_union_l. now apply elem_of_singleton.
  - fold (closeFiles files st). apply elem_of_cons in Hf as [Hf|Hf]; [discriminate|].
    now apply IH.
Qed.

(** X26. [Close] on a sort whose upstream closes without error closes
    every run file it holds open and removes every temporary file it
    wrote; when the upstream returns an error, [Close] returns it at
    once, and the run files stay open and on disk. *)
Theorem Close_sort_releases_runs (input : Operator) (files : list (option os.File))
        (paths : list string) (st : os.State) :
  match Close input st with
  | (None, st1) =>
      exists st2,
        Close (OpSort input files paths) st = (None, st2)
        /\ (forall path, path ∈ paths -> path ∉ os.present st2)
        /\ (forall f, Some f ∈ files -> f ∈ os.closed st2)
  | (Some err, st1) => Close (OpSort input files paths) st = (Some err, st1)
  end.
Proof.
  cbn [Close]. destruct (Close input st) as [[err|] st1]; [reflexivity|].
  eexists. split; [reflexivity|]. split.
  - intros path Hpath. now apply removeFiles_gone.
  - intros f Hf. apply close_facts.removeFiles_spec. now apply closeFiles_closed.
Qed.

End close_sort_facts.

(** ** The merge heap is a priority queue *)

Module merge_heap_facts.
Import operators.

Local Open Scope list_scope.

(** [heap.Pop] until the heap is empty, [fuel] times at most. *)
Fixpoint popAll (fuel : nat) (h : mergeHeap) : list heapItem :=
  match fuel with
  | O => []
  | S fuel' =>
      if (Len h =? 0)%nat then []
      else match heap_Pop h with
           | (Some item, h') => item :: popAll fuel' h'
           | (None, _) => []
           end
  end.

(** [heap.Push] of the items, one by one. *)
Definition pushAll (h : mergeHeap) (new : list heapItem) : mergeHeap :=
  fold_left heap_Push new h.

Section facts.
Variables (col : Z) (dsc : bool) (all : list heapItem).
Hypothesis weak : strict_weak (sort_facts.itemLess col dsc) all.

Abbreviation less := (sort_facts.itemLess col dsc).
Abbreviation U := (fun item : heapItem => item ∈ all).

Lemma less_irrefl (a : heapItem) : U a -> less a a = false.
Proof. intros Ha. now apply weak. Qed.

Lemma less_trans (a b c : heapItem) :
  U a -> U b -> U c -> less a b = true -> less b c = true -> less a c = true.
Proof. intros Ha Hb Hc. destruct weak as (_ & Ht & _). now apply Ht. Qed.

Lemma less_negtrans (a b c : heapItem) :
  U a -> U b -> U c -> less a b = false -> less b c = false -> less a c = false.
Proof. intros Ha Hb Hc. destruct weak as (_ & _ & Hn). now apply Hn. Qed.

Definition heap (h : mergeHeap) : Prop :=
  mh_columnIndex h = col /\ mh_desc h = dsc
  /\ heap_facts.heap_ordered less (items h) /\ Forall U (items h).

Lemma heap_Push_heap (h : mergeHeap) (x : heapItem) :
  heap h -> U x -> heap (heap_Push h x) /\ items (heap_Push h x) ≡ₚ x :: items h.
Proof.
  intros (Hc & Hd & Ho & Hu) Hx. rewrite sort_facts.heap_Push_items.
  unfold heap. cbn [items set_items mh_columnIndex mh_desc]. rewrite Hc, Hd.
  split; [|apply heap_facts.lpush_Permutation].
  split; [reflexivity|]. split; [reflexivity|]. split.
  - now apply (heap_facts.lpush_ordered less U less_irrefl less_trans less_negtrans).
  - rewrite heap_facts.lpush_Permutation. now constructor.
Qed.

Lemma pushAll_heap (new : list heapItem) :
  forall h, heap h -> Forall U new ->
            heap (pushAll h new) /\ items (pushAll h new) ≡ₚ rev new ++ items h.
Proof.
  induction new as [|x new IH]; intros h Hh Hnew; cbn [pushAll fold_left rev].
  - now split.
  - apply Forall_cons in Hnew as [Hx Hnew].
    destruct (heap_Push_heap h x Hh Hx) as [Hh' Hp].
    destruct (IH (heap_Push h x) Hh' Hnew) as [Hh'' Hp'].
    split; [exact Hh''|]. unfold pushAll in Hp'. rewrite Hp', Hp, <- app_assoc.
    reflexivity.
Qed.

Lemma popAll_sorted (n : nat) :
  forall h, heap h -> length (items h) = n ->
            popAll n h ≡ₚ items h /\ ordered less (popAll n h).
Proof.
  induction n as [|n IH]; intros h Hh Hlen.
  - apply nil_length_inv in Hlen. rewrite Hlen. split; [reflexivity | constructor].
  - cbn [popAll]. unfold Len. rewrite Hlen. cbn [Nat.eqb].
    destruct Hh as (Hc & Hd & Ho & Hu).
    assert (items h <> []) as Hne by (intros E; now rewrite E in Hlen).
    destruct (heap_facts.lpop_spec less U less_irrefl less_trans less_negtrans
                (items h) Hne Ho Hu) as (r & rest & Hpop & Hroot & Hperm & Hrest).
    rewrite sort_facts.heap_Pop_items, Hc, Hd. rewrite Hpop. cbn [fst snd].
    assert (Forall U rest) as Hurest.
    { rewrite Hperm in Hu. now apply Forall_cons in Hu as [_ Hu]. }
    destruct (IH (set_items h rest)) as [Hp Hs].
    { unfold heap. cbn [items set_items mh_columnIndex mh_desc]. auto. }
    { cbn [items set_items]. apply Permutation_length in Hperm. cbn in Hperm. lia. }
    cbn [items set_items] in Hp. split.
    + now rewrite Hp, Hperm.
    + constructor; [exact Hs|]. rewrite Hp. apply Forall_forall. intros x Hx.
      apply (heap_facts.root_least less U less_irrefl less_negtrans (items h) r Ho Hu Hroot).
      rewrite Hperm. now right.
Qed.

Lemma popAll_pushAll (new : list heapItem) :
  Forall (fun item => item ∈ all) new ->
  popAll (length new) (pushAll (mkMergeHeap [] col dsc) new) ≡ₚ new
  /\ ordered less (popAll (length new) (pushAll (mkMergeHeap [] col dsc) new)).
Proof.
  intros Hnew.
  destruct (pushAll_heap new (mkMergeHeap [] col dsc)) as [Hh Hp].
  { unfold heap. cbn [items mh_columnIndex mh_desc].
    split; [reflexivity|]. split; [reflexivity|]. split; [|constructor].
    intros c x p Hc Hx. now rewrite lookup_nil in Hx. }
  { exact Hnew. }
  cbn [items] in Hp. rewrite app_nil_r in Hp.
  destruct (popAll_sorted (length new) (pushAll (mkMergeHeap [] col dsc) new) Hh) as [Hq Hs].
  { rewrite (Permutation_length Hp). apply length_rev. }
  split; [|exact Hs]. rewrite Hq, Hp. symmetry. apply Permutation_rev.
Qed.

End facts.

(** X27. The merge heap is a priority queue: pushing items into an
    empty heap with [heap.Push] and taking them out with [heap.Pop]
    returns the same items, least row first, when the comparison of
    the sort column is a strict weak order on them. *)
Theorem mergeHeap_pops_in_order (col : Z) (dsc : bool) (new : list heapItem) :
  strict_weak (sort_facts.itemLess col dsc) new ->
  let out := popAll (length new) (pushAll (mkMergeHeap [] col dsc) new) in
  out ≡ₚ new /\ ordered (sort_facts.itemLess col dsc) out.
Proof.
  intros Hweak. cbv zeta. apply (popAll_pushAll col dsc new Hweak).
  now apply Forall_forall.
Qed.

Lemma mergeHeap_pops_in_order_witness :
  popAll 3 (pushAll (mkMergeHeap [] 0 false)
              [mkHeapItem (mkRow [VInt 3]) 0; mkHeapItem (mkRow [VInt 1]) 1;
               mkHeapItem (mkRow [VInt 2]) 2])
  = [mkHeapItem (mkRow [VInt 1]) 1; mkHeapItem (mkRow [VInt 2]) 2;
     mkHeapItem (mkRow [VInt 3]) 0]
  /\ ordered (sort_facts.itemLess 0 false)
       (popAll 3 (pushAll (mkMergeHeap [] 0 false)
                    [mkHeapItem (mkRow [VInt 3]) 0; mkHeapItem (mkRow [VInt 1]) 1;
                     mkHeapItem (mkRow [VInt 2]) 2])).
Proof.
  split; [vm_compute; reflexivity|].
  apply (mergeHeap_pops_in_order 0 false
           [mkHeapItem (mkRow [VInt 3]) 0; mkHeapItem (mkRow [VInt 1]) 1;
            mkHeapItem (mkRow [VInt 2]) 2]).
  apply sort_facts.strict_weakb_sound. vm_compute. reflexivity.
Defined.

End merge_heap_facts.

(** ** Min and Max at the edge of the float range *)

Module min_max_facts.
Import operators.

Lemma updateState_numeric (state : aggregateState) (agg : AggregateExpr) (row : Row)
      (f : float) :
  isCount (agg_Type agg) = false -> aggregate_facts.numericAt agg row = Some f ->
  updateState state agg row
  = mkAggState (wrap64 (st_count state + 1)) (PrimFloat.add (st_sum state) f)
               (if PrimFloat.ltb f (st_min state) then f else st_min state)
               (if PrimFloat.ltb (st_max state) f then f else st_max state)
               true.
Proof.
  unfold updateState, aggregate_facts.numericAt. intros -> Hn. cbn [andb].
  destruct ((agg_ColumnIndex agg <? 0) || _); [discriminate|].
  now rewrite Hn.
Qed.

Lemma scalarValues_single (agg : AggregateExpr) (rows : list Row) :
  scalar_aggregate_facts.scalarValues [agg] rows
  = [finalizeState (aggregate_facts.stateAfter agg rows initState) agg].
Proof.
  unfold scalar_aggregate_facts.scalarValues. cbn [length replicate].
  pose proof (aggregate_facts.updateStates_lookup [agg] rows [initState] 0 agg initState
                eq_refl eq_refl) as Hst.
  pose proof (scalar_aggregate_facts.updateStates_length [agg] rows [initState] eq_refl)
    as Hlen.
  destruct (fold_left _ rows [initState]) as [|state [|? ?]]; try discriminate.
  cbn in Hst. injection Hst as ->. reflexivity.
Qed.

Lemma stateAfter_min_kept (agg : AggregateExpr) (rows : list Row) :
  isCount (agg_Type agg) = false ->
  Forall (fun row => exists f, aggregate_facts.numericAt agg row = Some f
                               /\ PrimFloat.ltb f golang.MaxFloat64 = false) rows ->
  forall state,
    st_min state = golang.MaxFloat64 ->
    st_min (aggregate_facts.stateAfter agg rows state) = golang.MaxFloat64
    /\ (rows <> [] -> st_hasData (aggregate_facts.stateAfter agg rows state) = true).
Proof.
  intros Hagg. induction 1 as [|row rows (f & Hf & Hlt) _ IH]; intros state Hmin.
  - split; [exact Hmin | contradiction].
  - rewrite aggregate_facts.stateAfter_cons, (updateState_numeric state agg row f Hagg Hf).
    rewrite Hmin, Hlt. set (state' := mkAggState _ _ _ _ _).
    destruct (IH state' eq_refl) as [IH1 IH2]. split; [exact IH1|]. intros _.
    destruct rows as [|row' rows]; [reflexivity | apply IH2; discriminate].
Qed.

Lemma stateAfter_max_kept (agg : AggregateExpr) (rows : list Row) :
  isCount (agg_Type agg) = false ->
  Forall (fun row => exists f, aggregate_facts.numericAt agg row = Some f
                               /\ PrimFloat.ltb (PrimFloat.opp golang.MaxFloat64) f = false)
         rows ->
  forall state,
    st_max state = PrimFloat.opp golang.MaxFloat64 ->
    st_max (aggregate_facts.stateAfter agg rows state) = PrimFloat.opp golang.MaxFloat64
    /\ (rows <> [] -> st_hasData (aggregate_facts.stateAfter agg rows state) = true).
Proof.
  intros Hagg. induction 1 as [|row rows (f & Hf & Hlt) _ IH]; intros state Hmax.
  - split; [exact Hmax | contradiction].
  - rewrite aggregate_facts.stateAfter_cons, (updateState_numeric state agg row f Hagg Hf).
    rewrite Hmax, Hlt. set (state' := mkAggState _ _ _ _ _).
    destruct (IH state' eq_refl) as [IH1 IH2]. split; [exact IH1|]. intros _.
    destruct rows as [|row' rows]; [reflexivity | apply IH2; discriminate].
Qed.

(** X28. Min starts from [math.MaxFloat64] and only takes a value
    below it, so over rows whose values are all not below it
    (infinity, not-a-number) Min returns [math.MaxFloat64], which is
    none of the values; likewise Max returns [-math.MaxFloat64] over
    values that are all not above it. *)
Theorem Min_Max_keep_initial_bound (column : Z) (alias : string) (rows : list Row) :
  rows <> [] ->
  (Forall (fun row =>
             exists f, aggregate_facts.numericAt (mkAggregateExpr types.Min column alias) row
                       = Some f
                       /\ PrimFloat.ltb f golang.MaxFloat64 = false) rows ->
   scalar_aggregate_facts.scalarValues [mkAggregateExpr types.Min column alias] rows
   = [VFloat golang.MaxFloat64])
  /\ (Forall (fun row =>
                exists f, aggregate_facts.numericAt (mkAggregateExpr types.Max column alias) row
                          = Some f
                          /\ PrimFloat.ltb (PrimFloat.opp golang.MaxFloat64) f = false) rows ->
      scalar_aggregate_facts.scalarValues [mkAggregateExpr types.Max column alias] rows
      = [VFloat (PrimFloat.opp golang.MaxFloat64)]).
Proof.
  intros Hne. split; intros Hrows; rewrite scalarValues_single; cbn [finalizeState agg_Type].
  - destruct (stateAfter_min_kept (mkAggregateExpr types.Min column alias) rows eq_refl
                Hrows initState eq_refl) as [-> Hd].
    now rewrite (Hd Hne).
  - destruct (stateAfter_max_kept (mkAggregateExpr types.Max column alias) rows eq_refl
                Hrows initState eq_refl) as [-> Hd].
    now rewrite (Hd Hne).
Qed.

Lemma Min_Max_keep_initial_bound_witness :
  scalar_aggregate_facts.scalarValues [mkAggregateExpr types.Min 0 "m"]
    [mkRow [VFloat infinity]; mkRow [VFloat nan]]
  = [VFloat golang.MaxFloat64]
  /\ scalar_aggregate_facts.scalarValues [mkAggregateExpr types.Max 0 "m"]
       [mkRow [VFloat neg_infinity]; mkRow [VFloat nan]]
     = [VFloat (PrimFloat.opp golang.MaxFloat64)].
Proof.
  split.
  - apply (Min_Max_keep_initial_bound 0 "m" [mkRow [VFloat infinity]; mkRow [VFloat nan]]);
      [discriminate|].
    repeat constructor; eexists; split; reflexivity.
  - apply (Min_Max_keep_initial_bound 0 "m" [mkRow [VFloat neg_infinity]; mkRow [VFloat nan]]);
      [discriminate|].
    repeat constructor; eexists; split; reflexivity.
Defined.

End min_max_facts.
